(** * stop/ast: parser and declaration resolver of the Go front end

    A shallow embedding of [ast/ast.go], [ast/grammar.go], the declaration
    grammar that supersedes it, [ast/errors.go] and [ast/decl.go], together
    with the properties of them that the specification states.

    Conventions.
    - Go's [int] is [Z]; a [rune] is a [Z] code point; [*big.Int] is [Z] and
      [*big.Rat] is a reduced [Q]; a Go [string] is a [string] of bytes.
    - [panic]/[recover] is an explicit outcome: a grammar function either
      finishes with a value and the advanced parser, or unwinds with the
      panicked value.  Recursion of the grammar is bounded by a fuel
      argument; [Exhausted] is the embedding running out of fuel, which no
      Go run can observe.
    - Pointers that the resolver shares (symbol tables) live in an explicit
      store and are addressed by index. *)

From Stdlib Require Import ZArith QArith Qpower Qfield String Ascii List Lia Bool.
From stdpp Require Import base option list strings gmap.

Set Warnings "-register-all".

Local Open Scope string_scope.
Local Open Scope list_scope.
Local Open Scope Z_scope.

(** ** token: locations and token kinds *)

Module token.

(** Modelled from the spec: package [token] is not among the source files.
    A location is a source position, ordered by (line, column); the zero
    value [Location{}] is [zero]. *)
Record Location : Type := mkLocation { Line : Z; Column : Z }.

Definition zero : Location := mkLocation 0 0.

(** [a <= b], lexicographically by (line, column). *)
Definition leb (a b : Location) : bool :=
  (Line a <? Line b) || ((Line a =? Line b) && (Column a <=? Column b)).

Definition le (a b : Location) : Prop := leb a b = true.

(** Modelled from the spec: the token kinds, as far as the grammar names
    them. *)
Inductive Token : Type :=
| EOF | Error | Identifier
| IntegerLiteral | FloatLiteral | ImaginaryLiteral | RuneLiteral
| StringLiteral
| OrOr | AndAnd | EqualEqual | BangEqual | Less | LessEqual | Greater
| GreaterEqual | Plus | Minus | Or | Carrot | Star | Divide | Percent
| LessLess | GreaterGreater | And | AndCarrot
| Bang | LessMinus
| OpenBracket | CloseBracket | OpenParen | CloseParen | OpenBrace
| CloseBrace | Dot | DotDotDot | Comma | Colon | Semicolon | Equal
| Struct | Func | Interface | Map | Chan | Type_ | Const | Var.

Definition code (t : Token) : positive :=
  match t with
  | EOF => 1 | Error => 2 | Identifier => 3
  | IntegerLiteral => 4 | FloatLiteral => 5 | ImaginaryLiteral => 6
  | RuneLiteral => 7 | StringLiteral => 8
  | OrOr => 9 | AndAnd => 10 | EqualEqual => 11 | BangEqual => 12
  | Less => 13 | LessEqual => 14 | Greater => 15 | GreaterEqual => 16
  | Plus => 17 | Minus => 18 | Or => 19 | Carrot => 20 | Star => 21
  | Divide => 22 | Percent => 23 | LessLess => 24 | GreaterGreater => 25
  | And => 26 | AndCarrot => 27 | Bang => 28 | LessMinus => 29
  | OpenBracket => 30 | CloseBracket => 31 | OpenParen => 32
  | CloseParen => 33 | OpenBrace => 34 | CloseBrace => 35 | Dot => 36
  | DotDotDot => 37 | Comma => 38 | Colon => 39 | Semicolon => 40
  | Equal => 41 | Struct => 42 | Func => 43 | Interface => 44 | Map => 45
  | Chan => 46 | Type_ => 47 | Const => 48 | Var => 49
  end%positive.

Definition eqb (a b : Token) : bool := Pos.eqb (code a) (code b).

End token.

Abbreviation Location := token.Location.
Abbreviation Token := token.Token.

(** ** The token cursor *)

(** One token as the lexer hands it over: its kind, its text, its span, and
    the comment lines that precede it. *)
Record Lexeme : Type := mkLexeme {
  ltok : Token;
  ltext : string;
  lstart : Location;
  lend : Location;
  lcomments : list string
}.

(** Modelled from the spec: the [Parser] type and its methods [next],
    [expect], [err], [text], [span] and [comments] are not among the source
    files.  The spec describes a cursor over the token stream exposing the
    current token kind, its text and span, and [advance] as the only way
    the position moves; the lexer keeps answering end-of-input once the
    stream is used up.  [unread] holds the current token and everything
    after it; [eofAt] is where the end-of-input token sits. *)
Record Parser : Type := mkParser {
  unread : list Lexeme;
  eofAt : Location
}.

Definition lex (p : Parser) : Lexeme :=
  match unread p with
  | l :: _ => l
  | [] => mkLexeme token.EOF "" (eofAt p) (eofAt p) []
  end.

Definition tok (p : Parser) : Token := ltok (lex p).
Definition text (p : Parser) : string := ltext (lex p).
Definition comments (p : Parser) : list string := lcomments (lex p).

(** Modelled from the spec: the declaration of [span], the pair of ends that
    literal and name nodes embed, is not among the source files. *)
Record span : Type := mkSpan { start : Location; end_ : Location }.

Definition pspan (p : Parser) : span := mkSpan (lstart (lex p)) (lend (lex p)).

Definition advance (p : Parser) : Parser :=
  mkParser (tail (unread p)) (eofAt p).

(** ** errors.go *)

(** What a syntax error says was expected: [p.err] is called with token kinds
    and with descriptive strings. *)
Inductive Want : Type :=
| WTok (t : Token)
| WStr (s : string).

(** The derivation trace [Stack] is debugging text and is left out. *)
Record SyntaxError : Type := mkSyntaxError {
  Wanted : list Want;
  Got : Token;
  Text : string;
  seStart : Location;
  seEnd : Location
}.

Record MalformedLiteral : Type := mkMalformedLiteral {
  mlType : string;
  mlText : string;
  mlStart : Location;
  mlEnd : Location
}.

(** A value handed to [panic].  [PNilDeref] is the run-time panic of a method
    call through a nil interface. *)
Inductive PanicValue : Type :=
| PSyntaxError (e : SyntaxError)
| PMalformedLiteral (e : MalformedLiteral)
| PString (s : string)
| PNilDeref.

(** Modelled from the spec: [p.err(want...)] makes the [SyntaxError] of the
    current token, carrying the expected-token description, the actual token
    kind and text, and the offending span. *)
Definition err (p : Parser) (want : list Want) : SyntaxError :=
  mkSyntaxError want (tok p) (text p) (lstart (lex p)) (lend (lex p)).

Definition malformed (p : Parser) (kind : string) : PanicValue :=
  PMalformedLiteral (mkMalformedLiteral kind (text p) (lstart (lex p)) (lend (lex p))).

(** ** Outcomes of a grammar function *)

Inductive outcome (A : Type) : Type :=
| Done (a : A) (p : Parser)
| Panicked (v : PanicValue)
| Exhausted.

Arguments Done {A} a p.
Arguments Panicked {A} v.
Arguments Exhausted {A}.

Definition M (A : Type) : Type := Parser -> outcome A.

Definition ret {A} (a : A) : M A := fun p => Done a p.

Definition bind {A B} (m : M A) (k : A -> M B) : M B :=
  fun p =>
    match m p with
    | Done a p' => k a p'
    | Panicked v => Panicked v
    | Exhausted => Exhausted
    end.

Definition panic {A} (v : PanicValue) : M A := fun _ => Panicked v.
Definition exhausted {A} : M A := fun _ => Exhausted.

(** Reads of the cursor. *)
Definition peek {A} (f : Parser -> A) : M A := fun p => Done (f p) p.

(** Modelled from the spec: [p.next()] moves to the next token. *)
Definition next : M unit := fun p => Done tt (advance p).

(** Modelled from the spec: [p.expect(tok)] panics with [p.err(tok)] unless
    the current token is [tok]. *)
Definition expect (t : Token) : M unit :=
  fun p =>
    if token.eqb (tok p) t then Done tt p
    else Panicked (PSyntaxError (err p [WTok t])).

Definition panicErr {A} (want : list Want) : M A :=
  fun p => Panicked (PSyntaxError (err p want)).

Notation "'let*' x ':=' m 'in' k" := (bind m (fun x => k))
  (at level 10, x name, m at level 100, k at level 200).
Notation "'let*' ' x ':=' m 'in' k" := (bind m (fun x => k))
  (at level 10, x strict pattern, m at level 100, k at level 200).

(** ** ast.go: the node model *)

Record Identifier : Type := mkIdentifier { Name : string; idSpan : span }.

Record StringLiteral : Type := mkStringLiteral { slValue : string; slSpan : span }.

(** [Signature.Result] is a [ParameterList] in ast.go; grammar.go, written
    against the earlier declaration of [Signature], leaves it nil or stores
    either a pointer to a parameter list or a bare type in it.  [SigResult]
    holds the three shapes. *)
Inductive Expression : Type :=
| EIdentifier (id : Identifier)
| EIntegerLiteral (Value : Z) (sp : span)
| EFloatLiteral (Value : Q) (sp : span)
| EImaginaryLiteral (Value : Q) (sp : span)
| ERuneLiteral (Value : Z) (sp : span)
| EStringLiteral (l : StringLiteral)
| ECompositeLiteral (Typ : option Typ) (Elements : list Element)
    (openLoc closeLoc : Location)
| EIndex (X Index : Expression) (openLoc closeLoc : Location)
| ESlice (X : Expression) (Low High Max : option Expression)
    (openLoc closeLoc : Location)
| ETypeAssertion (X : Expression) (T : option Typ) (dotLoc closeLoc : Location)
| ESelector (X : Expression) (Selection : Identifier) (dotLoc : Location)
| ECall (Function : Expression) (Arguments : list Expression)
    (DotDotDot : bool) (openLoc closeLoc : Location)
| EBinaryOp (Op : Token) (opLoc : Location) (Left Right : Expression)
| EUnaryOp (Op : Token) (opLoc : Location) (Operand : Expression)
with Typ : Type :=
| TTypeName (Package Name : string) (sp : span)
| TStructType (Fields : list FieldDecl) (keywordLoc closeLoc : Location)
| TInterfaceType (Methods : list InterfaceEntry) (keywordLoc closeLoc : Location)
| TFunctionType (s : Signature)
| TArrayType (Size : option Expression) (T : Typ) (openLoc : Location)
| TSliceType (T : Typ) (openLoc : Location)
| TPointerType (T : Typ) (starLoc : Location)
| TMapType (Key T : Typ) (mapLoc : Location)
| TChannelType (Send Receive : bool) (T : Typ) (startLoc : Location)
with Element : Type :=
| mkElement (Key : option Expression) (Value : Expression)
with FieldDecl : Type :=
| mkFieldDecl (Identifiers : list Identifier) (T : Typ) (Tag : option StringLiteral)
with InterfaceEntry : Type :=
| IMethod (Name : Identifier) (s : Signature)
| IEmbedded (T : Typ)
with Signature : Type :=
| mkSignature (Parameters : ParameterList) (Result : SigResult)
with SigResult : Type :=
| ResultNil
| ResultList (pl : ParameterList)
| ResultType (T : Typ)
with ParameterList : Type :=
| mkParameterList (Parameters : list ParameterDecl) (openLoc closeLoc : Location)
with ParameterDecl : Type :=
| mkParameterDecl (T : Typ) (Identifiers : list Identifier) (DotDotDot : bool).

(** Accessors of [ParameterList] and [ParameterDecl]. *)
Definition plParameters (pl : ParameterList) : list ParameterDecl :=
  match pl with mkParameterList ps _ _ => ps end.
Definition plOpenLoc (pl : ParameterList) : Location :=
  match pl with mkParameterList _ o _ => o end.
Definition plCloseLoc (pl : ParameterList) : Location :=
  match pl with mkParameterList _ _ c => c end.
Definition pdType (d : ParameterDecl) : Typ :=
  match d with mkParameterDecl t _ _ => t end.
Definition pdIdentifiers (d : ParameterDecl) : list Identifier :=
  match d with mkParameterDecl _ ids _ => ids end.
Definition pdDotDotDot (d : ParameterDecl) : bool :=
  match d with mkParameterDecl _ _ ddd => ddd end.

(** [ConstSpec] and [TypeSpec], the declarations of the declaration grammar. *)
Record ConstSpec : Type := mkConstSpec {
  csComments : list string;
  csType : option Typ;
  csNames : list Identifier;
  csValues : list Expression
}.

Record TypeSpec : Type := mkTypeSpec {
  tsComments : list string;
  tsName : Identifier;
  tsType : Typ
}.

Inductive Declaration : Type :=
| DConstSpec (d : ConstSpec)
| DTypeSpec (d : TypeSpec).

Definition Declarations : Type := list Declaration.

(** A root handed back by [Parse]. *)
Inductive Node : Type :=
| NExpression (e : Expression)
| NDeclarations (ds : Declarations).

(** *** Start and End

    [None] stands for the run-time panic of a call through a nil interface.
    The embedded [span] answers [Start] and [End] with its two ends. *)

Fixpoint exprStart (n : Expression) : option Location :=
    match n with
    | EIdentifier id => Some (start (idSpan id))
    | EIntegerLiteral _ sp | EFloatLiteral _ sp | EImaginaryLiteral _ sp
    | ERuneLiteral _ sp => Some (start sp)
    | EStringLiteral l => Some (start (slSpan l))
    | ECompositeLiteral ty _ openLoc _ =>
        (* if n.Type != nil { return n.openLoc }; return n.Type.Start() *)
        match ty with
        | Some _ => Some openLoc
        | None => None
        end
    | EIndex x _ _ _ => exprStart x
    | ESlice x _ _ _ _ _ => exprStart x
    | ETypeAssertion x _ _ _ => exprStart x
    | ESelector x _ _ => exprStart x
    | ECall f _ _ _ _ => exprStart f
    | EBinaryOp _ _ l _ => exprStart l
    | EUnaryOp _ opLoc _ => Some opLoc
    end.

Definition typStart (n : Typ) : option Location :=
  match n with
  | TTypeName _ _ sp => Some (start sp)
  | TStructType _ keywordLoc _ => Some keywordLoc
  | TInterfaceType _ keywordLoc _ => Some keywordLoc
  | TFunctionType (mkSignature ps _) => Some (plOpenLoc ps)
  | TArrayType _ _ openLoc => Some openLoc
  | TSliceType _ openLoc => Some openLoc
  | TPointerType _ starLoc => Some starLoc
  | TMapType _ _ mapLoc => Some mapLoc
  | TChannelType _ _ _ startLoc => Some startLoc
  end.

(** [Signature.End] is [n.Result.End()]; a result that grammar.go left nil
    has no end, and a bare result type ends where the type ends. *)
Fixpoint typEnd (n : Typ) : option Location :=
  match n with
  | TTypeName _ _ sp => Some (end_ sp)
  | TStructType _ _ closeLoc => Some closeLoc
  | TInterfaceType _ _ closeLoc => Some closeLoc
  | TFunctionType (mkSignature _ r) =>
      match r with
      | ResultList pl => Some (plCloseLoc pl)
      | ResultType t => typEnd t
      | ResultNil => None
      end
  | TArrayType _ t _ => typEnd t
  | TSliceType t _ => typEnd t
  | TPointerType t _ => typEnd t
  | TMapType _ t _ => typEnd t
  | TChannelType _ _ t _ => typEnd t
  end.

Fixpoint exprEnd (n : Expression) : option Location :=
  match n with
  | EIdentifier id => Some (end_ (idSpan id))
  | EIntegerLiteral _ sp | EFloatLiteral _ sp | EImaginaryLiteral _ sp
  | ERuneLiteral _ sp => Some (end_ sp)
  | EStringLiteral l => Some (end_ (slSpan l))
  | ECompositeLiteral _ _ _ closeLoc => Some closeLoc
  | EIndex _ _ _ closeLoc => Some closeLoc
  | ESlice _ _ _ _ _ closeLoc => Some closeLoc
  | ETypeAssertion _ _ _ closeLoc => Some closeLoc
  | ESelector _ sel _ => Some (end_ (idSpan sel))
  | ECall _ _ _ _ closeLoc => Some closeLoc
  | EBinaryOp _ _ _ r => exprEnd r
  | EUnaryOp _ _ operand => exprEnd operand
  end.

(** [node.Start() <= child.Start()], both calls returning. *)
Definition startsNoLaterThan (node child : option Location) : bool :=
  match node, child with
  | Some a, Some b => token.leb a b
  | _, _ => false
  end.

(** ** Library functions the literal parsers call

    [math/big], [strings] and [strconv] belong to Go's library, not to this
    repository.  The scanners of [math/big] are written out after the
    library's own text, because the decoded value of a numeric literal is
    theirs; [strconv.Unquote] and [strconv.UnquoteChar] stay a parameter of
    the grammar. *)

Module big.

Definition hexValue (ch : ascii) : Z :=
  let n := Z.of_N (N_of_ascii ch) in
  if (48 <=? n) && (n <=? 57) then n - 48
  else if (97 <=? n) && (n <=? 122) then n - 97 + 10
  else if (65 <=? n) && (n <=? 90) then n - 65 + 10
  else 37.

(** The digit loop of [nat.scan]: the longest run of digits below [b]. *)
Fixpoint scanDigits (b : Z) (s : string) (acc : Z) (n : nat) : Z * nat * string :=
  match s with
  | EmptyString => (acc, n, EmptyString)
  | String ch r =>
      if hexValue ch <? b then scanDigits b r (acc * b + hexValue ch) (S n)
      else (acc, n, s)
  end.

Definition isOneOf (ch : ascii) (a b : ascii) : bool :=
  Ascii.eqb ch a || Ascii.eqb ch b.

(** [nat.scan]: with [base = 0] the prefix chooses the base, [0x] or [0X]
    for 16, [0b] or [0B] for 2, a bare [0] for 8, otherwise 10.  Answers
    the value and the unread rest, or [None] for the scanner's error. *)
Definition natScan (s : string) (base : Z) : option (Z * string) :=
  match s with
  | EmptyString => None
  | String ch r =>
      let digits (b : Z) (from : string) (prefixOnly : bool) :=
        match scanDigits b from 0 0%nat with
        | (v, n, rest) =>
            if (0 <? n)%nat || prefixOnly then Some (v, rest) else None
        end in
      if (base =? 0) && Ascii.eqb ch "0" then
        match r with
        | EmptyString => Some (0, EmptyString)
        | String ch2 r2 =>
            if isOneOf ch2 "x" "X" then
              match r2 with
              | EmptyString => None
              | _ => digits 16 r2 false
              end
            else if isOneOf ch2 "b" "B" then
              match r2 with
              | EmptyString => None
              | _ => digits 2 r2 false
              end
            else digits 8 r true
        end
      else digits (if base =? 0 then 10 else base) s false
  end.

(** [Int.scan] followed by the end-of-input check of [Int.SetString]. *)
Definition IntSetString (s : string) (base : Z) : option Z :=
  match s with
  | EmptyString => None
  | String ch r =>
      let '(neg, body) :=
        if Ascii.eqb ch "-" then (true, r)
        else if Ascii.eqb ch "+" then (false, r)
        else (false, s) in
      match natScan body base with
      | Some (v, EmptyString) => Some (if neg then - v else v)
      | _ => None
      end
  end.

(** [strings.Index] for a one-byte pattern, and [strings.IndexAny]; -1 when
    there is no match. *)
Fixpoint indexAny (s : string) (chars : list ascii) : Z :=
  match s with
  | EmptyString => -1
  | String ch r =>
      if existsb (Ascii.eqb ch) chars then 0
      else let i := indexAny r chars in if i <? 0 then -1 else i + 1
  end.

Definition slice (s : string) (lo hi : Z) : string :=
  String.substring (Z.to_nat lo) (Z.to_nat (hi - lo)) s.

Definition len (s : string) : Z := Z.of_nat (String.length s).

(** [Rat.SetString]: a quotient [a/b], or a decimal with an optional
    fraction and an optional exponent.  The result is in lowest terms. *)
Definition RatSetString (s : string) : option Q :=
  if len s =? 0 then None
  else
    let sep := indexAny s ["/"%char] in
    if 0 <=? sep then
      match IntSetString (slice s 0 sep) 10,
            natScan (slice s (sep + 1) (len s)) 10 with
      | Some a, Some (b, _) =>
          Some (Qred (a # (if b =? 0 then 1%positive else Z.to_pos b)))
      | _, _ => None
      end
    else
      let sep := indexAny s ["."%char] in
      let e := indexAny s ["e"%char; "E"%char] in
      let scanned :=
        if 0 <=? e then
          if e <? sep then None
          else
            match IntSetString (slice s (e + 1) (len s)) 10 with
            | Some x => Some (x, slice s 0 e)
            | None => None
            end
        else Some (0, s) in
      match scanned with
      | None => None
      | Some (exp, s) =>
          let '(exp, s) :=
            if 0 <=? sep then
              let s' := String.append (slice s 0 sep) (slice s (sep + 1) (len s)) in
              (exp - (len s' - sep), s')
            else (exp, s) in
          match IntSetString s 10 with
          | None => None
          | Some a =>
              let powTen := 10 ^ Z.abs exp in
              if exp <? 0 then Some (Qred (a # Z.to_pos powTen))
              else Some (Qred ((a * powTen) # 1))
          end
      end.

End big.

Module strings.

(** [strings.Replace(s, "\r", "", -1)]: every carriage return is dropped. *)
Fixpoint dropCR (s : string) : string :=
  match s with
  | EmptyString => EmptyString
  | String ch r =>
      if Ascii.eqb ch "013" then dropCR r else String ch (dropCR r)
  end.

End strings.

(** [strconv.Unquote(text)] and [strconv.UnquoteChar(text, quote)], the latter
    reduced to the rune it decodes; [None] is the library's error. *)
Record Strconv : Type := mkStrconv {
  Unquote : string -> option string;
  UnquoteChar : string -> ascii -> option Z
}.

Definition lexStart (p : Parser) : Location := lstart (lex p).
Definition lexEnd (p : Parser) : Location := lend (lex p).

(** ** The literal and name parsers

    These functions have the same text in grammar.go and in the declaration
    grammar. *)

Section Leaves.

Context (sc : Strconv).

Definition parseIdentifier : M Identifier :=
  let* _ := expect token.Identifier in
  let* name := peek text in
  let* sp := peek pspan in
  let* _ := next in
  ret (mkIdentifier name sp).

Definition parseTypeName : M Typ :=
  let* _ := expect token.Identifier in
  let* name := peek text in
  let* sp := peek pspan in
  let* _ := next in
  let* t := peek tok in
  if token.eqb t token.Dot then
    let* _ := next in
    let* _ := expect token.Identifier in
    let* name2 := peek text in
    let* _ := next in
    ret (TTypeName name name2 sp)
  else ret (TTypeName "" name sp).

Definition parseIntegerLiteral : M Expression :=
  let* sp := peek pspan in
  let* txt := peek text in
  match big.IntSetString txt 0 with
  | Some v =>
      let* _ := next in
      ret (EIntegerLiteral v sp)
  | None =>
      (* Catches malformed octal literals that the lexer allows, as 08. *)
      fun p => Panicked (malformed p "integer literal")
  end.

Definition parseFloatLiteral : M Expression :=
  let* sp := peek pspan in
  let* txt := peek text in
  match big.RatSetString txt with
  | Some v =>
      let* _ := next in
      ret (EFloatLiteral v sp)
  | None => fun p => Panicked (malformed p "float literal")
  end.

Definition lastByte (s : string) : option ascii :=
  String.get (String.length s - 1) s.

Definition parseImaginaryLiteral : M Expression :=
  let* txt := peek text in
  if (big.len txt <? 1)
     || negb (bool_decide (lastByte txt = Some "i"%char)) then
    panic (PString (String.append "bad imaginary literal: " txt))
  else
    let txt' := big.slice txt 0 (big.len txt - 1) in
    let* sp := peek pspan in
    match big.RatSetString txt' with
    | Some v =>
        let* _ := next in
        ret (EImaginaryLiteral v sp)
    | None => fun p => Panicked (malformed p "imaginary literal")
    end.

Definition parseStringLiteral : M StringLiteral :=
  let* txt := peek text in
  if big.len txt <? 2 then panic (PString (String.append "bad string literal: " txt))
  else
    let* sp := peek pspan in
    let* value :=
      if bool_decide (String.get 0 txt = Some "`"%char) then
        ret (strings.dropCR (big.slice txt 1 (big.len txt - 1)))
      else
        match Unquote sc txt with
        | Some v => ret v
        | None => panic (PString (String.append "bad string literal: " txt))
        end in
    let* _ := next in
    ret (mkStringLiteral value sp).

Definition parseRuneLiteral : M Expression :=
  let* txt := peek text in
  if big.len txt <? 3 then panic (PString (String.append "bad rune literal: " txt))
  else
    match UnquoteChar sc (big.slice txt 1 (big.len txt)) "'"%char with
    | None =>
        (* The lexer may allow bad rune literals (above 0x0010FFFF and
           surrogate halves). *)
        fun p => Panicked (malformed p "rune literal")
    | Some r =>
        let* sp := peek pspan in
        let* _ := next in
        ret (ERuneLiteral r sp)
    end.

(** [typeNameDecls]: every identifier read so far was a type name. *)
Definition typeNameDecls (idents : list Identifier) : list ParameterDecl :=
  map (fun id => mkParameterDecl (TTypeName "" (Name id) (idSpan id)) [] false)
      idents.

End Leaves.

(** Tables shared by both grammars. *)

Definition precedence (t : Token) : option Z :=
  match t with
  | token.OrOr => Some 1
  | token.AndAnd => Some 2
  | token.EqualEqual | token.BangEqual | token.Less | token.LessEqual
  | token.Greater | token.GreaterEqual => Some 3
  | token.Plus | token.Minus | token.Or | token.Carrot => Some 4
  | token.Star | token.Divide | token.Percent | token.LessLess
  | token.GreaterGreater | token.And | token.AndCarrot => Some 5
  | _ => None
  end.

Definition unary (t : Token) : bool :=
  match t with
  | token.Plus | token.Minus | token.Bang | token.Carrot | token.Star
  | token.And | token.LessMinus => true
  | _ => false
  end.

Definition typeFirst (t : Token) : bool :=
  match t with
  | token.Identifier | token.Star | token.OpenBracket | token.Struct
  | token.Func | token.Interface | token.Map | token.Chan | token.LessMinus
  | token.OpenParen => true
  | _ => false
  end.

Definition typeWanted : list Want :=
  [WTok token.Identifier; WTok token.Star; WTok token.OpenBracket;
   WTok token.Struct; WTok token.Func; WTok token.Interface; WTok token.Map;
   WTok token.Chan; WTok token.LessMinus; WTok token.OpenParen].

Definition withOpenLoc (openLoc : Location) (sl : Expression) : Expression :=
  match sl with
  | ESlice x lo hi mx _ closeLoc => ESlice x lo hi mx openLoc closeLoc
  | other => other
  end.

(** What [Parse] hands back: the two results of a normal return, or the panic
    that it raised again. *)
Inductive ParseError : Type :=
| ErrSyntax (e : SyntaxError)
| ErrMalformed (e : MalformedLiteral).

Inductive ParseResult : Type :=
| Returned (root : option Node) (err : option ParseError)
| Repanicked (v : PanicValue)
| OutOfFuel.

(** The deferred function of [Parse]. *)
Definition recovered {A} (wrap : A -> Node) (o : outcome A) : ParseResult :=
  match o with
  | Done a _ => Returned (Some (wrap a)) None
  | Panicked (PSyntaxError e) => Returned None (Some (ErrSyntax e))
  | Panicked (PMalformedLiteral e) => Returned None (Some (ErrMalformed e))
  | Panicked v => Repanicked v
  | Exhausted => OutOfFuel
  end.

(** ** grammar.go: the expression grammar *)

Module Grammar.

Section WithStrconv.

Context (sc : Strconv).

(** The identifier loop of [parseDeclParameterList]. *)
Fixpoint parseDeclIdentifiers (fuel : nat) (ids : list Identifier) {struct fuel}
  : M (list Identifier) :=
  match fuel with
  | O => exhausted
  | S fuel =>
      let* id := parseIdentifier in
      let ids := ids ++ [id] in
      let* t := peek tok in
      if token.eqb t token.Comma then
        let* _ := next in
        parseDeclIdentifiers fuel ids
      else ret ids
  end.

Fixpoint parseType (fuel : nat) {struct fuel}
  : M Typ :=
  match fuel with
  | O => exhausted
  | S fuel =>
      let* t := peek tok in
      match t with
      | token.Identifier => parseTypeName
      | token.Star =>
          let* starLoc := peek lexStart in
          let* _ := next in
          let* ty := parseType fuel in
          ret (TPointerType ty starLoc)
      | token.OpenBracket => parseArrayOrSliceType fuel
      | token.Struct => panic (PString "unimplemented")
      | token.Func =>
          let* _ := next in
          let* s := parseSignature fuel in
          ret (TFunctionType s)
      | token.Interface => panic (PString "unimplemented")
      | token.Map => parseMapType fuel
      | token.Chan | token.LessMinus => parseChannelType fuel
      | token.OpenParen =>
          let* _ := next in
          let* ty := parseType fuel in
          let* _ := expect token.CloseParen in
          let* _ := next in
          ret ty
      | _ => panicErr typeWanted
      end
  end

with parseSignature (fuel : nat) {struct fuel}
  : M Signature :=
  match fuel with
  | O => exhausted
  | S fuel =>
      let* params := parseParameterList fuel in
      let* t := peek tok in
      if token.eqb t token.OpenParen then
        let* results := parseParameterList fuel in
        ret (mkSignature params (ResultList results))
      else if typeFirst t then
        let* ty := parseType fuel in
        ret (mkSignature params (ResultType ty))
      else ret (mkSignature params ResultNil)
  end

with parseParameterList (fuel : nat) {struct fuel}
  : M ParameterList :=
  match fuel with
  | O => exhausted
  | S fuel =>
      let* _ := expect token.OpenParen in
      let* openLoc := peek lexStart in
      let* _ := next in
      let* pl := parseParameterListTail fuel
                   (mkParameterList [] openLoc token.zero) [] in
      let* _ := expect token.CloseParen in
      let* closeLoc := peek lexStart in
      let* _ := next in
      ret (mkParameterList (plParameters pl) (plOpenLoc pl) closeLoc)
  end

with parseParameterListTail (fuel : nat) (pl : ParameterList)
                            (idents : list Identifier) {struct fuel}
  : M ParameterList :=
  match fuel with
  | O => exhausted
  | S fuel =>
      let* t := peek tok in
      if token.eqb t token.CloseParen then
        let* closeLoc := peek lexStart in
        ret (mkParameterList (typeNameDecls idents) (plOpenLoc pl) closeLoc)
      else if token.eqb t token.Identifier then
        let* id := parseIdentifier in
        let* t := peek tok in
        if token.eqb t token.Comma then
          let* _ := next in
          parseParameterListTail fuel pl (idents ++ [id])
        else if token.eqb t token.CloseParen then
          parseParameterListTail fuel pl (idents ++ [id])
        else if token.eqb t token.Dot then
          let* _ := next in
          let* _ := expect token.Identifier in
          let* name := peek text in
          let* endLoc := peek lexEnd in
          let ty := TTypeName (Name id) name
                      (mkSpan (start (idSpan id)) endLoc) in
          let* _ := next in
          let d := mkParameterDecl ty [] false in
          parseTypeParameterList fuel
            (mkParameterList (typeNameDecls idents ++ [d])
               (plOpenLoc pl) (plCloseLoc pl))
        else
          let idents := idents ++ [id] in
          let* ddd :=
            (let* t := peek tok in
             if token.eqb t token.DotDotDot
             then let* _ := next in ret true
             else ret false) in
          let* ty := parseType fuel in
          let pl := mkParameterList [mkParameterDecl ty idents ddd]
                      (plOpenLoc pl) (plCloseLoc pl) in
          if negb ddd then parseDeclParameterList fuel pl else ret pl
      else if token.eqb t token.DotDotDot then
        let* _ := next in
        let* ty := parseType fuel in
        let d := mkParameterDecl ty [] true in
        ret (mkParameterList (typeNameDecls idents ++ [d])
               (plOpenLoc pl) (plCloseLoc pl))
      else if typeFirst t then
        let* ty := parseType fuel in
        let d := mkParameterDecl ty [] false in
        parseTypeParameterList fuel
          (mkParameterList (typeNameDecls idents ++ [d])
             (plOpenLoc pl) (plCloseLoc pl))
      else
        panicErr [WStr ")"; WStr "..."; WStr "identifier"; WStr "type"]
  end

with parseTypeParameterList (fuel : nat) (pl : ParameterList) {struct fuel}
  : M ParameterList :=
  match fuel with
  | O => exhausted
  | S fuel =>
      let* t := peek tok in
      if token.eqb t token.CloseParen then ret pl
      else
        let* _ := expect token.Comma in
        let* _ := next in
        (* Allow trailing comma. *)
        let* t := peek tok in
        if token.eqb t token.CloseParen then ret pl
        else
          let* ddd :=
            (let* t := peek tok in
             if token.eqb t token.DotDotDot
             then let* _ := next in ret true
             else ret false) in
          let* ty := parseType fuel in
          let pl := mkParameterList
                      (plParameters pl ++ [mkParameterDecl ty [] ddd])
                      (plOpenLoc pl) (plCloseLoc pl) in
          if negb ddd then parseTypeParameterList fuel pl else ret pl
  end

with parseDeclParameterList (fuel : nat) (pl : ParameterList) {struct fuel}
  : M ParameterList :=
  match fuel with
  | O => exhausted
  | S fuel =>
      let* t := peek tok in
      if token.eqb t token.CloseParen then ret pl
      else
        let* _ := expect token.Comma in
        let* _ := next in
        (* Allow trailing comma. *)
        let* t := peek tok in
        if token.eqb t token.CloseParen then ret pl
        else
          let* ids := parseDeclIdentifiers fuel [] in
          let* ddd :=
            (let* t := peek tok in
             if token.eqb t token.DotDotDot
             then let* _ := next in ret true
             else ret false) in
          let* ty := parseType fuel in
          let pl := mkParameterList
                      (plParameters pl ++ [mkParameterDecl ty ids ddd])
                      (plOpenLoc pl) (plCloseLoc pl) in
          parseDeclParameterList fuel pl
  end

with parseChannelType (fuel : nat) {struct fuel}
  : M Typ :=
  match fuel with
  | O => exhausted
  | S fuel =>
      let* startLoc := peek lexStart in
      let* send :=
        (let* t := peek tok in
         if token.eqb t token.LessMinus
         then let* _ := next in ret false
         else ret true) in
      let* _ := expect token.Chan in
      let* _ := next in
      let* receive :=
        (let* t := peek tok in
         if send && token.eqb t token.LessMinus
         then let* _ := next in ret false
         else ret true) in
      let* ty := parseType fuel in
      ret (TChannelType send receive ty startLoc)
  end

with parseMapType (fuel : nat) {struct fuel}
  : M Typ :=
  match fuel with
  | O => exhausted
  | S fuel =>
      let* _ := expect token.Map in
      let* mapLoc := peek lexStart in
      let* _ := next in
      let* _ := expect token.OpenBracket in
      let* _ := next in
      let* key := parseType fuel in
      let* _ := expect token.CloseBracket in
      let* _ := next in
      let* ty := parseType fuel in
      ret (TMapType key ty mapLoc)
  end

with parseArrayOrSliceType (fuel : nat) {struct fuel}
  : M Typ :=
  match fuel with
  | O => exhausted
  | S fuel =>
      let* _ := expect token.OpenBracket in
      let* openLoc := peek lexStart in
      let* _ := next in
      let* t := peek tok in
      if token.eqb t token.CloseBracket then
        let* _ := next in
        let* ty := parseType fuel in
        ret (TSliceType ty openLoc)
      else
        let* size := parseExpression fuel in
        let* _ := expect token.CloseBracket in
        let* _ := next in
        let* ty := parseType fuel in
        ret (TArrayType (Some size) ty openLoc)
  end

with parseExpression (fuel : nat) {struct fuel}
  : M Expression :=
  match fuel with
  | O => exhausted
  | S fuel => parseBinaryExpr fuel 1
  end

with parseBinaryExpr (fuel : nat) (prec : Z) {struct fuel}
  : M Expression :=
  match fuel with
  | O => exhausted
  | S fuel =>
      let* left := parseUnaryExpr fuel in
      parseBinaryExprLoop fuel prec left
  end

(** The [for] loop of [parseBinaryExpr]. *)
with parseBinaryExprLoop (fuel : nat) (prec : Z) (left : Expression) {struct fuel}
  : M Expression :=
  match fuel with
  | O => exhausted
  | S fuel =>
      let* op := peek tok in
      match precedence op with
      | None => ret left
      | Some pr =>
          if pr <? prec then ret left
          else
            let* opLoc := peek lexStart in
            let* _ := next in
            let* right := parseBinaryExpr fuel (pr + 1) in
            parseBinaryExprLoop fuel prec (EBinaryOp op opLoc left right)
      end
  end

with parseUnaryExpr (fuel : nat) {struct fuel}
  : M Expression :=
  match fuel with
  | O => exhausted
  | S fuel =>
      let* op := peek tok in
      if unary op then
        let* opLoc := peek lexStart in
        let* _ := next in
        let* operand := parseUnaryExpr fuel in
        ret (EUnaryOp op opLoc operand)
      else parsePrimaryExpr fuel
  end

with parsePrimaryExpr (fuel : nat) {struct fuel}
  : M Expression :=
  match fuel with
  | O => exhausted
  | S fuel =>
      let* left := parseOperand fuel in
      parsePrimaryExprLoop fuel left
  end

(** The [for] loop of [parsePrimaryExpr]. *)
with parsePrimaryExprLoop (fuel : nat) (left : Expression) {struct fuel}
  : M Expression :=
  match fuel with
  | O => exhausted
  | S fuel =>
      let* t := peek tok in
      match t with
      | token.OpenBracket =>
          let* left := parseSliceOrIndex fuel left in
          parsePrimaryExprLoop fuel left
      | token.OpenParen =>
          let* left := parseCall fuel left in
          parsePrimaryExprLoop fuel left
      | token.Dot =>
          let* left := parseSelectorOrTypeAssertion fuel left in
          parsePrimaryExprLoop fuel left
      | _ => ret left
      end
  end

with parseSliceOrIndex (fuel : nat) (left : Expression) {struct fuel}
  : M Expression :=
  match fuel with
  | O => exhausted
  | S fuel =>
      let* _ := expect token.OpenBracket in
      let* openLoc := peek lexStart in
      let* _ := next in
      let* t := peek tok in
      if token.eqb t token.Colon then
        let* sl := parseSliceHighMax fuel left None in
        ret (withOpenLoc openLoc sl)
      else
        let* e := parseExpression fuel in
        let* t := peek tok in
        match t with
        | token.CloseBracket =>
            let* _ := expect token.CloseBracket in
            let* closeLoc := peek lexEnd in
            let* _ := next in
            ret (EIndex left e openLoc closeLoc)
        | token.Colon =>
            let* sl := parseSliceHighMax fuel left (Some e) in
            ret (withOpenLoc openLoc sl)
        | _ => panicErr [WTok token.CloseBracket; WTok token.Colon]
        end
  end

(** Parses the remainder of a slice expression, beginning from the colon
    after the low term.  The returned [ESlice] does not have its
    [openLoc] set; the caller sets it. *)
with parseSliceHighMax (fuel : nat) (left : Expression)
                       (low : option Expression) {struct fuel}
  : M Expression :=
  match fuel with
  | O => exhausted
  | S fuel =>
      let* _ := expect token.Colon in
      let* _ := next in
      let* t := peek tok in
      let* '(high, max) :=
        (if negb (token.eqb t token.CloseBracket) then
           let* high := parseExpression fuel in
           let* t := peek tok in
           if token.eqb t token.Colon then
             let* _ := next in
             let* max := parseExpression fuel in
             ret (Some high, Some max)
           else ret (Some high, None)
         else ret (None, None)) in
      let* _ := expect token.CloseBracket in
      let* closeLoc := peek lexStart in
      let* _ := next in
      ret (ESlice left low high max token.zero closeLoc)
  end

with parseCall (fuel : nat) (left : Expression) {struct fuel}
  : M Expression :=
  match fuel with
  | O => exhausted
  | S fuel =>
      let* _ := expect token.OpenParen in
      let* openLoc := peek lexStart in
      let* _ := next in
      let* args := parseExpressionList fuel [] in
      let* ddd :=
        (let* t := peek tok in
         if token.eqb t token.DotDotDot
         then let* _ := next in ret true
         else ret false) in
      let* _ := expect token.CloseParen in
      let* closeLoc := peek lexEnd in
      let* _ := next in
      ret (ECall left args ddd openLoc closeLoc)
  end

(** [parseExpressionList]; [exprs] is the slice grown by the loop. *)
with parseExpressionList (fuel : nat) (exprs : list Expression) {struct fuel}
  : M (list Expression) :=
  match fuel with
  | O => exhausted
  | S fuel =>
      let* e := parseExpression fuel in
      let exprs := exprs ++ [e] in
      let* t := peek tok in
      if token.eqb t token.Comma then
        let* _ := next in
        parseExpressionList fuel exprs
      else ret exprs
  end

with parseOperand (fuel : nat) {struct fuel}
  : M Expression :=
  match fuel with
  | O => exhausted
  | S fuel =>
      let* t := peek tok in
      match t with
      | token.Identifier =>
          let* id := parseIdentifier in
          let* t := peek tok in
          if token.eqb t token.Dot then
            parseSelectorOrTypeAssertion fuel (EIdentifier id)
          else ret (EIdentifier id)
      | token.IntegerLiteral => parseIntegerLiteral
      | token.FloatLiteral => parseFloatLiteral
      | token.ImaginaryLiteral => parseImaginaryLiteral
      | token.RuneLiteral => parseRuneLiteral sc
      | token.StringLiteral =>
          let* l := parseStringLiteral sc in
          ret (EStringLiteral l)
      | token.OpenParen =>
          let* _ := next in
          let* e := parseExpression fuel in
          let* _ := expect token.CloseParen in
          let* _ := next in
          ret e
      | _ => panicErr [WStr "operand"]
      end
  end

with parseSelectorOrTypeAssertion (fuel : nat) (left : Expression) {struct fuel}
  : M Expression :=
  match fuel with
  | O => exhausted
  | S fuel =>
      let* _ := expect token.Dot in
      let* dotLoc := peek lexStart in
      let* _ := next in
      let* t := peek tok in
      match t with
      | token.OpenParen =>
          let* _ := next in
          let* ty := parseType fuel in
          let* _ := expect token.CloseParen in
          let* closeLoc := peek lexStart in
          let* _ := next in
          ret (ETypeAssertion left (Some ty) dotLoc closeLoc)
      | token.Identifier =>
          let* sel := parseIdentifier in
          let left := ESelector left sel dotLoc in
          let* t := peek tok in
          if token.eqb t token.Dot then
            parseSelectorOrTypeAssertion fuel left
          else ret left
      | _ => panicErr [WTok token.OpenParen; WTok token.Identifier]
      end
  end.

(** [Parse] returns the root of the tree or an error; the deferred
    function recovers a [*SyntaxError] and a [*MalformedLiteral] and
    panics again with anything else. *)
Definition Parse (fuel : nat) (p : Parser) : ParseResult :=
  recovered NExpression (parseExpression fuel p).

End WithStrconv.

End Grammar.

(** [lit.Type = typ] on the literal that [parseLiteralValue] built. *)
Definition withType (typ : option Typ) (lit : Expression) : Expression :=
  match lit with
  | ECompositeLiteral _ elements openLoc closeLoc =>
      ECompositeLiteral typ elements openLoc closeLoc
  | other => other
  end.

(** ** The declaration grammar

    The later text of grammar.go, whose [Parse] reads declarations: struct
    and interface types and composite literals are parsed, a signature's
    result is always a parameter list, and an array type may leave its size
    to [...] inside a composite literal. *)

Module DeclGrammar.

Section WithStrconv.

Context (sc : Strconv).

(** The identifier loop of [parseDeclParameterList]. *)
Fixpoint parseDeclIdentifiers (fuel : nat) (ids : list Identifier) {struct fuel}
  : M (list Identifier) :=
  match fuel with
  | O => exhausted
  | S fuel =>
      let* id := parseIdentifier in
      let ids := ids ++ [id] in
      let* t := peek tok in
      if token.eqb t token.Comma then
        let* _ := next in
        parseDeclIdentifiers fuel ids
      else ret ids
  end.

(** The [for] loop of [parseFieldDecl]. *)
Fixpoint parseFieldIdentifiers (fuel : nat) (ids : list Identifier) {struct fuel}
  : M (list Identifier) :=
  match fuel with
  | O => exhausted
  | S fuel =>
      let* t := peek tok in
      if token.eqb t token.Comma then
        let* _ := next in
        let* id := parseIdentifier in
        parseFieldIdentifiers fuel (ids ++ [id])
      else ret ids
  end.

Fixpoint parseType (fuel : nat) {struct fuel}
  : M Typ :=
  match fuel with
  | O => exhausted
  | S fuel =>
      let* t := peek tok in
      match t with
      | token.Identifier => parseTypeName
      | token.Star =>
          let* starLoc := peek lexStart in
          let* _ := next in
          let* ty := parseType fuel in
          ret (TPointerType ty starLoc)
      | token.OpenBracket => parseArrayOrSliceType fuel false
      | token.Struct => parseStructType fuel
      | token.Func =>
          let* _ := next in
          let* s := parseSignature fuel in
          ret (TFunctionType s)
      | token.Interface => parseInterfaceType fuel
      | token.Map => parseMapType fuel
      | token.Chan | token.LessMinus => parseChannelType fuel
      | token.OpenParen =>
          let* _ := next in
          let* ty := parseType fuel in
          let* _ := expect token.CloseParen in
          let* _ := next in
          ret ty
      | _ => panicErr typeWanted
      end
  end

with parseStructType (fuel : nat) {struct fuel}
  : M Typ :=
  match fuel with
  | O => exhausted
  | S fuel =>
      let* _ := expect token.Struct in
      let* keywordLoc := peek lexStart in
      let* _ := next in
      let* _ := expect token.OpenBrace in
      let* _ := next in
      let* fields := parseStructFields fuel [] in
      let* _ := expect token.CloseBrace in
      let* closeLoc := peek lexStart in
      let* _ := next in
      ret (TStructType fields keywordLoc closeLoc)
  end

(** The [for] loop of [parseStructType]. *)
with parseStructFields (fuel : nat) (fields : list FieldDecl) {struct fuel}
  : M (list FieldDecl) :=
  match fuel with
  | O => exhausted
  | S fuel =>
      let* t := peek tok in
      if negb (token.eqb t token.CloseBrace) then
        let* field := parseFieldDecl fuel in
        let fields := fields ++ [field] in
        let* t := peek tok in
        if negb (token.eqb t token.CloseBrace) then
          let* _ := expect token.Semicolon in
          let* _ := next in
          parseStructFields fuel fields
        else parseStructFields fuel fields
      else ret fields
  end

with parseFieldDecl (fuel : nat) {struct fuel}
  : M FieldDecl :=
  match fuel with
  | O => exhausted
  | S fuel =>
      (* The statements after the label [tag]. *)
      let tag (ids : list Identifier) (ty : Typ) : M FieldDecl :=
        let* t := peek tok in
        if token.eqb t token.StringLiteral then
          let* l := parseStringLiteral sc in
          ret (mkFieldDecl ids ty (Some l))
        else ret (mkFieldDecl ids ty None) in
      let* t := peek tok in
      if token.eqb t token.Star then
        let* _ := next in
        let* ty := parseTypeName in
        tag [] (TPointerType ty token.zero)
      else
        let* id := parseIdentifier in
        let embedded := TTypeName "" (Name id) (idSpan id) in
        let* t := peek tok in
        match t with
        | token.Dot =>
            let* _ := next in
            let* _ := expect token.Identifier in
            let* name := peek text in
            let* endLoc := peek lexEnd in
            let* _ := next in
            tag [] (TTypeName (Name id) name
                      (mkSpan (start (idSpan id)) endLoc))
        | token.StringLiteral =>
            let* l := parseStringLiteral sc in
            ret (mkFieldDecl [] embedded (Some l))
        | token.Semicolon | token.CloseBrace =>
            ret (mkFieldDecl [] embedded None)
        | _ =>
            let* ids := parseFieldIdentifiers fuel [id] in
            let* ty := parseType fuel in
            tag ids ty
        end
  end

with parseInterfaceType (fuel : nat) {struct fuel}
  : M Typ :=
  match fuel with
  | O => exhausted
  | S fuel =>
      let* _ := expect token.Interface in
      let* keywordLoc := peek lexStart in
      let* _ := next in
      let* _ := expect token.OpenBrace in
      let* _ := next in
      let* methods := parseInterfaceMethods fuel [] in
      let* _ := expect token.CloseBrace in
      let* closeLoc := peek lexStart in
      let* _ := next in
      ret (TInterfaceType methods keywordLoc closeLoc)
  end

(** The [for] loop of [parseInterfaceType]. *)
with parseInterfaceMethods (fuel : nat) (methods : list InterfaceEntry)
  {struct fuel} : M (list InterfaceEntry) :=
  match fuel with
  | O => exhausted
  | S fuel =>
      let* t := peek tok in
      if negb (token.eqb t token.CloseBrace) then
        let* id := parseIdentifier in
        let* t := peek tok in
        let* entry :=
          match t with
          | token.OpenParen =>
              let* s := parseSignature fuel in
              ret (IMethod id s)
          | token.Dot =>
              let* _ := next in
              let* _ := expect token.Identifier in
              let* name := peek text in
              let* endLoc := peek lexEnd in
              let* _ := next in
              ret (IEmbedded (TTypeName (Name id) name
                                (mkSpan (start (idSpan id)) endLoc)))
          | _ => ret (IEmbedded (TTypeName "" (Name id) (idSpan id)))
          end in
        let methods := methods ++ [entry] in
        let* t := peek tok in
        if negb (token.eqb t token.CloseBrace) then
          let* _ := expect token.Semicolon in
          let* _ := next in
          parseInterfaceMethods fuel methods
        else parseInterfaceMethods fuel methods
      else ret methods
  end

with parseSignature (fuel : nat) {struct fuel}
  : M Signature :=
  match fuel with
  | O => exhausted
  | S fuel =>
      let* params := parseParameterList fuel in
      let* t := peek tok in
      if token.eqb t token.OpenParen then
        let* results := parseParameterList fuel in
        ret (mkSignature params (ResultList results))
      else if typeFirst t then
        let* ty := parseType fuel in
        match typStart ty, typEnd ty with
        | Some openLoc, Some closeLoc =>
            ret (mkSignature params
                   (ResultList
                      (mkParameterList [mkParameterDecl ty [] false]
                         openLoc closeLoc)))
        | _, _ => panic PNilDeref
        end
      else
        ret (mkSignature params
               (ResultList (mkParameterList [] token.zero token.zero)))
  end

with parseParameterList (fuel : nat) {struct fuel}
  : M ParameterList :=
  match fuel with
  | O => exhausted
  | S fuel =>
      let* _ := expect token.OpenParen in
      let* openLoc := peek lexStart in
      let* _ := next in
      let* pl := parseParameterListTail fuel
                   (mkParameterList [] openLoc token.zero) [] in
      let* _ := expect token.CloseParen in
      let* closeLoc := peek lexStart in
      let* _ := next in
      ret (mkParameterList (plParameters pl) (plOpenLoc pl) closeLoc)
  end

with parseParameterListTail (fuel : nat) (pl : ParameterList)
                            (idents : list Identifier) {struct fuel}
  : M ParameterList :=
  match fuel with
  | O => exhausted
  | S fuel =>
      let* t := peek tok in
      if token.eqb t token.CloseParen then
        let* closeLoc := peek lexStart in
        ret (mkParameterList (typeNameDecls idents) (plOpenLoc pl) closeLoc)
      else if token.eqb t token.Identifier then
        let* id := parseIdentifier in
        let* t := peek tok in
        if token.eqb t token.Comma then
          let* _ := next in
          parseParameterListTail fuel pl (idents ++ [id])
        else if token.eqb t token.CloseParen then
          parseParameterListTail fuel pl (idents ++ [id])
        else if token.eqb t token.Dot then
          let* _ := next in
          let* _ := expect token.Identifier in
          let* name := peek text in
          let* endLoc := peek lexEnd in
          let ty := TTypeName (Name id) name
                      (mkSpan (start (idSpan id)) endLoc) in
          let* _ := next in
          let d := mkParameterDecl ty [] false in
          parseTypeParameterList fuel
            (mkParameterList (typeNameDecls idents ++ [d])
               (plOpenLoc pl) (plCloseLoc pl))
        else
          let idents := idents ++ [id] in
          let* ddd :=
            (let* t := peek tok in
             if token.eqb t token.DotDotDot
             then let* _ := next in ret true
             else ret false) in
          let* ty := parseType fuel in
          let pl := mkParameterList [mkParameterDecl ty idents ddd]
                      (plOpenLoc pl) (plCloseLoc pl) in
          if negb ddd then parseDeclParameterList fuel pl else ret pl
      else if token.eqb t token.DotDotDot then
        let* _ := next in
        let* ty := parseType fuel in
        let d := mkParameterDecl ty [] true in
        ret (mkParameterList (typeNameDecls idents ++ [d])
               (plOpenLoc pl) (plCloseLoc pl))
      else if typeFirst t then
        let* ty := parseType fuel in
        let d := mkParameterDecl ty [] false in
        parseTypeParameterList fuel
          (mkParameterList (typeNameDecls idents ++ [d])
             (plOpenLoc pl) (plCloseLoc pl))
      else
        panicErr [WStr ")"; WStr "..."; WStr "identifier"; WStr "type"]
  end

with parseTypeParameterList (fuel : nat) (pl : ParameterList) {struct fuel}
  : M ParameterList :=
  match fuel with
  | O => exhausted
  | S fuel =>
      let* t := peek tok in
      if token.eqb t token.CloseParen then ret pl
      else
        let* _ := expect token.Comma in
        let* _ := next in
        (* Allow trailing comma. *)
        let* t := peek tok in
        if token.eqb t token.CloseParen then ret pl
        else
          let* ddd :=
            (let* t := peek tok in
             if token.eqb t token.DotDotDot
             then let* _ := next in ret true
             else ret false) in
          let* ty := parseType fuel in
          let pl := mkParameterList
                      (plParameters pl ++ [mkParameterDecl ty [] ddd])
                      (plOpenLoc pl) (plCloseLoc pl) in
          if negb ddd then parseTypeParameterList fuel pl else ret pl
  end

with parseDeclParameterList (fuel : nat) (pl : ParameterList) {struct fuel}
  : M ParameterList :=
  match fuel with
  | O => exhausted
  | S fuel =>
      let* t := peek tok in
      if token.eqb t token.CloseParen then ret pl
      else
        let* _ := expect token.Comma in
        let* _ := next in
        (* Allow trailing comma. *)
        let* t := peek tok in
        if token.eqb t token.CloseParen then ret pl
        else
          let* ids := parseDeclIdentifiers fuel [] in
          let* ddd :=
            (let* t := peek tok in
             if token.eqb t token.DotDotDot
             then let* _ := next in ret true
             else ret false) in
          let* ty := parseType fuel in
          let pl := mkParameterList
                      (plParameters pl ++ [mkParameterDecl ty ids ddd])
                      (plOpenLoc pl) (plCloseLoc pl) in
          parseDeclParameterList fuel pl
  end

with parseChannelType (fuel : nat) {struct fuel}
  : M Typ :=
  match fuel with
  | O => exhausted
  | S fuel =>
      let* startLoc := peek lexStart in
      let* send :=
        (let* t := peek tok in
         if token.eqb t token.LessMinus
         then let* _ := next in ret false
         else ret true) in
      let* _ := expect token.Chan in
      let* _ := next in
      let* receive :=
        (let* t := peek tok in
         if send && token.eqb t token.LessMinus
         then let* _ := next in ret false
         else ret true) in
      let* ty := parseType fuel in
      ret (TChannelType send receive ty startLoc)
  end

with parseMapType (fuel : nat) {struct fuel}
  : M Typ :=
  match fuel with
  | O => exhausted
  | S fuel =>
      let* _ := expect token.Map in
      let* mapLoc := peek lexStart in
      let* _ := next in
      let* _ := expect token.OpenBracket in
      let* _ := next in
      let* key := parseType fuel in
      let* _ := expect token.CloseBracket in
      let* _ := next in
      let* ty := parseType fuel in
      ret (TMapType key ty mapLoc)
  end

(** Parses an array or slice type.  If [dotDotDot] is true then it
    accepts an array whose size is given by a [...] token, otherwise it
    requires a size. *)
with parseArrayOrSliceType (fuel : nat) (dotDotDot : bool) {struct fuel}
  : M Typ :=
  match fuel with
  | O => exhausted
  | S fuel =>
      let* _ := expect token.OpenBracket in
      let* openLoc := peek lexStart in
      let* _ := next in
      let* t := peek tok in
      if token.eqb t token.CloseBracket then
        let* _ := next in
        let* ty := parseType fuel in
        ret (TSliceType ty openLoc)
      else
        let* size :=
          (if dotDotDot && token.eqb t token.DotDotDot then
             let* _ := next in ret None
           else
             let* e := parseExpression fuel in ret (Some e)) in
        let* _ := expect token.CloseBracket in
        let* _ := next in
        let* ty := parseType fuel in
        ret (TArrayType size ty openLoc)
  end

with parseExpression (fuel : nat) {struct fuel}
  : M Expression :=
  match fuel with
  | O => exhausted
  | S fuel => parseBinaryExpr fuel 1
  end

with parseBinaryExpr (fuel : nat) (prec : Z) {struct fuel}
  : M Expression :=
  match fuel with
  | O => exhausted
  | S fuel =>
      let* left := parseUnaryExpr fuel in
      parseBinaryExprLoop fuel prec left
  end

(** The [for] loop of [parseBinaryExpr]. *)
with parseBinaryExprLoop (fuel : nat) (prec : Z) (left : Expression) {struct fuel}
  : M Expression :=
  match fuel with
  | O => exhausted
  | S fuel =>
      let* op := peek tok in
      match precedence op with
      | None => ret left
      | Some pr =>
          if pr <? prec then ret left
          else
            let* opLoc := peek lexStart in
            let* _ := next in
            let* right := parseBinaryExpr fuel (pr + 1) in
            parseBinaryExprLoop fuel prec (EBinaryOp op opLoc left right)
      end
  end

with parseUnaryExpr (fuel : nat) {struct fuel}
  : M Expression :=
  match fuel with
  | O => exhausted
  | S fuel =>
      let* op := peek tok in
      if unary op then
        let* opLoc := peek lexStart in
        let* _ := next in
        let* operand := parseUnaryExpr fuel in
        ret (EUnaryOp op opLoc operand)
      else parsePrimaryExpr fuel
  end

with parsePrimaryExpr (fuel : nat) {struct fuel}
  : M Expression :=
  match fuel with
  | O => exhausted
  | S fuel =>
      let* left := parseOperand fuel in
      parsePrimaryExprLoop fuel left
  end

(** The [for] loop of [parsePrimaryExpr]. *)
with parsePrimaryExprLoop (fuel : nat) (left : Expression) {struct fuel}
  : M Expression :=
  match fuel with
  | O => exhausted
  | S fuel =>
      let* t := peek tok in
      match t with
      | token.OpenBracket =>
          let* left := parseSliceOrIndex fuel left in
          parsePrimaryExprLoop fuel left
      | token.OpenParen =>
          let* left := parseCall fuel left in
          parsePrimaryExprLoop fuel left
      | token.Dot =>
          let* left := parseSelectorOrTypeAssertion fuel left in
          parsePrimaryExprLoop fuel left
      | _ => ret left
      end
  end

with parseSliceOrIndex (fuel : nat) (left : Expression) {struct fuel}
  : M Expression :=
  match fuel with
  | O => exhausted
  | S fuel =>
      let* _ := expect token.OpenBracket in
      let* openLoc := peek lexStart in
      let* _ := next in
      let* t := peek tok in
      if token.eqb t token.Colon then
        let* sl := parseSliceHighMax fuel left None in
        ret (withOpenLoc openLoc sl)
      else
        let* e := parseExpression fuel in
        let* t := peek tok in
        match t with
        | token.CloseBracket =>
            let* _ := expect token.CloseBracket in
            let* closeLoc := peek lexEnd in
            let* _ := next in
            ret (EIndex left e openLoc closeLoc)
        | token.Colon =>
            let* sl := parseSliceHighMax fuel left (Some e) in
            ret (withOpenLoc openLoc sl)
        | _ => panicErr [WTok token.CloseBracket; WTok token.Colon]
        end
  end

(** Parses the remainder of a slice expression, beginning from the colon
    after the low term.  The returned [ESlice] does not have its
    [openLoc] set; the caller sets it. *)
with parseSliceHighMax (fuel : nat) (left : Expression)
                       (low : option Expression) {struct fuel}
  : M Expression :=
  match fuel with
  | O => exhausted
  | S fuel =>
      let* _ := expect token.Colon in
      let* _ := next in
      let* t := peek tok in
      let* '(high, max) :=
        (if negb (token.eqb t token.CloseBracket) then
           let* high := parseExpression fuel in
           let* t := peek tok in
           if token.eqb t token.Colon then
             let* _ := next in
             let* max := parseExpression fuel in
             ret (Some high, Some max)
           else ret (Some high, None)
         else ret (None, None)) in
      let* _ := expect token.CloseBracket in
      let* closeLoc := peek lexStart in
      let* _ := next in
      ret (ESlice left low high max token.zero closeLoc)
  end

with parseCall (fuel : nat) (left : Expression) {struct fuel}
  : M Expression :=
  match fuel with
  | O => exhausted
  | S fuel =>
      let* _ := expect token.OpenParen in
      let* openLoc := peek lexStart in
      let* _ := next in
      let* args := parseExpressionList fuel [] in
      let* ddd :=
        (let* t := peek tok in
         if token.eqb t token.DotDotDot
         then let* _ := next in ret true
         else ret false) in
      let* _ := expect token.CloseParen in
      let* closeLoc := peek lexEnd in
      let* _ := next in
      ret (ECall left args ddd openLoc closeLoc)
  end

(** [parseExpressionList]; [exprs] is the slice grown by the loop. *)
with parseExpressionList (fuel : nat) (exprs : list Expression) {struct fuel}
  : M (list Expression) :=
  match fuel with
  | O => exhausted
  | S fuel =>
      let* e := parseExpression fuel in
      let exprs := exprs ++ [e] in
      let* t := peek tok in
      if token.eqb t token.Comma then
        let* _ := next in
        parseExpressionList fuel exprs
      else ret exprs
  end

with parseOperand (fuel : nat) {struct fuel}
  : M Expression :=
  match fuel with
  | O => exhausted
  | S fuel =>
      let* t := peek tok in
      match t with
      | token.Identifier =>
          let* id := parseIdentifier in
          let* t := peek tok in
          if token.eqb t token.Dot then
            parseSelectorOrTypeAssertion fuel (EIdentifier id)
          else ret (EIdentifier id)
      | token.IntegerLiteral => parseIntegerLiteral
      | token.FloatLiteral => parseFloatLiteral
      | token.ImaginaryLiteral => parseImaginaryLiteral
      | token.RuneLiteral => parseRuneLiteral sc
      | token.StringLiteral =>
          let* l := parseStringLiteral sc in
          ret (EStringLiteral l)
      | token.Struct | token.Map | token.OpenBracket =>
          parseCompositeLiteral fuel
      | token.OpenParen =>
          let* _ := next in
          let* e := parseExpression fuel in
          let* _ := expect token.CloseParen in
          let* _ := next in
          ret e
      | _ => panicErr [WStr "operand"]
      end
  end

with parseCompositeLiteral (fuel : nat) {struct fuel}
  : M Expression :=
  match fuel with
  | O => exhausted
  | S fuel =>
      let* t := peek tok in
      let* typ :=
        (if token.eqb t token.OpenBracket
         then parseArrayOrSliceType fuel true
         else parseType fuel) in
      let* lit := parseLiteralValue fuel in
      ret (withType (Some typ) lit)
  end

with parseLiteralValue (fuel : nat) {struct fuel}
  : M Expression :=
  match fuel with
  | O => exhausted
  | S fuel =>
      let* _ := expect token.OpenBrace in
      let* openLoc := peek lexStart in
      let* _ := next in
      let* elements := parseElements fuel [] in
      let* _ := expect token.CloseBrace in
      let* closeLoc := peek lexStart in
      let* _ := next in
      ret (ECompositeLiteral None elements openLoc closeLoc)
  end

(** The [for] loop of [parseLiteralValue]. *)
with parseElements (fuel : nat) (elements : list Element) {struct fuel}
  : M (list Element) :=
  match fuel with
  | O => exhausted
  | S fuel =>
      let* t := peek tok in
      if negb (token.eqb t token.CloseBrace) then
        let* e := parseElement fuel in
        let elements := elements ++ [e] in
        let* t := peek tok in
        if negb (token.eqb t token.Comma) then ret elements
        else
          let* _ := next in
          parseElements fuel elements
      else ret elements
  end

with parseElement (fuel : nat) {struct fuel}
  : M Element :=
  match fuel with
  | O => exhausted
  | S fuel =>
      let* t := peek tok in
      if token.eqb t token.OpenBrace then
        let* v := parseLiteralValue fuel in
        ret (mkElement None v)
      else
        let* expr := parseExpression fuel in
        let* t := peek tok in
        if negb (token.eqb t token.Colon) then ret (mkElement None expr)
        else
          let* _ := next in
          let* t := peek tok in
          if token.eqb t token.OpenBrace then
            let* v := parseLiteralValue fuel in
            ret (mkElement (Some expr) v)
          else
            let* v := parseExpression fuel in
            ret (mkElement (Some expr) v)
  end

with parseSelectorOrTypeAssertion (fuel : nat) (left : Expression) {struct fuel}
  : M Expression :=
  match fuel with
  | O => exhausted
  | S fuel =>
      let* _ := expect token.Dot in
      let* dotLoc := peek lexStart in
      let* _ := next in
      let* t := peek tok in
      match t with
      | token.OpenParen =>
          let* _ := next in
          let* ty := parseType fuel in
          let* _ := expect token.CloseParen in
          let* closeLoc := peek lexStart in
          let* _ := next in
          ret (ETypeAssertion left (Some ty) dotLoc closeLoc)
      | token.Identifier =>
          let* sel := parseIdentifier in
          let left := ESelector left sel dotLoc in
          let* t := peek tok in
          if token.eqb t token.Dot then
            parseSelectorOrTypeAssertion fuel left
          else ret left
      | _ => panicErr [WTok token.OpenParen; WTok token.Identifier]
      end
  end.

Fixpoint parseIdentifierList (fuel : nat) (ids : list Identifier)
  {struct fuel} : M (list Identifier) :=
  match fuel with
  | O => exhausted
  | S fuel =>
      let* id := parseIdentifier in
      let ids := ids ++ [id] in
      let* t := peek tok in
      if token.eqb t token.Comma then
        let* _ := next in
        parseIdentifierList fuel ids
      else ret ids
  end.

Definition parseConstSpec (fuel : nat) : M ConstSpec :=
  let* cmnts := peek comments in
  let* names := parseIdentifierList fuel [] in
  let* t := peek tok in
  let* ty :=
    (if typeFirst t then let* ty := parseType fuel in ret (Some ty)
     else ret None) in
  let* t := peek tok in
  let* values :=
    (if token.eqb t token.Equal then
       let* _ := next in
       parseExpressionList fuel []
     else ret []) in
  ret (mkConstSpec cmnts ty names values).

(** The [for] loop of [parseConstDecl]. *)
Fixpoint parseConstSpecs (fuel : nat) (decls : Declarations) {struct fuel}
  : M Declarations :=
  match fuel with
  | O => exhausted
  | S fuel =>
      let* t := peek tok in
      if negb (token.eqb t token.CloseParen) then
        let* cs := parseConstSpec fuel in
        let decls := decls ++ [DConstSpec cs] in
        let* t := peek tok in
        if token.eqb t token.Semicolon then
          let* _ := next in
          parseConstSpecs fuel decls
        else parseConstSpecs fuel decls
      else ret decls
  end.

Definition parseConstDecl (fuel : nat) : M Declarations :=
  let* _ := expect token.Const in
  let* cmnts := peek comments in
  let* _ := next in
  let* t := peek tok in
  if negb (token.eqb t token.OpenParen) then
    let* cs := parseConstSpec fuel in
    ret [DConstSpec (mkConstSpec cmnts (csType cs) (csNames cs) (csValues cs))]
  else
    let* _ := next in
    let* decls := parseConstSpecs fuel [] in
    let* _ := next in
    ret decls.

Definition parseTypeSpec (fuel : nat) : M TypeSpec :=
  let* cmnts := peek comments in
  let* name := parseIdentifier in
  let* ty := parseType fuel in
  ret (mkTypeSpec cmnts name ty).

(** The [for] loop of [parseTypeDecl]. *)
Fixpoint parseTypeSpecs (fuel : nat) (decls : Declarations) {struct fuel}
  : M Declarations :=
  match fuel with
  | O => exhausted
  | S fuel =>
      let* t := peek tok in
      if negb (token.eqb t token.CloseParen) then
        let* ts := parseTypeSpec fuel in
        let decls := decls ++ [DTypeSpec ts] in
        let* t := peek tok in
        if token.eqb t token.Semicolon then
          let* _ := next in
          parseTypeSpecs fuel decls
        else parseTypeSpecs fuel decls
      else ret decls
  end.

Definition parseTypeDecl (fuel : nat) : M Declarations :=
  let* _ := expect token.Type_ in
  let* cmnts := peek comments in
  let* _ := next in
  let* t := peek tok in
  if negb (token.eqb t token.OpenParen) then
    let* ts := parseTypeSpec fuel in
    ret [DTypeSpec (mkTypeSpec cmnts (tsName ts) (tsType ts))]
  else
    let* _ := next in
    let* decls := parseTypeSpecs fuel [] in
    let* _ := next in
    ret decls.

Definition parseDeclarations (fuel : nat) : M Declarations :=
  let* t := peek tok in
  match t with
  | token.Type_ => parseTypeDecl fuel
  | token.Const => parseConstDecl fuel
  | token.Var => panic (PString "unimplemented")
  | _ => panicErr [WStr "type"; WStr "const"; WStr "var"]
  end.

(** [Parse] returns the root of the tree or an error; the deferred
    function recovers a [*SyntaxError] and a [*MalformedLiteral] and
    panics again with anything else. *)
Definition Parse (fuel : nat) (p : Parser) : ParseResult :=
  recovered NDeclarations (parseDeclarations fuel p).

End WithStrconv.

End DeclGrammar.

(** ** decl.go: symbol tables and the binding of declarations *)

Module decl.

(** A [*symtab] is the index of the table in the store. *)
Abbreviation addr := nat.

(** The declaration nodes of a package are owned by its files; a pointer to
    one is the position of the node: file [fileIx], declaration
    [declIx]. *)
Record NodeRef : Type := mkNodeRef { fileIx : nat; declIx : nat }.

Inductive checkState : Type :=
| unchecked | checking | checkedOK | checkedError.

(** Predeclared types. *)
Inductive predeclaredType : Type :=
| Bool | Complex64 | Complex128 | Error | Float32 | Float64 | Int | Int8
| Int16 | Int32 | Int64 | String | Uint | Uint8 | Uint16 | Uint32 | Uint64
| Uintptr.

(** A view of a [ConstSpec] that focuses on a single identifier at a given
    index. *)
Record constSpecView : Type := mkConstSpecView {
  cvConstSpec : NodeRef;
  cvIndex : Z;
  cvType : option Typ;
  cvValue : option Expression;
  cvState : checkState
}.

Record varSpecView : Type := mkVarSpecView {
  vvIndex : Z;
  vvVarSpec : NodeRef
}.

(** A package import declaration: the table of the package and
    [&file.Imports[i]], the import declaration of file [pdFile]. *)
Record packageDecl : Type := mkPackageDecl {
  pdSyms : addr;
  pdFile : nat;
  pdImportDecl : nat
}.

(** What a name is bound to. *)
Inductive Declaration : Type :=
| DMethodDecl (d : NodeRef)
| DFunctionDecl (d : NodeRef)
| DTypeSpec (d : NodeRef)
| DConstSpecView (v : constSpecView)
| DVarSpecView (v : varSpecView)
| DPackageDecl (p : packageDecl)
| DPredeclaredType (t : predeclaredType)
| DPredeclaredConst
| DPredeclaredFunc.

Record symtab : Type := mkSymtab {
  Up : option addr;
  Decls : gmap string Declaration
}.

(** [univScope] is the universal symtab, containing all predeclared
    identifiers. *)
Definition univScope : symtab :=
  mkSymtab None (list_to_map [
    ("bool", DPredeclaredType Bool);
    ("byte", DPredeclaredType Uint8);
    ("complex64", DPredeclaredType Complex64);
    ("complex128", DPredeclaredType Complex128);
    ("error", DPredeclaredType Error);
    ("float32", DPredeclaredType Float32);
    ("float64", DPredeclaredType Float64);
    ("int", DPredeclaredType Int);
    ("int8", DPredeclaredType Int8);
    ("int16", DPredeclaredType Int16);
    ("int32", DPredeclaredType Int32);
    ("int64", DPredeclaredType Int64);
    ("rune", DPredeclaredType Int32);
    ("string", DPredeclaredType String);
    ("uint", DPredeclaredType Uint);
    ("uint8", DPredeclaredType Uint8);
    ("uint16", DPredeclaredType Uint16);
    ("uint32", DPredeclaredType Uint32);
    ("uint64", DPredeclaredType Uint64);
    ("uintptr", DPredeclaredType Uintptr);
    ("true", DPredeclaredConst);
    ("false", DPredeclaredConst);
    ("iota", DPredeclaredConst);
    ("nil", DPredeclaredConst);
    ("append", DPredeclaredFunc);
    ("cap", DPredeclaredFunc);
    ("close", DPredeclaredFunc);
    ("complex", DPredeclaredFunc);
    ("copy", DPredeclaredFunc);
    ("delete", DPredeclaredFunc);
    ("imag", DPredeclaredFunc);
    ("len", DPredeclaredFunc);
    ("make", DPredeclaredFunc);
    ("new", DPredeclaredFunc);
    ("panic", DPredeclaredFunc);
    ("print", DPredeclaredFunc);
    ("println", DPredeclaredFunc);
    ("real", DPredeclaredFunc);
    ("recover", DPredeclaredFunc)
  ]).

(** The tables that exist; [&univScope] is address [univ]. *)
Abbreviation store := (list symtab).

Definition univ : addr := 0%nat.

Definition initial : store := [univScope].

(** [makeSymtab] returns a new symbol table. *)
Definition makeSymtab (st : store) (up : addr) : store * addr :=
  (st ++ [mkSymtab (Some up) ∅], length st).

(** What [Find] answers: a declaration, nil, or nothing at all when the
    walk is cut short (the fuel is used up, or an address is not in the
    store). *)
Inductive Answer : Type :=
| Found (d : Declaration)
| NotFound
| NoAnswer.

(** [Find] returns the declaration bound to the given identifier, or nil
    if the identifier is not found. *)
Fixpoint Find (fuel : nat) (st : store) (s : option addr) (n : string)
  : Answer :=
  match s with
  | None => NotFound
  | Some a =>
      match fuel with
      | O => NoAnswer
      | S fuel =>
          match st !! a with
          | None => NoAnswer
          | Some tab =>
              match Decls tab !! n with
              | Some d => Found d
              | None => Find fuel st (Up tab) n
              end
          end
      end
  end.

(** errors.go: a [Redeclaration], and the slice type [errors]. *)
Inductive error : Type :=
| Redeclaration (Name : string) (First Second : Declaration)
| Errors (es : list error).

Definition ErrorOrNil (es : list error) : option error :=
  match es with
  | [] => None
  | _ => Some (Errors es)
  end.

(** [errs = append(errs, err)] under [err != nil]. *)
Definition appendErr (errs : list error) (err : option error) : list error :=
  match err with
  | Some e => errs ++ [e]
  | None => errs
  end.

(** [Bind] binds a name to its declaration, returning an error if the name
    is already bound in this symtab.  The blank identifier is not bound.
    An address outside the store is no pointer of the program; the store
    is left as it is there. *)
Definition Bind (st : store) (s : addr) (n : string) (decl : Declaration)
  : store * option error :=
  if bool_decide (n = "_") then (st, None)
  else
    match st !! s with
    | None => (st, None)
    | Some tab =>
        match Decls tab !! n with
        | Some d => (st, Some (Redeclaration n d decl))
        | None =>
            (<[s := mkSymtab (Up tab) (<[n := decl]> (Decls tab))]> st, None)
        end
    end.

(** Modelled from the spec: the declarations of [File], [ImportDecl],
    [MethodDecl], [FunctionDecl], [VarSpec] and of the [TypeSpec] and
    [ConstSpec] that decl.go is written against are not among the source
    files.  Each node has the fields decl.go reads and writes; [importName]
    is what [im.Name()] answers. *)
Record ImportSpec : Type := mkImportSpec { importName : string }.

Record ImportDecl : Type := mkImportDecl { Imports : list ImportSpec }.

Inductive TopLevel : Type :=
| MethodDecl (Identifier : Identifier) (syms : option addr)
| FunctionDecl (Identifier : Identifier) (syms : option addr)
| TypeSpec (Identifier : Identifier) (syms : option addr)
| ConstSpec (Identifiers : list Identifier) (syms : option addr)
    (views : list constSpecView)
| VarSpec (Identifiers : list Identifier) (syms : option addr)
| OtherDecl.

Record File : Type := mkFile {
  fileImports : list ImportDecl;
  fileDeclarations : list TopLevel;
  fileSyms : option addr
}.

(** The state that the loops of [pkgDecls] and [fileDecls] carry. *)
Record Binding : Type := mkBinding { tables : store; errs : list error }.

Definition bindIn (b : Binding) (s : addr) (n : string) (d : Declaration)
  : Binding :=
  let '(st, err) := Bind (tables b) s n d in
  mkBinding st (appendErr (errs b) err).

(** The inner loop of [fileDecls], over the imports of one declaration. *)
Fixpoint importSpecs (b : Binding) (syms : addr) (file i : nat)
                     (ims : list ImportSpec) : Binding :=
  match ims with
  | [] => b
  | im :: rest =>
      let '(st, pkg) := makeSymtab (tables b) univ in
      let p := DPackageDecl (mkPackageDecl pkg file i) in
      importSpecs (bindIn (mkBinding st (errs b)) syms (importName im) p)
                  syms file i rest
  end.

(** The outer loop of [fileDecls]; [i] is the index of [d]. *)
Fixpoint importDecls (b : Binding) (syms : addr) (file i : nat)
                     (ds : list ImportDecl) : Binding :=
  match ds with
  | [] => b
  | d :: rest =>
      importDecls (importSpecs b syms file i (Imports d)) syms file (S i) rest
  end.

(** [fileDecls] returns the symtab mapping file-scoped identifiers to their
    declarations.  Any errors that are encountered are also returned, but
    the symtab is always valid. *)
Definition fileDecls (st : store) (psyms : addr) (file : nat) (f : File)
  : store * addr * option error :=
  let '(st, syms) := makeSymtab st psyms in
  let b := importDecls (mkBinding st []) syms file 0 (fileImports f) in
  (tables b, syms, ErrorOrNil (errs b)).

(** The loop over [d.Identifiers] of a [ConstSpec]. *)
Fixpoint constNames (b : Binding) (psyms : addr) (d : NodeRef) (i : Z)
                    (views : list constSpecView) (ids : list Identifier)
  : Binding * list constSpecView :=
  match ids with
  | [] => (b, views)
  | id :: rest =>
      let v := mkConstSpecView d i None None unchecked in
      constNames (bindIn b psyms (Name id) (DConstSpecView v)) psyms d
                 (i + 1) (views ++ [v]) rest
  end.

(** The loop over [d.Identifiers] of a [VarSpec]. *)
Fixpoint varNames (b : Binding) (psyms : addr) (d : NodeRef) (i : Z)
                  (ids : list Identifier) : Binding :=
  match ids with
  | [] => b
  | id :: rest =>
      varNames (bindIn b psyms (Name id) (DVarSpecView (mkVarSpecView i d)))
               psyms d (i + 1) rest
  end.

(** One turn of the loop over [f.Declarations]: the declaration with its
    resolver fields filled in, or [None] for the panic
    ["invalid top-level declaration"]. *)
Definition topLevel (b : Binding) (psyms : addr) (fsyms : addr)
                    (r : NodeRef) (d : TopLevel)
  : option (Binding * TopLevel) :=
  match d with
  | MethodDecl id _ =>
      Some (bindIn b psyms (Name id) (DMethodDecl r),
            MethodDecl id (Some fsyms))
  | FunctionDecl id _ =>
      Some (bindIn b psyms (Name id) (DFunctionDecl r),
            FunctionDecl id (Some fsyms))
  | TypeSpec id _ =>
      Some (bindIn b psyms (Name id) (DTypeSpec r),
            TypeSpec id (Some fsyms))
  | ConstSpec ids _ views =>
      let '(b, views) := constNames b psyms r 0 views ids in
      Some (b, ConstSpec ids (Some fsyms) views)
  | VarSpec ids _ =>
      Some (varNames b psyms r 0 ids, VarSpec ids (Some fsyms))
  | OtherDecl => None
  end.

Fixpoint topLevels (b : Binding) (psyms fsyms : addr) (file j : nat)
                   (ds : list TopLevel)
  : option (Binding * list TopLevel) :=
  match ds with
  | [] => Some (b, [])
  | d :: rest =>
      match topLevel b psyms fsyms (mkNodeRef file j) d with
      | None => None
      | Some (b, d) =>
          match topLevels b psyms fsyms file (S j) rest with
          | None => None
          | Some (b, rest) => Some (b, d :: rest)
          end
      end
  end.

(** The loop over [files]. *)
Fixpoint eachFile (b : Binding) (psyms : addr) (file : nat) (fs : list File)
  : option (Binding * list File) :=
  match fs with
  | [] => Some (b, [])
  | f :: rest =>
      let '(st, fsyms, err) := fileDecls (tables b) psyms file f in
      let b := mkBinding st (appendErr (errs b) err) in
      match topLevels b psyms fsyms file 0 (fileDeclarations f) with
      | None => None
      | Some (b, ds) =>
          match eachFile b psyms (S file) rest with
          | None => None
          | Some (b, rest) =>
              Some (b, mkFile (fileImports f) ds (Some fsyms) :: rest)
          end
      end
  end.

(** What [pkgDecls] leaves behind: the tables, the package scope, the files
    with their resolver fields, and the error; or its panic. *)
Inductive Resolved : Type :=
| Bound (st : store) (psyms : addr) (files : list File) (err : option error)
| Invalid (msg : string).

(** [pkgDecls] returns a symtab mapping from package-scoped identifiers to
    their declarations.  Any errors that are encountered are also
    returned, but the symtab is always valid, even in the face of
    errors. *)
Definition pkgDecls (files : list File) : Resolved :=
  let '(st, psyms) := makeSymtab initial univ in
  match eachFile (mkBinding st []) psyms 0 files with
  | None => Invalid "invalid top-level declaration"
  | Some (b, files) => Bound (tables b) psyms files (ErrorOrNil (errs b))
  end.

End decl.

(** ** Token streams for the scenarios

    A layout [pos] gives every token of an input its two ends;
    [lexemesAt pos i ts] lays the tokens [ts] out in source order, the first
    of them being token number [i] of the input. *)

Definition layout : Type := nat -> Location * Location.

Definition from (pos : layout) (i : nat) : Location := fst (pos i).
Definition upto (pos : layout) (i : nat) : Location := snd (pos i).
Definition spanAt (pos : layout) (i : nat) : span := mkSpan (from pos i) (upto pos i).

Fixpoint lexemesAt (pos : layout) (i : nat) (ts : list (Token * string))
  : list Lexeme :=
  match ts with
  | [] => []
  | (t, txt) :: rest =>
      mkLexeme t txt (from pos i) (upto pos i) [] :: lexemesAt pos (S i) rest
  end.

Definition source (pos : layout) (eof : Location)
                  (ts : list (Token * string)) : Parser :=
  mkParser (lexemesAt pos 0 ts) eof.

Definition ident (name : string) : Token * string := (token.Identifier, name).
Definition punct (t : Token) : Token * string := (t, "").

(** The identifier [name] read from token number [i]. *)
Definition identAt (pos : layout) (i : nat) (name : string) : Expression :=
  EIdentifier (mkIdentifier name (spanAt pos i)).

(** Columns of a one-line input: token [i] covers columns [2i+1] to [2i+2]. *)
Definition columns : layout :=
  fun i => (token.mkLocation 1 (2 * Z.of_nat i + 1),
            token.mkLocation 1 (2 * Z.of_nat i + 2)).

(** The input [a[5]] without its closing bracket. *)
Definition unterminatedIndex : list (Token * string) :=
  [ident "a"; punct token.OpenBracket; (token.IntegerLiteral, "5")].

(** A parameter declaration without identifiers, and one led by
    identifiers; a list is [exclusive] when all its declarations are of one
    kind. *)
Definition bare (d : ParameterDecl) : bool :=
  match pdIdentifiers d with
  | [] => true
  | _ => false
  end.

Definition named (d : ParameterDecl) : bool := negb (bare d).

Definition exclusive (pl : ParameterList) : bool :=
  forallb bare (plParameters pl) || forallb named (plParameters pl).

(** [(a, b int)] and [(a int, b)]. *)
Definition paramsSharedType (a b int : string) : list (Token * string) :=
  [punct token.OpenParen; ident a; punct token.Comma; ident b; ident int;
   punct token.CloseParen].

Definition paramsMixed (a b int : string) : list (Token * string) :=
  [punct token.OpenParen; ident a; ident int; punct token.Comma; ident b;
   punct token.CloseParen].

(** [x.(func(a int, b))]: the mixed list inside a type assertion. *)
Definition assertMixed (x a b int : string) : list (Token * string) :=
  [ident x; punct token.Dot; punct token.OpenParen; punct token.Func]
  ++ paramsMixed a b int ++ [punct token.CloseParen].

(** [const a = []b{}] and [const a = []b{{}}]. *)
Definition constSliceLiteral : list (Token * string) :=
  [punct token.Const; ident "a"; punct token.Equal; punct token.OpenBracket;
   punct token.CloseBracket; ident "b"; punct token.OpenBrace;
   punct token.CloseBrace].

Definition constNestedLiteral : list (Token * string) :=
  [punct token.Const; ident "a"; punct token.Equal; punct token.OpenBracket;
   punct token.CloseBracket; ident "b"; punct token.OpenBrace;
   punct token.OpenBrace; punct token.CloseBrace; punct token.CloseBrace].

Definition carriageReturn : ascii := "013"%char.

(** A raw string literal: [body] between back quotes. *)
Definition rawString (body : string) : string :=
  String "`"%char (String.append body "`").

Definition noStrconv : Strconv := mkStrconv (fun _ => None) (fun _ _ => None).

(** *** The words of the spec about binding

    The names a package declares, in the order the resolver meets them, each
    with the declaration it would be bound to. *)

Abbreviation bindings := (list (string * decl.Declaration)).

Fixpoint constBindings (r : decl.NodeRef) (i : Z) (ids : list Identifier)
  : bindings :=
  match ids with
  | [] => []
  | id :: rest =>
      (Name id, decl.DConstSpecView (decl.mkConstSpecView r i None None decl.unchecked))
      :: constBindings r (i + 1) rest
  end.

Fixpoint varBindings (r : decl.NodeRef) (i : Z) (ids : list Identifier)
  : bindings :=
  match ids with
  | [] => []
  | id :: rest =>
      (Name id, decl.DVarSpecView (decl.mkVarSpecView i r))
      :: varBindings r (i + 1) rest
  end.

Definition declBindings (r : decl.NodeRef) (d : decl.TopLevel) : bindings :=
  match d with
  | decl.MethodDecl id _ => [(Name id, decl.DMethodDecl r)]
  | decl.FunctionDecl id _ => [(Name id, decl.DFunctionDecl r)]
  | decl.TypeSpec id _ => [(Name id, decl.DTypeSpec r)]
  | decl.ConstSpec ids _ _ => constBindings r 0 ids
  | decl.VarSpec ids _ => varBindings r 0 ids
  | decl.OtherDecl => []
  end.

Fixpoint fileBindings (file j : nat) (ds : list decl.TopLevel) : bindings :=
  match ds with
  | [] => []
  | d :: rest =>
      declBindings (decl.mkNodeRef file j) d ++ fileBindings file (S j) rest
  end.

Fixpoint pkgBindings (file : nat) (fs : list decl.File) : bindings :=
  match fs with
  | [] => []
  | f :: rest =>
      fileBindings file 0 (decl.fileDeclarations f) ++ pkgBindings (S file) rest
  end.

(** First writer wins: the declaration a name is bound to is the first one
    made under that name; the blank identifier is bound to none. *)
Definition firstBound (bs : bindings) (n : string) : option decl.Declaration :=
  if bool_decide (n = "_") then None
  else snd <$> List.find (fun b => String.eqb (fst b) n) bs.

(** One [Redeclaration] for every declaration of a name that [seen] has bound
    already, naming the first declaration and the new one. *)
Fixpoint redeclarations (seen bs : bindings) : list decl.error :=
  match bs with
  | [] => []
  | (n, d) :: rest =>
      match firstBound seen n with
      | Some d0 =>
          decl.Redeclaration n d0 d :: redeclarations (seen ++ [(n, d)]) rest
      | None => redeclarations (seen ++ [(n, d)]) rest
      end
  end.

(** The errors of the package scope itself: the entries of the returned list
    that are a [Redeclaration]; the errors of a file scope come as one nested
    list per file. *)
Definition isRedeclaration (e : decl.error) : bool :=
  match e with
  | decl.Redeclaration _ _ _ => true
  | decl.Errors _ => false
  end.

Definition ownRedeclarations (err : option decl.error) : list decl.error :=
  match err with
  | Some (decl.Errors es) => List.filter isRedeclaration es
  | Some e => [e]
  | None => []
  end.

Definition isOther (d : decl.TopLevel) : bool :=
  match d with
  | decl.OtherDecl => true
  | _ => false
  end.

Definition hasOther (fs : list decl.File) : bool :=
  existsb (fun f => existsb isOther (decl.fileDeclarations f)) fs.

(** Every link of a table leads to an older table. *)
Definition wellFormed (st : decl.store) : Prop :=
  forall a tab u, st !! a = Some tab -> decl.Up tab = Some u -> (u < a)%nat.

(** No table binds the blank identifier. *)
Definition noBlank (st : decl.store) : Prop :=
  forall a tab, st !! a = Some tab -> decl.Decls tab !! "_" = None.

(** [st'] has every table of [st], with the same link. *)
Definition extends (st st' : decl.store) : Prop :=
  forall a tab, st !! a = Some tab ->
    exists tab', st' !! a = Some tab' /\ decl.Up tab' = decl.Up tab.

(** The walk from a file scope: the file's own table, then the package's,
    then the universe's. *)
Definition lookupOutward (ftab ptab : decl.symtab) (n : string) : decl.Answer :=
  match decl.Decls ftab !! n with
  | Some d => decl.Found d
  | None =>
      match decl.Decls ptab !! n with
      | Some d => decl.Found d
      | None =>
          match decl.Decls decl.univScope !! n with
          | Some d => decl.Found d
          | None => decl.NotFound
          end
      end
  end.

(** *** What the resolver keeps *)

(** The table of the package scope holds the first binding of every name
    seen so far. *)
Definition holds (st : decl.store) (psyms : decl.addr) (seen : bindings) : Prop :=
  exists tab, st !! psyms = Some tab
    /\ forall n, decl.Decls tab !! n = firstBound seen n.

(** What every step of the resolver keeps. *)
Record grows (st st' : decl.store) : Prop := mkGrows {
  grows_length : (length st <= length st')%nat;
  grows_extends : extends st st';
  grows_wf : wellFormed st -> wellFormed st';
  grows_noBlank : noBlank st -> noBlank st'
}.

(** What a loop over imports keeps: the store grows, and no table that
    existed before, other than the file's own, changes. *)
Definition keepsOthers (syms : decl.addr) (st st' : decl.store) : Prop :=
  grows st st'
  /\ forall a, (a < length st)%nat -> a <> syms -> st' !! a = st !! a.

(** What binding into the package scope keeps: the store grows without
    getting longer, and only the table of the package scope changes. *)
Definition bindsAt (psyms : decl.addr) (st st' : decl.store) : Prop :=
  grows st st' /\ length st' = length st
  /\ forall a, a <> psyms -> st' !! a = st !! a.

(** The state after a run of bindings [bs] into the package scope. *)
Definition bound (psyms : decl.addr) (seen bs : bindings)
    (b b' : decl.Binding) : Prop :=
  holds (decl.tables b') psyms (seen ++ bs)
  /\ decl.errs b' = decl.errs b ++ redeclarations seen bs
  /\ bindsAt psyms (decl.tables b) (decl.tables b').

(** A file whose scope is a table made after [st0], linked to the package
    scope. *)
Definition fileScoped (st0 st' : decl.store) (psyms : decl.addr)
    (f : decl.File) : Prop :=
  exists a tab,
    decl.fileSyms f = Some a /\ (length st0 <= a)%nat
    /\ st' !! a = Some tab /\ decl.Up tab = Some psyms.

(** Everything the later theorems need to know about a resolved package. *)
Record resolved (files : list decl.File) (st : decl.store) (psyms : decl.addr)
    (files' : list decl.File) (err : option decl.error) : Prop := mkResolved {
  res_psyms : psyms = 1%nat;
  res_valid : hasOther files = false;
  res_holds : holds st psyms (pkgBindings 0 files);
  res_errors : ownRedeclarations err = redeclarations [] (pkgBindings 0 files);
  res_wf : wellFormed st;
  res_noBlank : noBlank st;
  res_univ : st !! decl.univ = Some decl.univScope;
  res_up : exists ptab, st !! psyms = Some ptab /\ decl.Up ptab = Some decl.univ;
  res_length : length files' = length files;
  res_files : Forall (fileScoped [decl.univScope] st psyms) files';
  res_distinct : NoDup (map decl.fileSyms files')
}.

Definition aboutBlank (e : decl.error) : bool :=
  match e with
  | decl.Redeclaration n _ _ => bool_decide (n = "_")
  | decl.Errors _ => false
  end.

Definition allBlank (bs : bindings) : bool :=
  forallb (fun b => String.eqb (fst b) "_") bs.

Definition fn (name : string) (sp : span) : decl.TopLevel :=
  decl.FunctionDecl (mkIdentifier name sp) None.

Definition twoOfOneName (s1 s2 : span) : list decl.File :=
  [decl.mkFile [] [fn "f" s1; fn "f" s2] None].

Definition threeOfOneName (s1 s2 s3 s4 : span) : list decl.File :=
  [decl.mkFile []
     [fn "f" s1;
      decl.TypeSpec (mkIdentifier "f" s2) None;
      decl.VarSpec [mkIdentifier "f" s3; mkIdentifier "g" s4] None]
     None].

Definition importingFile (s1 s2 : span) : list decl.File :=
  [decl.mkFile [decl.mkImportDecl [decl.mkImportSpec "fmt"]]
     [fn "f" s1; decl.TypeSpec (mkIdentifier "int" s2) None]
     None].

Definition blankDeclarations (s1 s2 s3 s4 : span) : list decl.File :=
  [decl.mkFile []
     [fn "_" s1;
      decl.ConstSpec [mkIdentifier "_" s2; mkIdentifier "_" s3] None [];
      decl.VarSpec [mkIdentifier "_" s4] None]
     None].

Definition emptyFile : list decl.File := [decl.mkFile [] [] None].

(** The value of an integer literal, in the words of the language: a
    sequence of digits, with [0x] or [0X] in front for base 16 and [0] in
    front for base 8. *)
Definition charCode (ch : ascii) : Z := Z.of_nat (nat_of_ascii ch).

Definition inRange (lo hi ch : ascii) : bool :=
  (charCode lo <=? charCode ch) && (charCode ch <=? charCode hi).

(** A decimal digit, or a letter from [a] to [f] in either case. *)
Definition digitValue (ch : ascii) : option Z :=
  if inRange "0" "9" ch then Some (charCode ch - charCode "0")
  else if inRange "a" "f" ch then Some (charCode ch - charCode "a" + 10)
  else if inRange "A" "F" ch then Some (charCode ch - charCode "A" + 10)
  else None.

Fixpoint digitsValue (base acc : Z) (s : string) : option Z :=
  match s with
  | EmptyString => Some acc
  | String ch r =>
      match digitValue ch with
      | Some d => if d <? base then digitsValue base (acc * base + d) r else None
      | None => None
      end
  end.

Definition integerLiteralValue (txt : string) : option Z :=
  match txt with
  | EmptyString => None
  | String ch r =>
      if Ascii.eqb ch "0" then
        match r with
        | EmptyString => Some 0
        | String x r' =>
            if Ascii.eqb x "x" || Ascii.eqb x "X" then
              match r' with
              | EmptyString => None
              | _ => digitsValue 16 0 r'
              end
            else digitsValue 8 0 r
        end
      else
        match digitValue ch with
        | Some d => if d <? 10 then digitsValue 10 0 txt else None
        | None => None
        end
  end.

(** The value of a float literal, in the words of the language: an integer
    part, a decimal point, a fractional part and an exponent part, all in
    decimal digits; the exponent part is [e] or [E], an optional sign and
    digits.  One of the integer part and the fractional part may be elided;
    one of the decimal point and the exponent may be elided.  An imaginary
    literal is a run of decimal digits or a float literal, followed by
    [i]. *)
Inductive Sign : Type := NoSign | PlusSign | MinusSign.

Record ExponentPart : Type := mkExponentPart {
  upperE : bool;
  expSign : Sign;
  expDigits : string
}.

(** [fraction] is the digits after the decimal point, when there is one. *)
Record Decimal : Type := mkDecimal {
  integerPart : string;
  fraction : option string;
  exponent : option ExponentPart
}.

Definition signText (s : Sign) : string :=
  match s with
  | NoSign => ""
  | PlusSign => "+"
  | MinusSign => "-"
  end.

Definition exponentText (x : option ExponentPart) : string :=
  match x with
  | None => ""
  | Some e =>
      String (if upperE e then "E"%char else "e"%char)
        (String.append (signText (expSign e)) (expDigits e))
  end.

Definition mantissaText (d : Decimal) : string :=
  String.append (integerPart d)
    (match fraction d with
     | None => ""
     | Some fd => String "."%char fd
     end).

Definition decimalText (d : Decimal) : string :=
  String.append (mantissaText d) (exponentText (exponent d)).

Definition fractionDigits (d : Decimal) : string :=
  match fraction d with
  | None => ""
  | Some fd => fd
  end.

Definition exponentValue (x : option ExponentPart) : option Z :=
  match x with
  | None => Some 0
  | Some e =>
      match expDigits e, digitsValue 10 0 (expDigits e) with
      | String _ _, Some v =>
          Some (match expSign e with
                | MinusSign => - v
                | _ => v
                end)
      | _, _ => None
      end
  end.

(** The integer part and the fraction over the power of ten of its length,
    times ten to the exponent; [None] when a part is no run of decimal
    digits, or when both parts of the mantissa are elided. *)
Definition decimalValue (d : Decimal) : option Q :=
  match String.append (integerPart d) (fractionDigits d),
        digitsValue 10 0 (integerPart d),
        digitsValue 10 0 (fractionDigits d),
        exponentValue (exponent d) with
  | String _ _, Some i, Some f, Some e =>
      Some ((inject_Z i
             + inject_Z f
               / inject_Z (10 ^ Z.of_nat (String.length (fractionDigits d))))
            * Qpower (inject_Z 10) e)%Q
  | _, _, _, _ => None
  end.

(** A float literal has a decimal point or an exponent; the number before
    the [i] of an imaginary literal need have neither. *)
Definition floatLiteralValue (d : Decimal) : option Q :=
  match fraction d, exponent d with
  | None, None => None
  | _, _ => decimalValue d
  end.

Definition imaginaryLiteralValue (d : Decimal) : option Q := decimalValue d.

Definition imaginaryText (d : Decimal) : string :=
  String.append (decimalText d) "i".

(** [cs], a set of bytes to look for, holds no decimal digit. *)
Definition noDigit (cs : list ascii) : Prop :=
  forall ch d, digitValue ch = Some d -> d < 10 -> existsb (Ascii.eqb ch) cs = false.

(** *** What the grammar functions keep

    [adv k p p']: the parser [p'] is [p] after at least [k] tokens were read:
    what [p'] has left is what [p] had left without its first tokens, and
    the end of the input is where it was. *)
Definition adv (k : nat) (p p' : Parser) : Prop :=
  eofAt p' = eofAt p
  /\ exists used, unread p = used ++ unread p' /\ (k <= length used)%nat.

(** Every function of the expression grammar leaves the cursor at or after
    the token it found it at; the functions that read a production, and are
    no body of a loop, read at least one token. *)
Definition Advances (sc : Strconv) (fuel : nat) : Prop :=
  (forall p x p',
      Grammar.parseType sc fuel p = Done x p' -> adv 1 p p')
  /\ (forall p x p',
      Grammar.parseSignature sc fuel p = Done x p' -> adv 1 p p')
  /\ (forall p x p',
      Grammar.parseParameterList sc fuel p = Done x p' -> adv 1 p p')
  /\ (forall pl ids p x p',
      Grammar.parseParameterListTail sc fuel pl ids p = Done x p' -> adv 0 p p')
  /\ (forall pl p x p',
      Grammar.parseTypeParameterList sc fuel pl p = Done x p' -> adv 0 p p')
  /\ (forall pl p x p',
      Grammar.parseDeclParameterList sc fuel pl p = Done x p' -> adv 0 p p')
  /\ (forall p x p',
      Grammar.parseChannelType sc fuel p = Done x p' -> adv 1 p p')
  /\ (forall p x p',
      Grammar.parseMapType sc fuel p = Done x p' -> adv 1 p p')
  /\ (forall p x p',
      Grammar.parseArrayOrSliceType sc fuel p = Done x p' -> adv 1 p p')
  /\ (forall p x p',
      Grammar.parseExpression sc fuel p = Done x p' -> adv 1 p p')
  /\ (forall prec p x p',
      Grammar.parseBinaryExpr sc fuel prec p = Done x p' -> adv 1 p p')
  /\ (forall prec left p x p',
      Grammar.parseBinaryExprLoop sc fuel prec left p = Done x p' -> adv 0 p p')
  /\ (forall p x p',
      Grammar.parseUnaryExpr sc fuel p = Done x p' -> adv 1 p p')
  /\ (forall p x p',
      Grammar.parsePrimaryExpr sc fuel p = Done x p' -> adv 1 p p')
  /\ (forall left p x p',
      Grammar.parsePrimaryExprLoop sc fuel left p = Done x p' -> adv 0 p p')
  /\ (forall left p x p',
      Grammar.parseSliceOrIndex sc fuel left p = Done x p' -> adv 1 p p')
  /\ (forall left low p x p',
      Grammar.parseSliceHighMax sc fuel left low p = Done x p' -> adv 1 p p')
  /\ (forall left p x p',
      Grammar.parseCall sc fuel left p = Done x p' -> adv 1 p p')
  /\ (forall es p x p',
      Grammar.parseExpressionList sc fuel es p = Done x p' -> adv 1 p p')
  /\ (forall p x p',
      Grammar.parseOperand sc fuel p = Done x p' -> adv 1 p p')
  /\ (forall left p x p',
      Grammar.parseSelectorOrTypeAssertion sc fuel left p = Done x p' -> adv 1 p p').

(** The same for the declaration grammar. *)
Definition DeclAdvances (sc : Strconv) (fuel : nat) : Prop :=
  (forall p x p',
      DeclGrammar.parseType sc fuel p = Done x p' -> adv 1 p p')
  /\ (forall p x p',
      DeclGrammar.parseStructType sc fuel p = Done x p' -> adv 1 p p')
  /\ (forall fields p x p',
      DeclGrammar.parseStructFields sc fuel fields p = Done x p' -> adv 0 p p')
  /\ (forall p x p',
      DeclGrammar.parseFieldDecl sc fuel p = Done x p' -> adv 1 p p')
  /\ (forall p x p',
      DeclGrammar.parseInterfaceType sc fuel p = Done x p' -> adv 1 p p')
  /\ (forall methods p x p',
      DeclGrammar.parseInterfaceMethods sc fuel methods p = Done x p' -> adv 0 p p')
  /\ (forall p x p',
      DeclGrammar.parseSignature sc fuel p = Done x p' -> adv 1 p p')
  /\ (forall p x p',
      DeclGrammar.parseParameterList sc fuel p = Done x p' -> adv 1 p p')
  /\ (forall pl ids p x p',
      DeclGrammar.parseParameterListTail sc fuel pl ids p = Done x p' -> adv 0 p p')
  /\ (forall pl p x p',
      DeclGrammar.parseTypeParameterList sc fuel pl p = Done x p' -> adv 0 p p')
  /\ (forall pl p x p',
      DeclGrammar.parseDeclParameterList sc fuel pl p = Done x p' -> adv 0 p p')
  /\ (forall p x p',
      DeclGrammar.parseChannelType sc fuel p = Done x p' -> adv 1 p p')
  /\ (forall p x p',
      DeclGrammar.parseMapType sc fuel p = Done x p' -> adv 1 p p')
  /\ (forall ddd p x p',
      DeclGrammar.parseArrayOrSliceType sc fuel ddd p = Done x p' -> adv 1 p p')
  /\ (forall p x p',
      DeclGrammar.parseExpression sc fuel p = Done x p' -> adv 1 p p')
  /\ (forall prec p x p',
      DeclGrammar.parseBinaryExpr sc fuel prec p = Done x p' -> adv 1 p p')
  /\ (forall prec left p x p',
      DeclGrammar.parseBinaryExprLoop sc fuel prec left p = Done x p' -> adv 0 p p')
  /\ (forall p x p',
      DeclGrammar.parseUnaryExpr sc fuel p = Done x p' -> adv 1 p p')
  /\ (forall p x p',
      DeclGrammar.parsePrimaryExpr sc fuel p = Done x p' -> adv 1 p p')
  /\ (forall left p x p',
      DeclGrammar.parsePrimaryExprLoop sc fuel left p = Done x p' -> adv 0 p p')
  /\ (forall left p x p',
      DeclGrammar.parseSliceOrIndex sc fuel left p = Done x p' -> adv 1 p p')
  /\ (forall left low p x p',
      DeclGrammar.parseSliceHighMax sc fuel left low p = Done x p' -> adv 1 p p')
  /\ (forall left p x p',
      DeclGrammar.parseCall sc fuel left p = Done x p' -> adv 1 p p')
  /\ (forall es p x p',
      DeclGrammar.parseExpressionList sc fuel es p = Done x p' -> adv 1 p p')
  /\ (forall p x p',
      DeclGrammar.parseOperand sc fuel p = Done x p' -> adv 1 p p')
  /\ (forall p x p',
      DeclGrammar.parseCompositeLiteral sc fuel p = Done x p' -> adv 1 p p')
  /\ (forall p x p',
      DeclGrammar.parseLiteralValue sc fuel p = Done x p' -> adv 1 p p')
  /\ (forall es p x p',
      DeclGrammar.parseElements sc fuel es p = Done x p' -> adv 0 p p')
  /\ (forall p x p',
      DeclGrammar.parseElement sc fuel p = Done x p' -> adv 1 p p')
  /\ (forall left p x p',
      DeclGrammar.parseSelectorOrTypeAssertion sc fuel left p = Done x p' -> adv 1 p p').

(** No function of the expression grammar uses up fuel that allows 7
    nested calls for every unread token, and as many more as the function
    can make without reading a token. *)
Definition Terminates (sc : Strconv) (fuel : nat) : Prop :=
  (forall p, (7 * length (unread p) + 2 <= fuel)%nat ->
      Grammar.parseType sc fuel p <> Exhausted)
  /\ (forall p, (7 * length (unread p) + 2 <= fuel)%nat ->
      Grammar.parseSignature sc fuel p <> Exhausted)
  /\ (forall p, (7 * length (unread p) + 1 <= fuel)%nat ->
      Grammar.parseParameterList sc fuel p <> Exhausted)
  /\ (forall pl ids p, (7 * length (unread p) + 3 <= fuel)%nat ->
      Grammar.parseParameterListTail sc fuel pl ids p <> Exhausted)
  /\ (forall pl p, (7 * length (unread p) + 1 <= fuel)%nat ->
      Grammar.parseTypeParameterList sc fuel pl p <> Exhausted)
  /\ (forall pl p, (7 * length (unread p) + 1 <= fuel)%nat ->
      Grammar.parseDeclParameterList sc fuel pl p <> Exhausted)
  /\ (forall p, (7 * length (unread p) + 1 <= fuel)%nat ->
      Grammar.parseChannelType sc fuel p <> Exhausted)
  /\ (forall p, (7 * length (unread p) + 1 <= fuel)%nat ->
      Grammar.parseMapType sc fuel p <> Exhausted)
  /\ (forall p, (7 * length (unread p) + 1 <= fuel)%nat ->
      Grammar.parseArrayOrSliceType sc fuel p <> Exhausted)
  /\ (forall p, (7 * length (unread p) + 5 <= fuel)%nat ->
      Grammar.parseExpression sc fuel p <> Exhausted)
  /\ (forall prec p, (7 * length (unread p) + 4 <= fuel)%nat ->
      Grammar.parseBinaryExpr sc fuel prec p <> Exhausted)
  /\ (forall prec left p, (7 * length (unread p) + 1 <= fuel)%nat ->
      Grammar.parseBinaryExprLoop sc fuel prec left p <> Exhausted)
  /\ (forall p, (7 * length (unread p) + 3 <= fuel)%nat ->
      Grammar.parseUnaryExpr sc fuel p <> Exhausted)
  /\ (forall p, (7 * length (unread p) + 2 <= fuel)%nat ->
      Grammar.parsePrimaryExpr sc fuel p <> Exhausted)
  /\ (forall left p, (7 * length (unread p) + 2 <= fuel)%nat ->
      Grammar.parsePrimaryExprLoop sc fuel left p <> Exhausted)
  /\ (forall left p, (7 * length (unread p) + 1 <= fuel)%nat ->
      Grammar.parseSliceOrIndex sc fuel left p <> Exhausted)
  /\ (forall left low p, (7 * length (unread p) + 1 <= fuel)%nat ->
      Grammar.parseSliceHighMax sc fuel left low p <> Exhausted)
  /\ (forall left p, (7 * length (unread p) + 1 <= fuel)%nat ->
      Grammar.parseCall sc fuel left p <> Exhausted)
  /\ (forall es p, (7 * length (unread p) + 6 <= fuel)%nat ->
      Grammar.parseExpressionList sc fuel es p <> Exhausted)
  /\ (forall p, (7 * length (unread p) + 1 <= fuel)%nat ->
      Grammar.parseOperand sc fuel p <> Exhausted)
  /\ (forall left p, (7 * length (unread p) + 1 <= fuel)%nat ->
      Grammar.parseSelectorOrTypeAssertion sc fuel left p <> Exhausted).

(** The same for the declaration grammar, with 12 calls for a token. *)
Definition DeclTerminates (sc : Strconv) (fuel : nat) : Prop :=
  (forall p, (12 * length (unread p) + 2 <= fuel)%nat ->
      DeclGrammar.parseType sc fuel p <> Exhausted)
  /\ (forall p, (12 * length (unread p) + 1 <= fuel)%nat ->
      DeclGrammar.parseStructType sc fuel p <> Exhausted)
  /\ (forall fields p, (12 * length (unread p) + 2 <= fuel)%nat ->
      DeclGrammar.parseStructFields sc fuel fields p <> Exhausted)
  /\ (forall p, (12 * length (unread p) + 1 <= fuel)%nat ->
      DeclGrammar.parseFieldDecl sc fuel p <> Exhausted)
  /\ (forall p, (12 * length (unread p) + 1 <= fuel)%nat ->
      DeclGrammar.parseInterfaceType sc fuel p <> Exhausted)
  /\ (forall methods p, (12 * length (unread p) + 1 <= fuel)%nat ->
      DeclGrammar.parseInterfaceMethods sc fuel methods p <> Exhausted)
  /\ (forall p, (12 * length (unread p) + 2 <= fuel)%nat ->
      DeclGrammar.parseSignature sc fuel p <> Exhausted)
  /\ (forall p, (12 * length (unread p) + 1 <= fuel)%nat ->
      DeclGrammar.parseParameterList sc fuel p <> Exhausted)
  /\ (forall pl ids p, (12 * length (unread p) + 3 <= fuel)%nat ->
      DeclGrammar.parseParameterListTail sc fuel pl ids p <> Exhausted)
  /\ (forall pl p, (12 * length (unread p) + 1 <= fuel)%nat ->
      DeclGrammar.parseTypeParameterList sc fuel pl p <> Exhausted)
  /\ (forall pl p, (12 * length (unread p) + 1 <= fuel)%nat ->
      DeclGrammar.parseDeclParameterList sc fuel pl p <> Exhausted)
  /\ (forall p, (12 * length (unread p) + 1 <= fuel)%nat ->
      DeclGrammar.parseChannelType sc fuel p <> Exhausted)
  /\ (forall p, (12 * length (unread p) + 1 <= fuel)%nat ->
      DeclGrammar.parseMapType sc fuel p <> Exhausted)
  /\ (forall ddd p, (12 * length (unread p) + 1 <= fuel)%nat ->
      DeclGrammar.parseArrayOrSliceType sc fuel ddd p <> Exhausted)
  /\ (forall p, (12 * length (unread p) + 8 <= fuel)%nat ->
      DeclGrammar.parseExpression sc fuel p <> Exhausted)
  /\ (forall prec p, (12 * length (unread p) + 7 <= fuel)%nat ->
      DeclGrammar.parseBinaryExpr sc fuel prec p <> Exhausted)
  /\ (forall prec left p, (12 * length (unread p) + 1 <= fuel)%nat ->
      DeclGrammar.parseBinaryExprLoop sc fuel prec left p <> Exhausted)
  /\ (forall p, (12 * length (unread p) + 6 <= fuel)%nat ->
      DeclGrammar.parseUnaryExpr sc fuel p <> Exhausted)
  /\ (forall p, (12 * length (unread p) + 5 <= fuel)%nat ->
      DeclGrammar.parsePrimaryExpr sc fuel p <> Exhausted)
  /\ (forall left p, (12 * length (unread p) + 2 <= fuel)%nat ->
      DeclGrammar.parsePrimaryExprLoop sc fuel left p <> Exhausted)
  /\ (forall left p, (12 * length (unread p) + 1 <= fuel)%nat ->
      DeclGrammar.parseSliceOrIndex sc fuel left p <> Exhausted)
  /\ (forall left low p, (12 * length (unread p) + 1 <= fuel)%nat ->
      DeclGrammar.parseSliceHighMax sc fuel left low p <> Exhausted)
  /\ (forall left p, (12 * length (unread p) + 1 <= fuel)%nat ->
      DeclGrammar.parseCall sc fuel left p <> Exhausted)
  /\ (forall es p, (12 * length (unread p) + 9 <= fuel)%nat ->
      DeclGrammar.parseExpressionList sc fuel es p <> Exhausted)
  /\ (forall p, (12 * length (unread p) + 4 <= fuel)%nat ->
      DeclGrammar.parseOperand sc fuel p <> Exhausted)
  /\ (forall p, (12 * length (unread p) + 3 <= fuel)%nat ->
      DeclGrammar.parseCompositeLiteral sc fuel p <> Exhausted)
  /\ (forall p, (12 * length (unread p) + 1 <= fuel)%nat ->
      DeclGrammar.parseLiteralValue sc fuel p <> Exhausted)
  /\ (forall es p, (12 * length (unread p) + 10 <= fuel)%nat ->
      DeclGrammar.parseElements sc fuel es p <> Exhausted)
  /\ (forall p, (12 * length (unread p) + 9 <= fuel)%nat ->
      DeclGrammar.parseElement sc fuel p <> Exhausted)
  /\ (forall left p, (12 * length (unread p) + 1 <= fuel)%nat ->
      DeclGrammar.parseSelectorOrTypeAssertion sc fuel left p <> Exhausted).

(** The text of the panics of the literal parsers. *)
Definition badLiteral (kind : string) (q : Parser) : string :=
  String.append "bad "
    (String.append kind (String.append " literal: " (text q))).

(** What a panic raised with the cursor at [q] carries: a syntax error is
    the error of the token at [q] and does not want the token it got; a
    malformed literal is that token, a literal of the kind named; a string
    is the word of a production that is not implemented, [unimplemented]
    listing the tokens that lead to one, or the complaint about a literal
    the lexer should not have let through. *)
Definition describes (unimplemented : list Token) (q : Parser)
    (v : PanicValue) : Prop :=
  match v with
  | PSyntaxError e =>
      e = err q (Wanted e) /\ ~ In (WTok (tok q)) (Wanted e)
  | PMalformedLiteral e =>
      PMalformedLiteral e = malformed q (mlType e)
      /\ In (tok q, mlType e)
           [(token.IntegerLiteral, "integer literal");
            (token.FloatLiteral, "float literal");
            (token.ImaginaryLiteral, "imaginary literal");
            (token.RuneLiteral, "rune literal")]
  | PString s =>
      (s = "unimplemented" /\ In (tok q) unimplemented)
      \/ In (tok q, s)
           [(token.ImaginaryLiteral, badLiteral "imaginary" q);
            (token.StringLiteral, badLiteral "string" q);
            (token.RuneLiteral, badLiteral "rune" q)]
  | PNilDeref => False
  end.

(** A panic of a parse begun at [p] describes a token at or after [p]. *)
Definition blames (unimplemented : list Token) (p : Parser) (v : PanicValue)
  : Prop :=
  exists q, adv 0 p q /\ describes unimplemented q v.

Definition Blames (sc : Strconv) (fuel : nat) : Prop :=
  (forall p v,
      Grammar.parseType sc fuel p = Panicked v -> blames [token.Struct; token.Interface] p v)
  /\ (forall p v,
      Grammar.parseSignature sc fuel p = Panicked v -> blames [token.Struct; token.Interface] p v)
  /\ (forall p v,
      Grammar.parseParameterList sc fuel p = Panicked v -> blames [token.Struct; token.Interface] p v)
  /\ (forall pl ids p v,
      Grammar.parseParameterListTail sc fuel pl ids p = Panicked v -> blames [token.Struct; token.Interface] p v)
  /\ (forall pl p v,
      Grammar.parseTypeParameterList sc fuel pl p = Panicked v -> blames [token.Struct; token.Interface] p v)
  /\ (forall pl p v,
      Grammar.parseDeclParameterList sc fuel pl p = Panicked v -> blames [token.Struct; token.Interface] p v)
  /\ (forall p v,
      Grammar.parseChannelType sc fuel p = Panicked v -> blames [token.Struct; token.Interface] p v)
  /\ (forall p v,
      Grammar.parseMapType sc fuel p = Panicked v -> blames [token.Struct; token.Interface] p v)
  /\ (forall p v,
      Grammar.parseArrayOrSliceType sc fuel p = Panicked v -> blames [token.Struct; token.Interface] p v)
  /\ (forall p v,
      Grammar.parseExpression sc fuel p = Panicked v -> blames [token.Struct; token.Interface] p v)
  /\ (forall prec p v,
      Grammar.parseBinaryExpr sc fuel prec p = Panicked v -> blames [token.Struct; token.Interface] p v)
  /\ (forall prec left p v,
      Grammar.parseBinaryExprLoop sc fuel prec left p = Panicked v -> blames [token.Struct; token.Interface] p v)
  /\ (forall p v,
      Grammar.parseUnaryExpr sc fuel p = Panicked v -> blames [token.Struct; token.Interface] p v)
  /\ (forall p v,
      Grammar.parsePrimaryExpr sc fuel p = Panicked v -> blames [token.Struct; token.Interface] p v)
  /\ (forall left p v,
      Grammar.parsePrimaryExprLoop sc fuel left p = Panicked v -> blames [token.Struct; token.Interface] p v)
  /\ (forall left p v,
      Grammar.parseSliceOrIndex sc fuel left p = Panicked v -> blames [token.Struct; token.Interface] p v)
  /\ (forall left low p v,
      Grammar.parseSliceHighMax sc fuel left low p = Panicked v -> blames [token.Struct; token.Interface] p v)
  /\ (forall left p v,
      Grammar.parseCall sc fuel left p = Panicked v -> blames [token.Struct; token.Interface] p v)
  /\ (forall es p v,
      Grammar.parseExpressionList sc fuel es p = Panicked v -> blames [token.Struct; token.Interface] p v)
  /\ (forall p v,
      Grammar.parseOperand sc fuel p = Panicked v -> blames [token.Struct; token.Interface] p v)
  /\ (forall left p v,
      Grammar.parseSelectorOrTypeAssertion sc fuel left p = Panicked v -> blames [token.Struct; token.Interface] p v).

Definition DeclBlames (sc : Strconv) (fuel : nat) : Prop :=
  (forall p v,
      DeclGrammar.parseType sc fuel p = Panicked v -> blames [token.Var] p v)
  /\ (forall p v,
      DeclGrammar.parseStructType sc fuel p = Panicked v -> blames [token.Var] p v)
  /\ (forall fields p v,
      DeclGrammar.parseStructFields sc fuel fields p = Panicked v -> blames [token.Var] p v)
  /\ (forall p v,
      DeclGrammar.parseFieldDecl sc fuel p = Panicked v -> blames [token.Var] p v)
  /\ (forall p v,
      DeclGrammar.parseInterfaceType sc fuel p = Panicked v -> blames [token.Var] p v)
  /\ (forall methods p v,
      DeclGrammar.parseInterfaceMethods sc fuel methods p = Panicked v -> blames [token.Var] p v)
  /\ (forall p v,
      DeclGrammar.parseSignature sc fuel p = Panicked v -> blames [token.Var] p v)
  /\ (forall p v,
      DeclGrammar.parseParameterList sc fuel p = Panicked v -> blames [token.Var] p v)
  /\ (forall pl ids p v,
      DeclGrammar.parseParameterListTail sc fuel pl ids p = Panicked v -> blames [token.Var] p v)
  /\ (forall pl p v,
      DeclGrammar.parseTypeParameterList sc fuel pl p = Panicked v -> blames [token.Var] p v)
  /\ (forall pl p v,
      DeclGrammar.parseDeclParameterList sc fuel pl p = Panicked v -> blames [token.Var] p v)
  /\ (forall p v,
      DeclGrammar.parseChannelType sc fuel p = Panicked v -> blames [token.Var] p v)
  /\ (forall p v,
      DeclGrammar.parseMapType sc fuel p = Panicked v -> blames [token.Var] p v)
  /\ (forall ddd p v,
      DeclGrammar.parseArrayOrSliceType sc fuel ddd p = Panicked v -> blames [token.Var] p v)
  /\ (forall p v,
      DeclGrammar.parseExpression sc fuel p = Panicked v -> blames [token.Var] p v)
  /\ (forall prec p v,
      DeclGrammar.parseBinaryExpr sc fuel prec p = Panicked v -> blames [token.Var] p v)
  /\ (forall prec left p v,
      DeclGrammar.parseBinaryExprLoop sc fuel prec left p = Panicked v -> blames [token.Var] p v)
  /\ (forall p v,
      DeclGrammar.parseUnaryExpr sc fuel p = Panicked v -> blames [token.Var] p v)
  /\ (forall p v,
      DeclGrammar.parsePrimaryExpr sc fuel p = Panicked v -> blames [token.Var] p v)
  /\ (forall left p v,
      DeclGrammar.parsePrimaryExprLoop sc fuel left p = Panicked v -> blames [token.Var] p v)
  /\ (forall left p v,
      DeclGrammar.parseSliceOrIndex sc fuel left p = Panicked v -> blames [token.Var] p v)
  /\ (forall left low p v,
      DeclGrammar.parseSliceHighMax sc fuel left low p = Panicked v -> blames [token.Var] p v)
  /\ (forall left p v,
      DeclGrammar.parseCall sc fuel left p = Panicked v -> blames [token.Var] p v)
  /\ (forall es p v,
      DeclGrammar.parseExpressionList sc fuel es p = Panicked v -> blames [token.Var] p v)
  /\ (forall p v,
      DeclGrammar.parseOperand sc fuel p = Panicked v -> blames [token.Var] p v)
  /\ (forall p v,
      DeclGrammar.parseCompositeLiteral sc fuel p = Panicked v -> blames [token.Var] p v)
  /\ (forall p v,
      DeclGrammar.parseLiteralValue sc fuel p = Panicked v -> blames [token.Var] p v)
  /\ (forall es p v,
      DeclGrammar.parseElements sc fuel es p = Panicked v -> blames [token.Var] p v)
  /\ (forall p v,
      DeclGrammar.parseElement sc fuel p = Panicked v -> blames [token.Var] p v)
  /\ (forall left p v,
      DeclGrammar.parseSelectorOrTypeAssertion sc fuel left p = Panicked v -> blames [token.Var] p v).

(** Every type the declaration grammar builds answers [End]. *)
Definition DeclEnds (sc : Strconv) (fuel : nat) : Prop :=
  (forall p ty q,
     DeclGrammar.parseType sc fuel p = Done ty q -> typEnd ty <> None)
  /\ (forall p ty q,
       DeclGrammar.parseStructType sc fuel p = Done ty q -> typEnd ty <> None)
  /\ (forall p ty q,
       DeclGrammar.parseInterfaceType sc fuel p = Done ty q ->
       typEnd ty <> None)
  /\ (forall p s q,
       DeclGrammar.parseSignature sc fuel p = Done s q ->
       typEnd (TFunctionType s) <> None)
  /\ (forall p ty q,
       DeclGrammar.parseChannelType sc fuel p = Done ty q -> typEnd ty <> None)
  /\ (forall p ty q,
       DeclGrammar.parseMapType sc fuel p = Done ty q -> typEnd ty <> None)
  /\ (forall ddd p ty q,
       DeclGrammar.parseArrayOrSliceType sc fuel ddd p = Done ty q ->
       typEnd ty <> None).

(** The panic behind an error that [Parse] returned. *)
Definition thrown (e : ParseError) : PanicValue :=
  match e with
  | ErrSyntax e => PSyntaxError e
  | ErrMalformed e => PMalformedLiteral e
  end.

(** The inputs [a], [a.(struct], [var], [const a] and [const], and the
    cursor at the end of an input. *)
Definition oneName : Parser := source columns token.zero [ident "a"].

Definition assertStruct : Parser :=
  source columns token.zero
    [ident "a"; punct token.Dot; punct token.OpenParen; punct token.Struct].

Definition oneVar : Parser := source columns token.zero [punct token.Var].

Definition constName : Parser :=
  source columns token.zero [punct token.Const; ident "a"].

Definition loneConst : Parser := source columns token.zero [punct token.Const].

Definition atEnd : Parser := mkParser [] token.zero.

(** *** More of the code: errors.go, and Start and End of the declaration nodes *)

(** ** errors.go: the slice of errors *)

Module errors.

Section Rendered.

(** [E] is the interface [error]; [render e] is [e.Error()]. *)
Context {E : Type} (render : E -> string).

(** One turn of the loop of [Error]. *)
Definition addLine (s : string) (e : E) : string :=
  String.append (if String.eqb s "" then s else String.append s (String "010"%char ""))
                (render e).

(** [Error] returns the concatenation of the error strings of all errors,
    separated by newlines. *)
Definition Error (es : list E) : string := fold_left addLine es "".

End Rendered.

(** [Add] adds an error to the errors if it is non-nil. *)
Definition Add {E} (es : list E) (e : option E) : list E :=
  match e with
  | Some e => es ++ [e]
  | None => es
  end.

End errors.

Definition newline : string := String "010"%char "".

(** The messages without the empty ones in front. *)
Fixpoint fromFirstLine (msgs : list string) : list string :=
  match msgs with
  | [] => []
  | m :: rest => if String.eqb m "" then fromFirstLine rest else msgs
  end.

(** The errors that are not nil, in order. *)
Definition present {E} (es : list (option E)) : list E := omap id es.

(** *** Start and End of fields and declarations

    [None] stands for a run-time panic here too: a call through a nil
    interface, or an index out of range. *)

Definition fieldDeclStart (n : FieldDecl) : option Location :=
  match n with
  | mkFieldDecl ids ty _ =>
      match ids with
      | id :: _ => Some (start (idSpan id))
      | [] => typStart ty
      end
  end.

Definition fieldDeclEnd (n : FieldDecl) : option Location :=
  match n with
  | mkFieldDecl _ ty tag =>
      match tag with
      | Some l => Some (end_ (slSpan l))
      | None => typEnd ty
      end
  end.

(** [n.Names[0].Start()] and [n.Values[len(n.Values)-1].End()]. *)
Definition constSpecStart (n : ConstSpec) : option Location :=
  match csNames n with
  | id :: _ => Some (start (idSpan id))
  | [] => None
  end.

Definition constSpecEnd (n : ConstSpec) : option Location :=
  match last (csValues n) with
  | Some v => exprEnd v
  | None => None
  end.

Definition typeSpecStart (n : TypeSpec) : option Location :=
  Some (start (idSpan (tsName n))).

Definition typeSpecEnd (n : TypeSpec) : option Location := typEnd (tsType n).

Definition declStart (d : Declaration) : option Location :=
  match d with
  | DConstSpec c => constSpecStart c
  | DTypeSpec t => typeSpecStart t
  end.

Definition declEnd (d : Declaration) : option Location :=
  match d with
  | DConstSpec c => constSpecEnd c
  | DTypeSpec t => typeSpecEnd t
  end.

(** [n[0].Start()] and [n[len(n)-1].End()]. *)
Definition declarationsStart (n : Declarations) : option Location :=
  match n with
  | d :: _ => declStart d
  | [] => None
  end.

Definition declarationsEnd (n : Declarations) : option Location :=
  match last n with
  | Some d => declEnd d
  | None => None
  end.

(** The input [a] after [const], the input [const ( )], and the field [*T]. *)
Definition nameAfterConst : Parser := advance constName.

Definition emptyGroup : Parser :=
  source columns token.zero
    [punct token.Const; punct token.OpenParen; punct token.CloseParen].

Definition embeddedPointer : Parser :=
  source columns token.zero [punct token.Star; ident "T"].

(** *** What the resolver leaves *)

(** The names the imports of a file bring in, in the order [fileDecls]
    meets them, each with the package declaration it would be bound to; the
    import met when the store has [pkg] tables gets table [pkg]. *)
Fixpoint specBindings (file i : nat) (pkg : decl.addr)
                      (ims : list decl.ImportSpec) : bindings :=
  match ims with
  | [] => []
  | im :: rest =>
      (decl.importName im, decl.DPackageDecl (decl.mkPackageDecl pkg file i))
      :: specBindings file i (S pkg) rest
  end.

Fixpoint importBindings (file i : nat) (pkg : decl.addr)
                        (ds : list decl.ImportDecl) : bindings :=
  match ds with
  | [] => []
  | d :: rest =>
      specBindings file i pkg (decl.Imports d)
      ++ importBindings file (S i) (pkg + length (decl.Imports d)) rest
  end.

(** One view for every identifier of a [ConstSpec], numbered from [i]. *)
Fixpoint constViews (r : decl.NodeRef) (i : Z) (ids : list Identifier)
  : list decl.constSpecView :=
  match ids with
  | [] => []
  | _ :: rest =>
      decl.mkConstSpecView r i None None decl.unchecked
      :: constViews r (i + 1) rest
  end.

(** A declaration with its scope set to [fsyms], and its views if it is a
    [ConstSpec]. *)
Definition annotated (fsyms : decl.addr) (r : decl.NodeRef) (d : decl.TopLevel)
  : decl.TopLevel :=
  match d with
  | decl.MethodDecl id _ => decl.MethodDecl id (Some fsyms)
  | decl.FunctionDecl id _ => decl.FunctionDecl id (Some fsyms)
  | decl.TypeSpec id _ => decl.TypeSpec id (Some fsyms)
  | decl.ConstSpec ids _ views =>
      decl.ConstSpec ids (Some fsyms) (views ++ constViews r 0 ids)
  | decl.VarSpec ids _ => decl.VarSpec ids (Some fsyms)
  | decl.OtherDecl => decl.OtherDecl
  end.

Fixpoint annotatedFrom (fsyms : decl.addr) (file j : nat)
                       (ds : list decl.TopLevel) : list decl.TopLevel :=
  match ds with
  | [] => []
  | d :: rest =>
      annotated fsyms (decl.mkNodeRef file j) d
      :: annotatedFrom fsyms file (S j) rest
  end.

(** The store with the one table of the universe, and a constant. *)
Definition aConst : decl.Declaration := decl.DPredeclaredConst.

(** What a run of imports into the file scope [syms] leaves. *)
Definition imported (syms : decl.addr) (seen bs : bindings)
    (b b' : decl.Binding) : Prop :=
  holds (decl.tables b') syms (seen ++ bs)
  /\ decl.errs b' = decl.errs b ++ redeclarations seen bs
  /\ length (decl.tables b') = (length (decl.tables b) + length bs)%nat
  /\ extends (decl.tables b) (decl.tables b')
  /\ (forall a, (a < length (decl.tables b))%nat -> a <> syms ->
        decl.tables b' !! a = decl.tables b !! a)
  /\ (forall k, (k < length bs)%nat ->
        decl.tables b' !! (length (decl.tables b) + k)%nat
        = Some (decl.mkSymtab (Some decl.univ) ∅)).

(** What resolution leaves in the files: file number [k] of the result is
    the file [f] given, its scope set and its declarations annotated. *)
Definition resolvedFile (k : nat) (f f' : decl.File) : Prop :=
  decl.fileImports f' = decl.fileImports f
  /\ exists a,
       decl.fileSyms f' = Some a
       /\ decl.fileDeclarations f'
          = annotatedFrom a k 0 (decl.fileDeclarations f).

(** *** First tokens *)

(** The tokens an operand of the expression grammar begins with, and those
    an expression begins with. *)
Definition operandFirst (t : Token) : bool :=
  match t with
  | token.Identifier | token.IntegerLiteral | token.FloatLiteral
  | token.ImaginaryLiteral | token.RuneLiteral | token.StringLiteral
  | token.OpenParen => true
  | _ => false
  end.

Definition expressionFirst (t : Token) : bool := unary t || operandFirst t.

(** The input [f(a)], and the call it is. *)
Definition callOfOne : Parser :=
  source columns token.zero
    [ident "f"; punct token.OpenParen; ident "a"; punct token.CloseParen].

(** The cursor of [callOfOne] after [f]. *)
Definition callOfOneArgs : Parser := advance callOfOne.

(** The input [chan<- a]. *)
Definition sendOnly : Parser :=
  source columns token.zero [punct token.Chan; punct token.LessMinus; ident "a"].

(** The cursor after the names and the type of a const spec: what
    [parseConstSpec] has read when it tests for [=]. *)
Definition afterNamesAndType (sc : Strconv) (fuel : nat) (p : Parser)
  : option Parser :=
  match DeclGrammar.parseIdentifierList fuel [] p with
  | Done _ q1 =>
      if typeFirst (tok q1) then
        match DeclGrammar.parseType sc fuel q1 with
        | Done _ q2 => Some q2
        | _ => None
        end
      else Some q1
  | _ => None
  end.

(** *** Precedence and associativity, for every input

    The syntax tree keeps no parentheses, so what follows is said of inputs
    without any. *)
Definition noParens (p : Parser) : Prop :=
  Forall (fun l => ltok l <> token.OpenParen) (unread p).

(** [e] is no operation. *)
Definition primary (e : Expression) : bool :=
  match e with
  | EBinaryOp _ _ _ _ | EUnaryOp _ _ _ => false
  | _ => true
  end.

Definition notBinary (e : Expression) : bool :=
  match e with
  | EBinaryOp _ _ _ _ => false
  | _ => true
  end.

(** [e] is no binary operation, or one whose operator binds at least as
    tightly as level [min]. *)
Definition bindsAtLeast (min : Z) (e : Expression) : bool :=
  match e with
  | EBinaryOp op _ _ _ =>
      match precedence op with
      | Some pr => min <=? pr
      | None => false
      end
  | _ => true
  end.

Definition optional (f : Expression -> bool) (o : option Expression) : bool :=
  match o with
  | Some e => f e
  | None => true
  end.

(** The tree [e] is the one precedence and left associativity give: below
    a binary operator of level [pr], the left operand binds at least as
    tightly as [pr] and the right operand more tightly; the operand of a
    unary operator is no binary operation; and what is indexed, sliced,
    selected from, asserted or called is no operation at all. *)
Fixpoint climbed (e : Expression) : bool :=
  match e with
  | EBinaryOp op _ l r =>
      match precedence op with
      | Some pr =>
          bindsAtLeast pr l && bindsAtLeast (pr + 1) r && climbed l && climbed r
      | None => false
      end
  | EUnaryOp _ _ x => notBinary x && climbed x
  | EIndex x i _ _ => primary x && climbed x && climbed i
  | ESlice x lo hi mx _ _ =>
      primary x && climbed x && optional climbed lo && optional climbed hi
      && optional climbed mx
  | ETypeAssertion x _ _ _ => primary x && climbed x
  | ESelector x _ _ => primary x && climbed x
  | ECall f args _ _ _ => primary f && climbed f && forallb climbed args
  | _ => true
  end.

(** The token at [q] is no binary operator of level [prec] or above. *)
Definition nextBelow (prec : Z) (q : Parser) : Prop :=
  forall pr, precedence (tok q) = Some pr -> pr < prec.

(** What the functions of the expression grammar return on an input
    without parentheses. *)
Definition Climbs (sc : Strconv) (fuel : nat) : Prop :=
  (forall p e q,
     Grammar.parseExpression sc fuel p = Done e q -> noParens p ->
     climbed e = true)
  /\ (forall prec p e q,
       Grammar.parseBinaryExpr sc fuel prec p = Done e q -> noParens p ->
       climbed e = true /\ bindsAtLeast prec e = true /\ nextBelow prec q)
  /\ (forall prec left p e q,
       Grammar.parseBinaryExprLoop sc fuel prec left p = Done e q ->
       noParens p -> climbed left = true -> bindsAtLeast prec left = true ->
       (forall pr, precedence (tok p) = Some pr -> bindsAtLeast pr left = true) ->
       climbed e = true /\ bindsAtLeast prec e = true /\ nextBelow prec q)
  /\ (forall p e q,
       Grammar.parseUnaryExpr sc fuel p = Done e q -> noParens p ->
       notBinary e = true /\ climbed e = true)
  /\ (forall p e q,
       Grammar.parsePrimaryExpr sc fuel p = Done e q -> noParens p ->
       primary e = true /\ climbed e = true)
  /\ (forall left p e q,
       Grammar.parsePrimaryExprLoop sc fuel left p = Done e q -> noParens p ->
       primary left = true -> climbed left = true ->
       primary e = true /\ climbed e = true)
  /\ (forall left p e q,
       Grammar.parseSliceOrIndex sc fuel left p = Done e q -> noParens p ->
       primary left = true -> climbed left = true ->
       primary e = true /\ climbed e = true)
  /\ (forall left low p e q,
       Grammar.parseSliceHighMax sc fuel left low p = Done e q -> noParens p ->
       primary left = true -> climbed left = true ->
       optional climbed low = true ->
       primary e = true /\ climbed e = true)
  /\ (forall p e q,
       Grammar.parseOperand sc fuel p = Done e q -> noParens p ->
       primary e = true /\ climbed e = true)
  /\ (forall left p e q,
       Grammar.parseSelectorOrTypeAssertion sc fuel left p = Done e q ->
       noParens p -> primary left = true -> climbed left = true ->
       primary e = true /\ climbed e = true).

(** The input [a + b * c]. *)
Definition sumOfProduct : Parser :=
  source columns token.zero
    [ident "a"; punct token.Plus; ident "b"; punct token.Star; ident "c"].

(** *** Span containment, for every expression of the expression grammar

    The tokens of an input are in source order: every token ends no earlier
    than it starts, the next one starts no earlier than it ends, and the end
    of the input comes after all of them. *)
Fixpoint orderedFrom (ls : list Lexeme) (eof : Location) : Prop :=
  match ls with
  | [] => True
  | l :: rest =>
      token.le (lstart l) (lend l)
      /\ token.le (lend l)
           (match rest with
            | [] => eof
            | l' :: _ => lstart l'
            end)
      /\ orderedFrom rest eof
  end.

Definition ordered (p : Parser) : Prop := orderedFrom (unread p) (eofAt p).

(** [child.End() <= node.End()], both calls returning. *)
Definition endsNoLaterThan (child node : option Location) : bool :=
  match child, node with
  | Some a, Some b => token.leb a b
  | _, _ => false
  end.

(** The span of [node] contains the span of [child], which starts no later
    than it ends: [node.Start() <= child.Start() <= child.End() <= node.End()]. *)
Definition contains (node child : Expression) : bool :=
  startsNoLaterThan (exprStart node) (exprStart child)
  && startsNoLaterThan (exprStart child) (exprEnd child)
  && endsNoLaterThan (exprEnd child) (exprEnd node).

(** Every node of [e] contains the expressions that are its children. *)
Fixpoint nested (e : Expression) : bool :=
  match e with
  | EIndex x i _ _ => contains e x && nested x && contains e i && nested i
  | ESlice x lo hi mx _ _ =>
      contains e x && nested x
      && optional (fun c => contains e c && nested c) lo
      && optional (fun c => contains e c && nested c) hi
      && optional (fun c => contains e c && nested c) mx
  | ETypeAssertion x _ _ _ => contains e x && nested x
  | ESelector x _ _ => contains e x && nested x
  | ECall f args _ _ _ =>
      contains e f && nested f
      && forallb (fun c => contains e c && nested c) args
  | EBinaryOp _ _ l r => contains e l && nested l && contains e r && nested r
  | EUnaryOp _ _ x => contains e x && nested x
  | _ => true
  end.

(** [e] starts and ends, in this order, between [lo] and [hi]. *)
Definition spans (lo hi : Location) (e : Expression) : Prop :=
  exists s t,
    exprStart e = Some s /\ exprEnd e = Some t
    /\ token.le lo s /\ token.le s t /\ token.le t hi.

Definition whenSome (P : Expression -> Prop) (o : option Expression) : Prop :=
  match o with
  | Some e => P e
  | None => True
  end.

(** [e] lies between [lo] and [hi] and every node of it contains its
    children. *)
Definition within (lo hi : Location) (e : Expression) : Prop :=
  spans lo hi e /\ nested e = true.

(** What the functions of the expression grammar return on tokens in source
    order: an expression that lies between the first token read and the
    first one left, whose nodes contain their children.  The functions that
    extend [left] keep it where it starts. *)
Definition Spans (sc : Strconv) (fuel : nat) : Prop :=
  (forall p e q,
     Grammar.parseExpression sc fuel p = Done e q -> ordered p ->
     within (lexStart p) (lexStart q) e)
  /\ (forall prec p e q,
       Grammar.parseBinaryExpr sc fuel prec p = Done e q -> ordered p ->
       within (lexStart p) (lexStart q) e)
  /\ (forall prec left p e q lo,
       Grammar.parseBinaryExprLoop sc fuel prec left p = Done e q -> ordered p ->
       within lo (lexStart p) left ->
       within lo (lexStart q) e)
  /\ (forall p e q,
       Grammar.parseUnaryExpr sc fuel p = Done e q -> ordered p ->
       within (lexStart p) (lexStart q) e)
  /\ (forall p e q,
       Grammar.parsePrimaryExpr sc fuel p = Done e q -> ordered p ->
       within (lexStart p) (lexStart q) e)
  /\ (forall left p e q lo,
       Grammar.parsePrimaryExprLoop sc fuel left p = Done e q -> ordered p ->
       within lo (lexStart p) left ->
       within lo (lexStart q) e)
  /\ (forall left p e q lo,
       Grammar.parseSliceOrIndex sc fuel left p = Done e q -> ordered p ->
       within lo (lexStart p) left ->
       within lo (lexStart q) e)
  /\ (forall left low p e q lo m,
       Grammar.parseSliceHighMax sc fuel left low p = Done e q -> ordered p ->
       within lo m left ->
       token.le m (lexStart p) ->
       whenSome (within m (lexStart p)) low ->
       within lo (lexStart q) e)
  /\ (forall left p e q lo,
       Grammar.parseCall sc fuel left p = Done e q -> ordered p ->
       within lo (lexStart p) left ->
       within lo (lexStart q) e)
  /\ (forall exprs p es q lo,
       Grammar.parseExpressionList sc fuel exprs p = Done es q -> ordered p ->
       token.le lo (lexStart p) ->
       Forall (within lo (lexStart p)) exprs ->
       Forall (within lo (lexStart q)) es)
  /\ (forall p e q,
       Grammar.parseOperand sc fuel p = Done e q -> ordered p ->
       within (lexStart p) (lexStart q) e)
  /\ (forall left p e q lo,
       Grammar.parseSelectorOrTypeAssertion sc fuel left p = Done e q ->
       ordered p ->
       within lo (lexStart p) left ->
       within lo (lexStart q) e).

(** The input [-a[i] + b.c], followed by the end of the input. *)
Definition sumOfIndexAndSelector : Parser :=
  source columns (from columns 9)
    [punct token.Minus; ident "a"; punct token.OpenBracket; ident "i";
     punct token.CloseBracket; punct token.Plus; ident "b"; punct token.Dot;
     ident "c"].

(** *** Parameter lists are of one kind

    "Either a series of parameter declarations without identifiers and only
    types, or a series of declarations that all have one or more
    identifiers", says the comment above [parseParameterList]. *)
Definition hasNames (d : ParameterDecl) : bool :=
  match pdIdentifiers d with
  | [] => false
  | _ :: _ => true
  end.

Definition noneNamed (ps : list ParameterDecl) : bool :=
  forallb (fun d => negb (hasNames d)) ps.

Definition allNamed (ps : list ParameterDecl) : bool := forallb hasNames ps.

Definition noneVariadic (ps : list ParameterDecl) : bool :=
  forallb (fun d => negb (pdDotDotDot d)) ps.

(** Only the last declaration may be variadic. *)
Definition variadicLast (ps : list ParameterDecl) : bool :=
  noneVariadic (removelast ps).

Definition oneKind (ps : list ParameterDecl) : bool :=
  noneNamed ps && variadicLast ps || allNamed ps.

(** What the three functions that fill a parameter list return. *)
Definition OneKind (sc : Strconv) (fuel : nat) : Prop :=
  (forall pl idents p r q,
     Grammar.parseParameterListTail sc fuel pl idents p = Done r q ->
     oneKind (plParameters r) = true)
  /\ (forall pl p r q,
       Grammar.parseTypeParameterList sc fuel pl p = Done r q ->
       noneNamed (plParameters pl) = true ->
       noneVariadic (plParameters pl) = true ->
       noneNamed (plParameters r) = true /\ variadicLast (plParameters r) = true)
  /\ (forall pl p r q,
       Grammar.parseDeclParameterList sc fuel pl p = Done r q ->
       allNamed (plParameters pl) = true ->
       allNamed (plParameters r) = true).

(** The input [(a int, b ...int, c int)]. *)
Definition variadicInTheMiddle : Parser :=
  source columns token.zero
    [punct token.OpenParen; ident "a"; ident "int"; punct token.Comma;
     ident "b"; punct token.DotDotDot; ident "int"; punct token.Comma;
     ident "c"; ident "int"; punct token.CloseParen].

(** The declarations of that input: [name] is token [i], its type token [j]. *)
Definition intParameter (i : nat) (name : string) (ddd : bool) (j : nat)
  : ParameterDecl :=
  mkParameterDecl (TTypeName "" "int" (spanAt columns j))
    [mkIdentifier name (spanAt columns i)] ddd.

Definition variadicInTheMiddleDecls : list ParameterDecl :=
  [intParameter 1 "a" false 2; intParameter 4 "b" true 6;
   intParameter 8 "c" false 9].

(** * Properties *)

Section Scenarios.

Context (sc : Strconv) (pos : layout) (eof : Location).

(** Two binary operators in a row: the one that binds tighter ends up
    below the other, and operators of one level fold to the left. *)
Lemma two_operators (op1 op2 : Token) (a b c : string) (k : nat) :
  match precedence op1, precedence op2 with
  | Some p1, Some p2 =>
      Grammar.Parse sc (12 + k)
        (source pos eof [ident a; punct op1; ident b; punct op2; ident c])
      = Returned
          (Some (NExpression
             (if p1 <? p2 then
                EBinaryOp op1 (from pos 1) (identAt pos 0 a)
                  (EBinaryOp op2 (from pos 3) (identAt pos 2 b)
                     (identAt pos 4 c))
              else
                EBinaryOp op2 (from pos 3)
                  (EBinaryOp op1 (from pos 1) (identAt pos 0 a)
                     (identAt pos 2 b))
                  (identAt pos 4 c))))
          None
  | _, _ => True
  end.
Proof.
  destruct op1; cbn [precedence]; try exact I;
    destruct op2; cbn [precedence]; try exact I; vm_compute; reflexivity.
Qed.

(** C2: [parseExpression] applies the fixed precedence table
    left-associatively.  In [a + b * c] the [*] node is the right operand
    of [+]; in [a * b + c] the [+] node is the root; in [a || b && c] the
    [&&] node is below [||]; in [a + b + c] the left operand of the outer
    [+] is itself a [+] node. *)
Theorem C2_precedence_and_associativity (a b c : string) (k : nat) :
  (precedence token.OrOr = Some 1 /\ precedence token.AndAnd = Some 2
   /\ Forall (fun t => precedence t = Some 3)
        [token.EqualEqual; token.BangEqual; token.Less; token.LessEqual;
         token.Greater; token.GreaterEqual]
   /\ Forall (fun t => precedence t = Some 4)
        [token.Plus; token.Minus; token.Or; token.Carrot]
   /\ Forall (fun t => precedence t = Some 5)
        [token.Star; token.Divide; token.Percent; token.LessLess;
         token.GreaterGreater; token.And; token.AndCarrot])
  /\ Grammar.Parse sc (12 + k)
       (source pos eof
          [ident a; punct token.Plus; ident b; punct token.Star; ident c])
     = Returned
         (Some (NExpression
            (EBinaryOp token.Plus (from pos 1) (identAt pos 0 a)
               (EBinaryOp token.Star (from pos 3) (identAt pos 2 b)
                  (identAt pos 4 c)))))
         None
  /\ Grammar.Parse sc (12 + k)
       (source pos eof
          [ident a; punct token.Star; ident b; punct token.Plus; ident c])
     = Returned
         (Some (NExpression
            (EBinaryOp token.Plus (from pos 3)
               (EBinaryOp token.Star (from pos 1) (identAt pos 0 a)
                  (identAt pos 2 b))
               (identAt pos 4 c))))
         None
  /\ Grammar.Parse sc (12 + k)
       (source pos eof
          [ident a; punct token.OrOr; ident b; punct token.AndAnd; ident c])
     = Returned
         (Some (NExpression
            (EBinaryOp token.OrOr (from pos 1) (identAt pos 0 a)
               (EBinaryOp token.AndAnd (from pos 3) (identAt pos 2 b)
                  (identAt pos 4 c)))))
         None
  /\ Grammar.Parse sc (12 + k)
       (source pos eof
          [ident a; punct token.Plus; ident b; punct token.Plus; ident c])
     = Returned
         (Some (NExpression
            (EBinaryOp token.Plus (from pos 3)
               (EBinaryOp token.Plus (from pos 1) (identAt pos 0 a)
                  (identAt pos 2 b))
               (identAt pos 4 c))))
         None.
Proof.
  repeat split; repeat constructor; vm_compute; reflexivity.
Qed.

(** C4: [a[b:c:d]] is a slice with low [b], high [c] and max [d];
    [a[:b:c]] is a slice without a low bound; [a[:b:]] and [a[::b]] are
    syntax errors, an operand being expected where the bound is missing;
    [a[b]] is an index. *)
Theorem C4_slice_or_index (a b c d : string) (k : nat) :
  Grammar.Parse sc (12 + k)
    (source pos eof
       [ident a; punct token.OpenBracket; ident b; punct token.Colon; ident c;
        punct token.Colon; ident d; punct token.CloseBracket])
  = Returned
      (Some (NExpression
         (ESlice (identAt pos 0 a) (Some (identAt pos 2 b))
            (Some (identAt pos 4 c)) (Some (identAt pos 6 d))
            (from pos 1) (from pos 7))))
      None
  /\ Grammar.Parse sc (12 + k)
       (source pos eof
          [ident a; punct token.OpenBracket; punct token.Colon; ident b;
           punct token.Colon; ident c; punct token.CloseBracket])
     = Returned
         (Some (NExpression
            (ESlice (identAt pos 0 a) None (Some (identAt pos 3 b))
               (Some (identAt pos 5 c)) (from pos 1) (from pos 6))))
         None
  /\ Grammar.Parse sc (12 + k)
       (source pos eof
          [ident a; punct token.OpenBracket; punct token.Colon; ident b;
           punct token.Colon; punct token.CloseBracket])
     = Returned None
         (Some (ErrSyntax
            (mkSyntaxError [WStr "operand"] token.CloseBracket ""
               (from pos 5) (upto pos 5))))
  /\ Grammar.Parse sc (12 + k)
       (source pos eof
          [ident a; punct token.OpenBracket; punct token.Colon;
           punct token.Colon; ident b; punct token.CloseBracket])
     = Returned None
         (Some (ErrSyntax
            (mkSyntaxError [WStr "operand"] token.Colon ""
               (from pos 3) (upto pos 3))))
  /\ Grammar.Parse sc (12 + k)
       (source pos eof
          [ident a; punct token.OpenBracket; ident b; punct token.CloseBracket])
     = Returned
         (Some (NExpression
            (EIndex (identAt pos 0 a) (identAt pos 2 b)
               (from pos 1) (upto pos 3))))
         None.
Proof.
  repeat split; vm_compute; reflexivity.
Qed.

(** C8, as the code has it: on [a[5] followed by the end of input [Parse]
    returns no root and one [SyntaxError], met at the end of input, that
    expects a closing bracket or a colon. *)
Theorem C8_unterminated_index (k : nat) :
  Grammar.Parse sc (12 + k) (source pos eof unterminatedIndex)
  = Returned None
      (Some (ErrSyntax
         (mkSyntaxError [WTok token.CloseBracket; WTok token.Colon]
            token.EOF "" eof eof))).
Proof.
  vm_compute; reflexivity.
Qed.

(** C10: [Parse] turns the unwinding into a returned error exactly for a
    [*SyntaxError] and a [*MalformedLiteral]; any other panic leaves [Parse]
    as a panic.  So do the "unimplemented" panics of struct and interface
    types in the expression grammar and of [var] in the declaration grammar,
    and the "bad string literal" and "bad rune literal" panics. *)
Theorem C10_parse_recovers_its_own_errors_only
    (fuel k : nat) (p : Parser) (x : string) (ch1 ch2 : ascii) :
  match Grammar.parseExpression sc fuel p with
  | Done e _ => Grammar.Parse sc fuel p = Returned (Some (NExpression e)) None
  | Panicked (PSyntaxError e) =>
      Grammar.Parse sc fuel p = Returned None (Some (ErrSyntax e))
  | Panicked (PMalformedLiteral e) =>
      Grammar.Parse sc fuel p = Returned None (Some (ErrMalformed e))
  | Panicked v => Grammar.Parse sc fuel p = Repanicked v
  | Exhausted => Grammar.Parse sc fuel p = OutOfFuel
  end
  /\ match DeclGrammar.parseDeclarations sc fuel p with
     | Done ds _ =>
         DeclGrammar.Parse sc fuel p = Returned (Some (NDeclarations ds)) None
     | Panicked (PSyntaxError e) =>
         DeclGrammar.Parse sc fuel p = Returned None (Some (ErrSyntax e))
     | Panicked (PMalformedLiteral e) =>
         DeclGrammar.Parse sc fuel p = Returned None (Some (ErrMalformed e))
     | Panicked v => DeclGrammar.Parse sc fuel p = Repanicked v
     | Exhausted => DeclGrammar.Parse sc fuel p = OutOfFuel
     end
  /\ Grammar.Parse sc (12 + k)
       (source pos eof
          [ident x; punct token.Dot; punct token.OpenParen; punct token.Struct])
     = Repanicked (PString "unimplemented")
  /\ Grammar.Parse sc (12 + k)
       (source pos eof
          [ident x; punct token.Dot; punct token.OpenParen;
           punct token.Interface])
     = Repanicked (PString "unimplemented")
  /\ DeclGrammar.Parse sc (12 + k) (source pos eof [punct token.Var; ident x])
     = Repanicked (PString "unimplemented")
  /\ Grammar.Parse sc (12 + k)
       (source pos eof [(token.StringLiteral, String ch1 "")])
     = Repanicked (PString (String.append "bad string literal: " (String ch1 "")))
  /\ Grammar.Parse sc (12 + k)
       (source pos eof [(token.RuneLiteral, String ch1 (String ch2 ""))])
     = Repanicked
         (PString (String.append "bad rune literal: " (String ch1 (String ch2 "")))).
Proof.
  split; [|split].
  - unfold Grammar.Parse.
    destruct (Grammar.parseExpression sc fuel p) as [e q|[]|]; reflexivity.
  - unfold DeclGrammar.Parse.
    destruct (DeclGrammar.parseDeclarations sc fuel p) as [e q|[]|]; reflexivity.
  - repeat split; vm_compute; reflexivity.
Qed.

End Scenarios.

(** *** Parameter lists *)

Lemma bind_Done {A B} (m : M A) (k : A -> M B) (p : Parser) (b : B) (p'' : Parser) :
  bind m k p = Done b p'' ->
  exists a p', m p = Done a p' /\ k a p' = Done b p''.
Proof.
  unfold bind. destruct (m p); try discriminate. eauto.
Qed.

Lemma peek_Done {A} (f : Parser -> A) (p : Parser) (a : A) (q : Parser) :
  peek f p = Done a q -> a = f p /\ q = p.
Proof.
  unfold peek. intros [= <- <-]. auto.
Qed.

Lemma ret_Done {A} (a b : A) (p q : Parser) :
  ret a p = Done b q -> b = a /\ q = p.
Proof.
  unfold ret. intros [= <- <-]. auto.
Qed.

(** Splits a hypothesis [H] that says a sequence of steps finished. *)
Ltac mstep H :=
  let a := fresh "a" in
  let q := fresh "q" in
  let E := fresh "E" in
  apply bind_Done in H as (a & q & E & H);
  try (apply peek_Done in E as [-> ->]).

Ltac mdone H := apply ret_Done in H as [-> ->].

Section Exclusivity.

Context (sc : Strconv).

Lemma typeNameDecls_bare (ids : list Identifier) :
  forallb bare (typeNameDecls ids) = true.
Proof.
  induction ids; simpl; auto.
Qed.

Lemma forallb_snoc {A} (f : A -> bool) (l : list A) (x : A) :
  forallb f l = true -> f x = true -> forallb f (l ++ [x]) = true.
Proof.
  intros Hl Hx. rewrite forallb_app, Hl; simpl. now rewrite Hx.
Qed.

Lemma named_nonempty (ty : Typ) (ids : list Identifier) (ddd : bool) :
  ids <> [] -> named (mkParameterDecl ty ids ddd) = true.
Proof.
  destruct ids; [congruence | reflexivity].
Qed.

Lemma parseTypeParameterList_bare (fuel : nat) :
  forall pl p pl' p',
    forallb bare (plParameters pl) = true ->
    Grammar.parseTypeParameterList sc fuel pl p = Done pl' p' ->
    forallb bare (plParameters pl') = true.
Proof.
  induction fuel as [|fuel IH]; intros pl p pl' p' Hb H; [discriminate|].
  cbn -[token.eqb] in H.
  destruct (token.eqb (tok p) token.CloseParen); [mdone H; exact Hb|].
  mstep H. mstep H. mstep H.
  destruct (token.eqb _ token.CloseParen); [mdone H; exact Hb|].
  mstep H. mstep H.
  match type of H with
  | context [plParameters pl ++ [?d]] =>
      assert (Hb' : forallb bare (plParameters pl ++ [d]) = true)
        by (apply forallb_snoc; auto)
  end.
  match type of H with
  | context [negb ?ddd] => destruct (negb ddd)
  end.
  - eapply IH; [|exact H]. exact Hb'.
  - mdone H. exact Hb'.
Qed.

Lemma parseDeclIdentifiers_nonempty (fuel : nat) :
  forall ids p ids' p',
    Grammar.parseDeclIdentifiers fuel ids p = Done ids' p' -> ids' <> [].
Proof.
  induction fuel as [|fuel IH]; intros ids p ids' p' H; [discriminate|].
  cbn -[token.eqb] in H.
  mstep H. mstep H.
  destruct (token.eqb _ token.Comma).
  - mstep H. eapply IH; exact H.
  - mdone H. now destruct ids.
Qed.

Lemma parseDeclParameterList_named (fuel : nat) :
  forall pl p pl' p',
    forallb named (plParameters pl) = true ->
    Grammar.parseDeclParameterList sc fuel pl p = Done pl' p' ->
    forallb named (plParameters pl') = true.
Proof.
  induction fuel as [|fuel IH]; intros pl p pl' p' Hb H; [discriminate|].
  cbn -[token.eqb] in H.
  destruct (token.eqb (tok p) token.CloseParen); [mdone H; exact Hb|].
  mstep H. mstep H. mstep H.
  destruct (token.eqb _ token.CloseParen); [mdone H; exact Hb|].
  mstep H. mstep H. mstep H.
  eapply IH; [|exact H]. cbn.
  apply forallb_snoc; [exact Hb|].
  apply named_nonempty. eapply parseDeclIdentifiers_nonempty; eassumption.
Qed.

Lemma parseParameterListTail_exclusive (fuel : nat) :
  forall pl idents p pl' p',
    Grammar.parseParameterListTail sc fuel pl idents p = Done pl' p' ->
    exclusive pl' = true.
Proof.
  induction fuel as [|fuel IH]; intros pl idents p pl' p' H; [discriminate|].
  cbn -[token.eqb typeNameDecls] in H.
  destruct (token.eqb (tok p) token.CloseParen).
  { mstep H. mdone H. unfold exclusive; cbn. now rewrite typeNameDecls_bare. }
  destruct (token.eqb (tok p) token.Identifier).
  { mstep H. mstep H.
    destruct (token.eqb _ token.Comma); [mstep H; eapply IH; exact H|].
    destruct (token.eqb _ token.CloseParen); [eapply IH; exact H|].
    destruct (token.eqb _ token.Dot).
    - do 5 mstep H.
      unfold exclusive.
      erewrite parseTypeParameterList_bare; [reflexivity| |exact H].
      cbn. apply forallb_snoc; [apply typeNameDecls_bare | reflexivity].
    - mstep H. mstep H.
      match type of H with
      | context [mkParameterList [?d] _ _] =>
          assert (Hn : forallb named [d] = true)
            by (cbn; rewrite named_nonempty; [reflexivity | now destruct idents])
      end.
      unfold exclusive.
      match type of H with
      | context [negb ?ddd] => destruct (negb ddd)
      end.
      + rewrite (parseDeclParameterList_named _ (mkParameterList _ _ _) _ _ _ Hn H).
        apply orb_true_r.
      + mdone H. cbn [plParameters]. rewrite Hn. apply orb_true_r. }
  destruct (token.eqb (tok p) token.DotDotDot).
  { mstep H. mstep H. mdone H. unfold exclusive. cbn [plParameters].
    rewrite forallb_snoc; [reflexivity | apply typeNameDecls_bare | reflexivity]. }
  destruct (typeFirst (tok p)); [|discriminate].
  mstep H.
  unfold exclusive.
  erewrite parseTypeParameterList_bare; [reflexivity| |exact H].
  cbn. apply forallb_snoc; [apply typeNameDecls_bare | reflexivity].
Qed.

Lemma parseParameterList_exclusive (fuel : nat) (p : Parser)
    (pl : ParameterList) (p' : Parser) :
  Grammar.parseParameterList sc fuel p = Done pl p' -> exclusive pl = true.
Proof.
  destruct fuel as [|fuel]; [discriminate|].
  intros H. cbn -[token.eqb] in H.
  do 7 mstep H. mdone H.
  match goal with
  | E : Grammar.parseParameterListTail _ _ _ _ _ = Done ?x _ |- _ =>
      apply parseParameterListTail_exclusive in E; destruct x; exact E
  end.
Qed.

(** C5: a parameter list is read either as bare types throughout or as
    identifier-led declarations throughout.  [(a, b int)] is one declaration
    of [a] and [b] with the type [int]; [(a int, b)] is a syntax error, a
    type being expected after [b]. *)
Theorem C5_parameter_list_exclusivity
    (fuel k : nat) (p : Parser) (pos : layout) (eof : Location)
    (x a b int : string) :
  match Grammar.parseParameterList sc fuel p with
  | Done pl _ => exclusive pl = true
  | _ => True
  end
  /\ Grammar.parseParameterList sc (8 + k) (source pos eof (paramsSharedType a b int))
     = Done
         (mkParameterList
            [mkParameterDecl (TTypeName "" int (spanAt pos 4))
               [mkIdentifier a (spanAt pos 1); mkIdentifier b (spanAt pos 3)]
               false]
            (from pos 0) (from pos 5))
         (mkParser [] eof)
  /\ Grammar.parseParameterList sc (8 + k) (source pos eof (paramsMixed a b int))
     = Panicked
         (PSyntaxError
            (mkSyntaxError typeWanted token.CloseParen "" (from pos 5) (upto pos 5)))
  /\ Grammar.Parse sc (16 + k) (source pos eof (assertMixed x a b int))
     = Returned None
         (Some (ErrSyntax
            (mkSyntaxError typeWanted token.CloseParen "" (from pos 9) (upto pos 9)))).
Proof.
  split.
  - destruct (Grammar.parseParameterList sc fuel p) eqn:E; [|exact I|exact I].
    eapply parseParameterList_exclusive; exact E.
  - repeat split; vm_compute; reflexivity.
Qed.

End Exclusivity.

(** C8, as the spec words it, fails: the error of [a[5] does not expect the
    closing bracket alone. *)
Lemma C8_expects_more_than_close_bracket :
  ~ (forall sc : Strconv,
       exists e : SyntaxError,
         Grammar.Parse sc 12 (source columns (token.mkLocation 1 4) unterminatedIndex)
         = Returned None (Some (ErrSyntax e))
         /\ Wanted e = [WTok token.CloseBracket]).
Proof.
  intros H.
  destruct (H noStrconv) as (e & Hp & Hw).
  vm_compute in Hp.
  injection Hp as <-.
  discriminate Hw.
Qed.

(** *** Literals *)

Section Literals.

Context (sc : Strconv) (pos : layout) (eof : Location).

Lemma substring_prefix (body rest : string) :
  String.substring 0 (String.length body) (String.append body rest) = body.
Proof.
  induction body as [|ch body IH]; simpl.
  - now destruct rest.
  - now rewrite IH.
Qed.

Lemma length_append (a b : string) :
  String.length (String.append a b) = (String.length a + String.length b)%nat.
Proof.
  induction a; simpl; auto.
Qed.

Lemma rawString_body (body : string) :
  big.slice (rawString body) 1 (big.len (rawString body) - 1) = body.
Proof.
  unfold big.slice, big.len, rawString.
  cbn [String.length]. rewrite length_append. cbn [String.length].
  replace (Z.to_nat (Z.of_nat (S (String.length body + 1)) - 1 - 1))
    with (String.length body) by lia.
  change (Z.to_nat 1) with 1%nat. cbn [String.substring].
  apply substring_prefix.
Qed.

Lemma rawString_long (body : string) : (big.len (rawString body) <? 2) = false.
Proof.
  unfold big.len, rawString. cbn [String.length]. rewrite length_append.
  cbn [String.length]. apply Z.ltb_ge. lia.
Qed.

Lemma parseStringLiteral_raw (body : string) (s e : Location)
    (c : list string) (rest : list Lexeme) :
  parseStringLiteral sc
    (mkParser (mkLexeme token.StringLiteral (rawString body) s e c :: rest) eof)
  = Done (mkStringLiteral (strings.dropCR body) (mkSpan s e)) (mkParser rest eof).
Proof.
  unfold parseStringLiteral, bind, peek at 1.
  cbn [text lex unread ltext].
  rewrite rawString_long.
  unfold peek, pspan, ret, next, advance, bind. cbn [lex unread lstart lend eofAt tail].
  rewrite rawString_body. reflexivity.
Qed.

Lemma dropCR_filter (s : string) :
  list_ascii_of_string (strings.dropCR s)
  = List.filter (fun ch => negb (Ascii.eqb ch carriageReturn)) (list_ascii_of_string s).
Proof.
  induction s as [|ch s IH]; [reflexivity|].
  cbn [strings.dropCR list_ascii_of_string List.filter].
  change "013"%char with carriageReturn.
  destruct (Ascii.eqb ch carriageReturn); cbn [negb list_ascii_of_string]; now rewrite IH.
Qed.

Lemma digitValue_hexValue (ch : ascii) (d : Z) :
  digitValue ch = Some d -> big.hexValue ch = d /\ 0 <= d < 16.
Proof.
  destruct ch as [[] [] [] [] [] [] [] []]; intros H; vm_compute in H;
    try discriminate; injection H as <-; (split; [vm_compute; reflexivity | lia]).
Qed.

Lemma scanDigits_digitsValue (b : Z) (s : string) :
  forall acc n v,
    digitsValue b acc s = Some v ->
    big.scanDigits b s acc n = (v, (n + String.length s)%nat, EmptyString).
Proof.
  induction s as [|ch s IH]; intros acc n v H; cbn in H |- *.
  - injection H as <-. now rewrite Nat.add_0_r.
  - destruct (digitValue ch) as [d|] eqn:Hd; [|discriminate].
    destruct (digitValue_hexValue _ _ Hd) as [-> _].
    destruct (d <? b); [|discriminate].
    rewrite (IH _ (S n) _ H). f_equal. f_equal. lia.
Qed.

Lemma IntSetString_literal (txt : string) (v : Z) :
  integerLiteralValue txt = Some v -> big.IntSetString txt 0 = Some v.
Proof.
  destruct txt as [|ch r]; [discriminate|]. unfold integerLiteralValue.
  destruct (Ascii.eqb_spec ch "0") as [->|Hz].
  - destruct r as [|x r'].
    + intros [= <-]. reflexivity.
    + unfold big.IntSetString, big.natScan, big.isOneOf. cbn [Ascii.eqb Bool.eqb andb Z.eqb].
      destruct (Ascii.eqb x "x" || Ascii.eqb x "X") eqn:Hx.
      * destruct r' as [|y r'']; [discriminate|]. intros H.
        rewrite (scanDigits_digitsValue _ _ _ 0%nat _ H). reflexivity.
      * intros H.
        assert (Hb : Ascii.eqb x "b" || Ascii.eqb x "B" = false).
        { cbn in H. destruct (digitValue x) as [d|] eqn:Hd; [|discriminate].
          destruct (d <? 8) eqn:Hlt; [|discriminate].
          destruct (Ascii.eqb_spec x "b") as [->|]; [cbn in Hd; injection Hd as <-; discriminate|].
          destruct (Ascii.eqb_spec x "B") as [->|]; [cbn in Hd; injection Hd as <-; discriminate|].
          reflexivity. }
        rewrite Hb. rewrite (scanDigits_digitsValue _ _ _ 0%nat _ H).
        rewrite orb_true_r. reflexivity.
  - destruct (digitValue ch) as [d|] eqn:Hd; [|discriminate].
    destruct (d <? 10) eqn:Hlt; [|discriminate]. intros H.
    unfold big.IntSetString, big.natScan.
    assert (Hm : Ascii.eqb ch "-" = false)
      by (destruct (Ascii.eqb_spec ch "-") as [->|]; [discriminate | reflexivity]).
    assert (Hp : Ascii.eqb ch "+" = false)
      by (destruct (Ascii.eqb_spec ch "+") as [->|]; [discriminate | reflexivity]).
    rewrite Hm, Hp.
    assert (Hz' : Ascii.eqb ch "0" = false)
      by (destruct (Ascii.eqb_spec ch "0"); [contradiction | reflexivity]).
    rewrite Hz'. cbn [Z.eqb andb].
    rewrite (scanDigits_digitsValue _ _ _ 0%nat _ H). reflexivity.
Qed.

Lemma parseIntegerLiteral_value (txt : string) (v : Z) (s e : Location)
    (c : list string) (rest : list Lexeme) :
  integerLiteralValue txt = Some v ->
  parseIntegerLiteral
    (mkParser (mkLexeme token.IntegerLiteral txt s e c :: rest) eof)
  = Done (EIntegerLiteral v (mkSpan s e)) (mkParser rest eof).
Proof.
  intros H. unfold parseIntegerLiteral, bind, peek. cbn [text lex unread ltext].
  rewrite (IntSetString_literal _ _ H). reflexivity.
Qed.

(** *** Decimals *)

Lemma string_append_cons (c : ascii) (a b : string) :
  String.append (String c a) b = String c (String.append a b).
Proof. reflexivity. Qed.

Lemma string_append_nil_r (a : string) : String.append a "" = a.
Proof. induction a as [|c a IH]; [reflexivity|]. now rewrite string_append_cons, IH. Qed.

Lemma string_append_assoc (a b c : string) :
  String.append (String.append a b) c = String.append a (String.append b c).
Proof.
  induction a as [|x a IH]; [reflexivity|]. now rewrite !string_append_cons, IH.
Qed.

Lemma len_append (a b : string) :
  big.len (String.append a b) = big.len a + big.len b.
Proof.
  unfold big.len. induction a as [|c a IH]; [reflexivity|].
  rewrite string_append_cons. cbn [String.length]. lia.
Qed.

Lemma len_cons (c : ascii) (a : string) : big.len (String c a) = 1 + big.len a.
Proof. unfold big.len. cbn [String.length]. lia. Qed.

Lemma len_nonneg (a : string) : 0 <= big.len a.
Proof. unfold big.len. lia. Qed.

Lemma substring_all (b : string) : String.substring 0 (String.length b) b = b.
Proof. induction b as [|c b IH]; [reflexivity|]. cbn. now rewrite IH. Qed.

Lemma substring_skip (a b : string) (n : nat) :
  String.substring (String.length a) n (String.append a b)
  = String.substring 0 n b.
Proof.
  induction a as [|c a IH]; [reflexivity|].
  rewrite string_append_cons. cbn [String.length String.substring]. exact IH.
Qed.

Lemma substring_take (a b : string) :
  String.substring 0 (String.length a) (String.append a b) = a.
Proof.
  induction a as [|c a IH].
  - destruct b; reflexivity.
  - rewrite string_append_cons. cbn [String.length String.substring].
    now rewrite IH.
Qed.

Lemma slice_take (a b : string) :
  big.slice (String.append a b) 0 (big.len a) = a.
Proof.
  unfold big.slice, big.len. rewrite Z.sub_0_r, Nat2Z.id.
  change (Z.to_nat 0) with 0%nat. apply substring_take.
Qed.

Lemma slice_drop (a b : string) (lo hi : Z) :
  lo = big.len a -> hi = big.len a + big.len b ->
  big.slice (String.append a b) lo hi = b.
Proof.
  intros -> ->. unfold big.slice, big.len.
  replace (Z.of_nat (String.length a) + Z.of_nat (String.length b)
           - Z.of_nat (String.length a)) with (Z.of_nat (String.length b)) by lia.
  rewrite !Nat2Z.id, substring_skip. apply substring_all.
Qed.

(** *** [strings.IndexAny] *)

Lemma indexAny_range (s : string) (cs : list ascii) : -1 <= big.indexAny s cs.
Proof.
  induction s as [|c s IH]; cbn [big.indexAny]; [lia|].
  destruct (existsb _ cs); [lia|].
  destruct (big.indexAny s cs <? 0) eqn:L; [lia|]. apply Z.ltb_ge in L. lia.
Qed.

Lemma indexAny_app (a b : string) (cs : list ascii) :
  big.indexAny (String.append a b) cs
  = if 0 <=? big.indexAny a cs then big.indexAny a cs
    else if big.indexAny b cs <? 0 then -1
         else big.len a + big.indexAny b cs.
Proof.
  induction a as [|c a IH].
  - change (String.append "" b) with b. cbn [big.indexAny].
    change (0 <=? -1) with false. cbv iota.
    destruct (big.indexAny b cs <? 0) eqn:L; [|reflexivity].
    apply Z.ltb_lt in L. pose proof (indexAny_range b cs). lia.
  - rewrite string_append_cons, len_cons. cbn [big.indexAny].
    destruct (existsb _ cs); [reflexivity|]. rewrite IH.
    pose proof (indexAny_range a cs) as Ra.
    destruct (big.indexAny a cs <? 0) eqn:La.
    + apply Z.ltb_lt in La.
      replace (0 <=? big.indexAny a cs) with false by (symmetry; apply Z.leb_gt; lia).
      change (0 <=? -1) with false. cbv iota.
      destruct (big.indexAny b cs <? 0) eqn:Lb; [reflexivity|].
      apply Z.ltb_ge in Lb.
      replace (big.len a + big.indexAny b cs <? 0) with false
        by (symmetry; apply Z.ltb_ge; pose proof (len_nonneg a); lia).
      lia.
    + apply Z.ltb_ge in La.
      replace (0 <=? big.indexAny a cs) with true by (symmetry; apply Z.leb_le; lia).
      replace (big.indexAny a cs <? 0) with false by (symmetry; apply Z.ltb_ge; lia).
      replace (0 <=? big.indexAny a cs + 1) with true by (symmetry; apply Z.leb_le; lia).
      reflexivity.
Qed.


Lemma noDigit_marks : noDigit ["/"%char] /\ noDigit ["."%char] /\ noDigit ["e"%char; "E"%char].
Proof.
  unfold noDigit.
  repeat split; intros ch d H L;
    destruct ch as [[] [] [] [] [] [] [] []]; vm_compute in H;
      try discriminate H; try reflexivity; injection H as <-; lia.
Qed.

Lemma indexAny_digits (cs : list ascii) (s : string) :
  noDigit cs ->
  forall acc v, digitsValue 10 acc s = Some v -> big.indexAny s cs = -1.
Proof.
  intros N. induction s as [|c s IH]; intros acc v H; [reflexivity|].
  cbn [digitsValue] in H. destruct (digitValue c) as [d|] eqn:D; [|discriminate].
  destruct (d <? 10) eqn:L; [|discriminate]. apply Z.ltb_lt in L.
  cbn [big.indexAny]. rewrite (N c d D L), (IH _ _ H). reflexivity.
Qed.

(** *** Decimal digits *)

Lemma digitsValue_shift (s : string) :
  forall acc acc' v,
    digitsValue 10 acc s = Some v ->
    digitsValue 10 acc' s
    = Some (v + (acc' - acc) * 10 ^ Z.of_nat (String.length s)).
Proof.
  induction s as [|c s IH]; intros acc acc' v H.
  - injection H as <-. cbn. f_equal. lia.
  - cbn [digitsValue] in H |- *.
    destruct (digitValue c) as [d|]; [|discriminate].
    destruct (d <? 10); [|discriminate].
    rewrite (IH _ (acc' * 10 + d) _ H). f_equal.
    cbn [String.length]. rewrite Nat2Z.inj_succ, Z.pow_succ_r by lia. ring.
Qed.

Lemma digitsValue_app (a b : string) (f : Z) :
  digitsValue 10 0 b = Some f ->
  forall acc i,
    digitsValue 10 acc a = Some i ->
    digitsValue 10 acc (String.append a b)
    = Some (i * 10 ^ Z.of_nat (String.length b) + f).
Proof.
  intros F. induction a as [|c a IH]; intros acc i H.
  - injection H as <-. change (String.append "" b) with b.
    rewrite (digitsValue_shift _ _ acc _ F). f_equal. ring.
  - rewrite string_append_cons. cbn [digitsValue] in H |- *.
    destruct (digitValue c) as [d|]; [|discriminate].
    destruct (d <? 10); [|discriminate]. exact (IH _ _ H).
Qed.

Lemma natScan_decimal (s : string) (v : Z) :
  s <> "" -> digitsValue 10 0 s = Some v -> big.natScan s 10 = Some (v, "").
Proof.
  intros N H. destruct s as [|ch r]; [contradiction|].
  unfold big.natScan. cbn [Z.eqb andb].
  rewrite (scanDigits_digitsValue _ _ _ 0%nat _ H). reflexivity.
Qed.

Lemma decimal_no_sign (ch : ascii) (r : string) (acc v : Z) :
  digitsValue 10 acc (String ch r) = Some v ->
  Ascii.eqb ch "-" = false /\ Ascii.eqb ch "+" = false.
Proof.
  cbn [digitsValue]. destruct (digitValue ch) as [d|] eqn:D; [|discriminate].
  intros _. destruct ch as [[] [] [] [] [] [] [] []]; vm_compute in D;
    try discriminate D; split; reflexivity.
Qed.

Lemma IntSetString_decimal (s : string) (v : Z) :
  s <> "" -> digitsValue 10 0 s = Some v -> big.IntSetString s 10 = Some v.
Proof.
  intros N H. pose proof (natScan_decimal s v N H) as S.
  destruct s as [|ch r]; [contradiction|].
  destruct (decimal_no_sign _ _ _ _ H) as [M P].
  unfold big.IntSetString. rewrite M, P, S. reflexivity.
Qed.

Lemma IntSetString_exponent (e : ExponentPart) (x : Z) :
  exponentValue (Some e) = Some x ->
  big.IntSetString (String.append (signText (expSign e)) (expDigits e)) 10
  = Some x.
Proof.
  unfold exponentValue. destruct (expDigits e) as [|c ds] eqn:D; [discriminate|].
  destruct (digitsValue 10 0 (String c ds)) as [v|] eqn:V; [|discriminate].
  intros [= <-].
  assert (N : String c ds <> "") by discriminate.
  destruct (expSign e); cbn [signText].
  - change (String.append "" (String c ds)) with (String c ds).
    now apply IntSetString_decimal.
  - change (String.append "+" (String c ds)) with (String "+" (String c ds)).
    unfold big.IntSetString. cbn [Ascii.eqb Bool.eqb].
    rewrite (natScan_decimal _ _ N V). reflexivity.
  - change (String.append "-" (String c ds)) with (String "-" (String c ds)).
    unfold big.IntSetString. cbn [Ascii.eqb Bool.eqb].
    rewrite (natScan_decimal _ _ N V). reflexivity.
Qed.

Lemma inject_pow10 (n : Z) : 0 <= n -> (inject_Z (10 ^ n) == Qpower (inject_Z 10) n)%Q.
Proof. intros H. now apply Zpower_Qpower. Qed.

Lemma inject_Z_nonzero (a : Z) : a <> 0 -> ~ (inject_Z a == 0)%Q.
Proof.
  intros N X. unfold Qeq in X. cbn [Qnum Qden inject_Z] in X.
  rewrite Z.mul_1_r in X. exact (N X).
Qed.

Lemma pow10_nonzero (n : Z) : 0 <= n -> 10 ^ n <> 0.
Proof.
  intros N X. pose proof (Z.pow_pos_nonneg 10 n ltac:(lia) N) as P.
  rewrite X in P. exact (Z.lt_irrefl _ P).
Qed.

(** The fraction that [Rat.SetString] builds is the value of the literal. *)
Lemma scaled_value (i f n e : Z) :
  0 <= n ->
  ((if e - n <? 0
    then Qred ((i * 10 ^ n + f) # Z.to_pos (10 ^ Z.abs (e - n)))
    else Qred (((i * 10 ^ n + f) * 10 ^ Z.abs (e - n)) # 1))
   = Qred ((inject_Z i + inject_Z f / inject_Z (10 ^ n))
           * Qpower (inject_Z 10) e))%Q.
Proof.
  intros N.
  pose proof (inject_Z_nonzero _ (pow10_nonzero n N)) as T.
  assert (Ten : ~ (inject_Z 10 == 0)%Q) by (intros X; discriminate X).
  assert (E : (Qpower (inject_Z 10) e
               == Qpower (inject_Z 10) (e - n) * inject_Z (10 ^ n))%Q).
  { rewrite inject_pow10 by exact N. rewrite <- Qpower_plus by exact Ten.
    now replace (e - n + n) with e by lia. }
  destruct (e - n <? 0) eqn:L; apply Qred_complete; rewrite E.
  - apply Z.ltb_lt in L.
    rewrite Z.abs_neq by lia.
    assert (M : 0 <= - (e - n)) by lia.
    pose proof (Z.pow_pos_nonneg 10 _ ltac:(lia) M) as P.
    rewrite Qmake_Qdiv, Z2Pos.id by exact P.
    rewrite <- (Z.opp_involutive (e - n)) at 2.
    rewrite Qpower_opp. rewrite <- (inject_pow10 (- (e - n))) by exact M.
    rewrite inject_Z_plus, inject_Z_mult.
    pose proof (inject_Z_nonzero _ (pow10_nonzero _ M)).
    field. split; assumption.
  - apply Z.ltb_ge in L. rewrite Z.abs_eq by lia.
    rewrite <- inject_pow10 by lia.
    rewrite Qmake_Qdiv. change (inject_Z (Z.pos 1)) with 1%Q.
    rewrite !inject_Z_mult, inject_Z_plus, inject_Z_mult.
    field. assumption.
Qed.

Lemma slice_after (a : string) (c : ascii) (b : string) (lo hi : Z) :
  lo = big.len a + 1 -> hi = big.len (String.append a (String c b)) ->
  big.slice (String.append a (String c b)) lo hi = b.
Proof.
  intros -> ->.
  replace (String.append a (String c b))
    with (String.append (String.append a (String c "")) b)
    by (now rewrite string_append_assoc).
  apply slice_drop; rewrite ?len_append, ?len_cons; unfold big.len; cbn; lia.
Qed.

(** Where [Rat.SetString] finds the marks of a decimal. *)
Lemma exponentText_marks (x : option ExponentPart) (e : Z) :
  exponentValue x = Some e ->
  big.indexAny (exponentText x) ["/"%char] = -1
  /\ big.indexAny (exponentText x) ["."%char] = -1
  /\ big.indexAny (exponentText x) ["e"%char; "E"%char]
     = match x with
       | Some _ => 0
       | None => -1
       end.
Proof.
  destruct noDigit_marks as (N1 & N2 & N3).
  destruct x as [[up sg ds]|]; [|intros _; repeat split; reflexivity].
  unfold exponentValue. cbn [expDigits expSign exponentText upperE].
  destruct ds as [|c ds]; [discriminate|].
  destruct (digitsValue 10 0 (String c ds)) as [v|] eqn:V; [|discriminate].
  intros _.
  pose proof (indexAny_digits _ _ N1 _ _ V) as D1.
  pose proof (indexAny_digits _ _ N2 _ _ V) as D2.
  repeat split.
  - cbn [big.indexAny]. rewrite indexAny_app, D1.
    destruct up, sg; reflexivity.
  - cbn [big.indexAny]. rewrite indexAny_app, D2.
    destruct up, sg; reflexivity.
  - destruct up; reflexivity.
Qed.

Lemma mantissaText_marks (d : Decimal) (i f : Z) :
  digitsValue 10 0 (integerPart d) = Some i ->
  digitsValue 10 0 (fractionDigits d) = Some f ->
  big.indexAny (mantissaText d) ["/"%char] = -1
  /\ big.indexAny (mantissaText d) ["."%char]
     = match fraction d with
       | Some _ => big.len (integerPart d)
       | None => -1
       end
  /\ big.indexAny (mantissaText d) ["e"%char; "E"%char] = -1.
Proof.
  destruct noDigit_marks as (N1 & N2 & N3).
  destruct d as [ip fr ex]. unfold mantissaText, fractionDigits.
  cbn [integerPart fraction]. intros I F.
  rewrite !indexAny_app.
  rewrite (indexAny_digits _ _ N1 _ _ I), (indexAny_digits _ _ N2 _ _ I),
    (indexAny_digits _ _ N3 _ _ I).
  destruct fr as [fd|].
  - cbn [big.indexAny].
    rewrite (indexAny_digits _ _ N1 _ _ F), (indexAny_digits _ _ N3 _ _ F).
    cbn. repeat split; try reflexivity. lia.
  - repeat split; reflexivity.
Qed.

Lemma leb_len (a : string) : (0 <=? big.len a) = true.
Proof. apply Z.leb_le, len_nonneg. Qed.

(** [Rat.SetString] decodes a decimal to its value, in lowest terms. *)
Lemma RatSetString_decimal (d : Decimal) (v : Q) :
  decimalValue d = Some v -> big.RatSetString (decimalText d) = Some (Qred v).
Proof.
  unfold decimalValue.
  destruct (String.append (integerPart d) (fractionDigits d)) as [|c0 r0] eqn:NE;
    [discriminate|].
  destruct (digitsValue 10 0 (integerPart d)) as [i|] eqn:I; [|discriminate].
  destruct (digitsValue 10 0 (fractionDigits d)) as [f|] eqn:F; [|discriminate].
  destruct (exponentValue (exponent d)) as [e|] eqn:E; [|discriminate].
  intros [= <-].
  destruct (mantissaText_marks d i f I F) as (M1 & M2 & M3).
  destruct (exponentText_marks _ _ E) as (X1 & X2 & X3).
  pose proof (digitsValue_app _ _ f F 0 i I) as A. rewrite NE in A.
  assert (NE' : String c0 r0 <> "") by discriminate.
  pose proof (IntSetString_decimal _ _ NE' A) as S. rewrite <- NE in S.
  assert (Lm : 1 <= big.len (mantissaText d)).
  { assert (L : big.len (String.append (integerPart d) (fractionDigits d)) = 1 + big.len r0)
      by (rewrite NE; apply len_cons).
    rewrite len_append in L. unfold mantissaText, fractionDigits in *.
    rewrite len_append. pose proof (len_nonneg r0).
    destruct (fraction d); rewrite ?len_cons; unfold big.len in *; cbn in *; lia. }
  assert (T1 : big.indexAny (decimalText d) ["/"%char] = -1).
  { unfold decimalText. rewrite indexAny_app, M1, X1. reflexivity. }
  assert (T2 : big.indexAny (decimalText d) ["."%char]
               = match fraction d with
                 | Some _ => big.len (integerPart d)
                 | None => -1
                 end).
  { unfold decimalText. rewrite indexAny_app, M2, X2.
    destruct (fraction d); [now rewrite leb_len | reflexivity]. }
  assert (T3 : big.indexAny (decimalText d) ["e"%char; "E"%char]
               = match exponent d with
                 | Some _ => big.len (mantissaText d)
                 | None => -1
                 end).
  { unfold decimalText. rewrite indexAny_app, M3, X3.
    destruct (exponent d); [cbn; lia | reflexivity]. }
  assert (L0 : (big.len (decimalText d) =? 0) = false).
  { apply Z.eqb_neq. unfold decimalText. rewrite len_append.
    pose proof (len_nonneg (exponentText (exponent d))). lia. }
  (* the exponent, and the text before it *)
  assert (Sc : (if 0 <=? big.indexAny (decimalText d) ["e"%char; "E"%char]
                then
                  if big.indexAny (decimalText d) ["e"%char; "E"%char]
                     <? big.indexAny (decimalText d) ["."%char]
                  then None
                  else
                    match big.IntSetString
                            (big.slice (decimalText d)
                               (big.indexAny (decimalText d) ["e"%char; "E"%char] + 1)
                               (big.len (decimalText d))) 10 with
                    | Some x =>
                        Some (x, big.slice (decimalText d) 0
                                   (big.indexAny (decimalText d) ["e"%char; "E"%char]))
                    | None => None
                    end
                else Some (0, decimalText d))
               = Some (e, mantissaText d)).
  { rewrite T3, T2. destruct (exponent d) as [x|] eqn:X.
    - rewrite leb_len.
      replace (big.len (mantissaText d)
               <? match fraction d with
                  | Some _ => big.len (integerPart d)
                  | None => -1
                  end) with false.
      2:{ symmetry. apply Z.ltb_ge. destruct (fraction d) eqn:Fr; [|lia].
          unfold mantissaText. rewrite Fr, len_append, len_cons.
          pose proof (len_nonneg s). lia. }
      unfold decimalText. rewrite X. cbn [exponentText].
      rewrite slice_after by reflexivity.
      rewrite (IntSetString_exponent _ _ E).
      now rewrite slice_take.
    - unfold decimalText. rewrite X. cbn [exponentText].
      rewrite string_append_nil_r. cbn in E. injection E as <-. reflexivity. }
  unfold big.RatSetString. rewrite L0. cbv zeta. rewrite T1.
  change (0 <=? -1) with false. cbv iota.
  rewrite Sc. cbv iota beta. rewrite T2.
  destruct (fraction d) as [fd|] eqn:Fr.
  - rewrite leb_len. unfold mantissaText. rewrite Fr.
    rewrite slice_take, slice_after by reflexivity.
    unfold fractionDigits in *. rewrite Fr in *. rewrite S.
    rewrite !len_append.
    replace (e - (big.len (integerPart d) + big.len fd - big.len (integerPart d)))
      with (e - big.len fd) by lia.
    unfold big.len.
    rewrite <- (scaled_value i f (Z.of_nat (String.length fd)) e) by lia.
    now destruct (e - Z.of_nat (String.length fd) <? 0).
  - change (0 <=? -1) with false. cbv iota.
    unfold mantissaText. rewrite Fr. rewrite string_append_nil_r.
    unfold fractionDigits in *. rewrite Fr in *.
    rewrite string_append_nil_r in S. rewrite S.
    cbn [String.length Z.of_nat].
    pose proof (scaled_value i f 0 e ltac:(lia)) as V.
    rewrite Z.sub_0_r in V. change (Z.of_nat 0) with 0. rewrite <- V.
    now destruct (e <? 0).
Qed.

Lemma parseFloatLiteral_value (d : Decimal) (v : Q) (s e : Location)
    (c : list string) (rest : list Lexeme) :
  decimalValue d = Some v ->
  parseFloatLiteral
    (mkParser (mkLexeme token.FloatLiteral (decimalText d) s e c :: rest) eof)
  = Done (EFloatLiteral (Qred v) (mkSpan s e)) (mkParser rest eof).
Proof.
  intros H. unfold parseFloatLiteral, bind, peek. cbn [text lex unread ltext].
  rewrite (RatSetString_decimal _ _ H). reflexivity.
Qed.

Lemma lastByte_i (a : string) : lastByte (String.append a "i") = Some "i"%char.
Proof.
  unfold lastByte. induction a as [|x a IH]; [reflexivity|].
  rewrite string_append_cons. cbn [String.length].
  rewrite Nat.sub_1_r in *. cbn [Nat.pred].
  destruct (String.append a "i") as [|y r] eqn:A.
  - destruct a; discriminate A.
  - cbn [String.length Nat.pred String.get] in *. exact IH.
Qed.

Lemma parseImaginaryLiteral_value (d : Decimal) (v : Q) (s e : Location)
    (c : list string) (rest : list Lexeme) :
  decimalValue d = Some v ->
  parseImaginaryLiteral
    (mkParser (mkLexeme token.ImaginaryLiteral (imaginaryText d) s e c :: rest) eof)
  = Done (EImaginaryLiteral (Qred v) (mkSpan s e)) (mkParser rest eof).
Proof.
  intros H. unfold parseImaginaryLiteral, bind, peek at 1.
  cbn [text lex unread ltext]. unfold imaginaryText.
  rewrite lastByte_i. rewrite bool_decide_eq_true_2 by reflexivity.
  replace (big.len (String.append (decimalText d) "i") <? 1) with false.
  2:{ symmetry. apply Z.ltb_ge. rewrite len_append.
      pose proof (len_nonneg (decimalText d)). change (big.len "i") with 1. lia. }
  cbn [negb orb].
  replace (big.len (String.append (decimalText d) "i") - 1)
    with (big.len (decimalText d))
    by (rewrite len_append; change (big.len "i") with 1; lia).
  rewrite slice_take. unfold peek, bind.
  rewrite (RatSetString_decimal _ _ H). reflexivity.
Qed.

Lemma parseRuneLiteral_value (txt : string) (r : Z) (s e : Location)
    (c : list string) (rest : list Lexeme) :
  (big.len txt <? 3) = false ->
  UnquoteChar sc (big.slice txt 1 (big.len txt)) "'"%char = Some r ->
  parseRuneLiteral sc
    (mkParser (mkLexeme token.RuneLiteral txt s e c :: rest) eof)
  = Done (ERuneLiteral r (mkSpan s e)) (mkParser rest eof).
Proof.
  intros L U. unfold parseRuneLiteral, bind, peek at 1.
  cbn [text lex unread ltext]. rewrite L, U. reflexivity.
Qed.

Lemma parseStringLiteral_interpreted (txt v : string) (s e : Location)
    (c : list string) (rest : list Lexeme) :
  (big.len txt <? 2) = false ->
  String.get 0 txt <> Some "`"%char ->
  Unquote sc txt = Some v ->
  parseStringLiteral sc
    (mkParser (mkLexeme token.StringLiteral txt s e c :: rest) eof)
  = Done (mkStringLiteral v (mkSpan s e)) (mkParser rest eof).
Proof.
  intros L B U. unfold parseStringLiteral, bind, peek at 1.
  cbn [text lex unread ltext]. rewrite L.
  unfold peek at 1. rewrite bool_decide_eq_false_2 by exact B.
  rewrite U. reflexivity.
Qed.

(** C7: the value kept in a literal node is the value its text denotes.
    Every integer literal, decimal, octal or hexadecimal, decodes to the
    integer it denotes, [010] to 8.  Every float literal decodes to the
    rational it denotes in lowest terms, [1e-1] to 1/10, and every imaginary
    literal to the rational before its [i], read in decimal even behind a
    leading zero.  A raw string literal decodes to the text between its back
    quotes without its carriage returns.  A rune literal and an interpreted
    string literal keep what [strconv.UnquoteChar] and [strconv.Unquote]
    decode from their text. *)
Theorem C7_literal_decoding (body txt rtxt stxt : string) (d : Decimal)
    (k : nat) :
  Grammar.Parse sc (6 + k) (source pos eof [(token.IntegerLiteral, "010")])
  = Returned (Some (NExpression (EIntegerLiteral 8 (spanAt pos 0)))) None
  /\ Grammar.Parse sc (6 + k) (source pos eof [(token.FloatLiteral, "1e-1")])
     = Returned (Some (NExpression (EFloatLiteral (1 # 10) (spanAt pos 0)))) None
  /\ Grammar.Parse sc (6 + k)
       (source pos eof [(token.StringLiteral, rawString body)])
     = Returned
         (Some (NExpression
            (EStringLiteral
               (mkStringLiteral (strings.dropCR body) (spanAt pos 0)))))
         None
  /\ list_ascii_of_string (strings.dropCR body)
     = List.filter (fun ch => negb (Ascii.eqb ch carriageReturn))
         (list_ascii_of_string body)
  /\ match integerLiteralValue txt with
     | Some v =>
         Grammar.Parse sc (6 + k) (source pos eof [(token.IntegerLiteral, txt)])
         = Returned (Some (NExpression (EIntegerLiteral v (spanAt pos 0)))) None
     | None => True
     end
  /\ match floatLiteralValue d with
     | Some v =>
         Grammar.Parse sc (6 + k)
           (source pos eof [(token.FloatLiteral, decimalText d)])
         = Returned
             (Some (NExpression (EFloatLiteral (Qred v) (spanAt pos 0)))) None
     | None => True
     end
  /\ match imaginaryLiteralValue d with
     | Some v =>
         Grammar.Parse sc (6 + k)
           (source pos eof [(token.ImaginaryLiteral, imaginaryText d)])
         = Returned
             (Some (NExpression (EImaginaryLiteral (Qred v) (spanAt pos 0))))
             None
     | None => True
     end
  /\ (let oneTenth :=
        mkDecimal "1" None (Some (mkExponentPart false MinusSign "1")) in
      let pi := mkDecimal "3" (Some "14") None in
      let ten := mkDecimal "010" None None in
      decimalText oneTenth = "1e-1"
      /\ option_map Qred (floatLiteralValue oneTenth) = Some (1 # 10)
      /\ decimalText pi = "3.14"
      /\ option_map Qred (floatLiteralValue pi) = Some (157 # 50)
      /\ imaginaryText ten = "010i"
      /\ option_map Qred (imaginaryLiteralValue ten) = Some (10 # 1))
  /\ (if big.len rtxt <? 3 then True
      else
        match UnquoteChar sc (big.slice rtxt 1 (big.len rtxt)) "'"%char with
        | Some r =>
            Grammar.Parse sc (6 + k)
              (source pos eof [(token.RuneLiteral, rtxt)])
            = Returned (Some (NExpression (ERuneLiteral r (spanAt pos 0)))) None
        | None => True
        end)
  /\ (if (big.len stxt <? 2) || bool_decide (String.get 0 stxt = Some "`"%char)
      then True
      else
        match Unquote sc stxt with
        | Some v =>
            Grammar.Parse sc (6 + k)
              (source pos eof [(token.StringLiteral, stxt)])
            = Returned
                (Some (NExpression
                   (EStringLiteral (mkStringLiteral v (spanAt pos 0)))))
                None
        | None => True
        end).
Proof.
  split; [vm_compute; reflexivity|].
  split; [vm_compute; reflexivity|].
  split; [|split; [apply dropCR_filter|]].
  { unfold Grammar.Parse, source. cbn [lexemesAt].
    set (P := mkParser _ eof).
    change (Grammar.parseExpression sc (6 + k) P)
      with (bind (bind (bind (parseStringLiteral sc)
                          (fun l => ret (EStringLiteral l)))
                    (fun left => Grammar.parsePrimaryExprLoop sc (2 + k) left))
              (fun left => Grammar.parseBinaryExprLoop sc (4 + k) 1 left) P).
    unfold bind, P. rewrite parseStringLiteral_raw.
    reflexivity. }
  split.
  { destruct (integerLiteralValue txt) as [v|] eqn:H; [|exact I].
    unfold Grammar.Parse, source. cbn [lexemesAt].
    set (P := mkParser _ eof).
    change (Grammar.parseExpression sc (6 + k) P)
      with (bind (bind parseIntegerLiteral
                    (fun left => Grammar.parsePrimaryExprLoop sc (2 + k) left))
              (fun left => Grammar.parseBinaryExprLoop sc (4 + k) 1 left) P).
    unfold bind, P. rewrite (parseIntegerLiteral_value _ _ _ _ _ _ H).
    reflexivity. }
  split.
  { destruct (floatLiteralValue d) as [v|] eqn:H; [|exact I].
    assert (H' : decimalValue d = Some v).
    { unfold floatLiteralValue in H.
      destruct (fraction d), (exponent d); try discriminate H; exact H. }
    unfold Grammar.Parse, source. cbn [lexemesAt].
    set (P := mkParser _ eof).
    change (Grammar.parseExpression sc (6 + k) P)
      with (bind (bind parseFloatLiteral
                    (fun left => Grammar.parsePrimaryExprLoop sc (2 + k) left))
              (fun left => Grammar.parseBinaryExprLoop sc (4 + k) 1 left) P).
    unfold bind, P. rewrite (parseFloatLiteral_value _ _ _ _ _ _ H').
    reflexivity. }
  split.
  { destruct (imaginaryLiteralValue d) as [v|] eqn:H; [|exact I].
    unfold Grammar.Parse, source. cbn [lexemesAt].
    set (P := mkParser _ eof).
    change (Grammar.parseExpression sc (6 + k) P)
      with (bind (bind parseImaginaryLiteral
                    (fun left => Grammar.parsePrimaryExprLoop sc (2 + k) left))
              (fun left => Grammar.parseBinaryExprLoop sc (4 + k) 1 left) P).
    unfold bind, P. rewrite (parseImaginaryLiteral_value _ _ _ _ _ _ H).
    reflexivity. }
  split; [vm_compute; repeat split; reflexivity|].
  split.
  { destruct (big.len rtxt <? 3) eqn:L; [exact I|].
    destruct (UnquoteChar sc _ _) as [r|] eqn:U; [|exact I].
    unfold Grammar.Parse, source. cbn [lexemesAt].
    set (P := mkParser _ eof).
    change (Grammar.parseExpression sc (6 + k) P)
      with (bind (bind (parseRuneLiteral sc)
                    (fun left => Grammar.parsePrimaryExprLoop sc (2 + k) left))
              (fun left => Grammar.parseBinaryExprLoop sc (4 + k) 1 left) P).
    unfold bind, P. rewrite (parseRuneLiteral_value _ _ _ _ _ _ L U).
    reflexivity. }
  { destruct (big.len stxt <? 2) eqn:L; [exact I|]. cbn [orb].
    case_bool_decide as B; [exact I|].
    destruct (Unquote sc stxt) as [v|] eqn:U; [|exact I].
    unfold Grammar.Parse, source. cbn [lexemesAt].
    set (P := mkParser _ eof).
    change (Grammar.parseExpression sc (6 + k) P)
      with (bind (bind (bind (parseStringLiteral sc)
                          (fun l => ret (EStringLiteral l)))
                    (fun left => Grammar.parsePrimaryExprLoop sc (2 + k) left))
              (fun left => Grammar.parseBinaryExprLoop sc (4 + k) 1 left) P).
    unfold bind, P. rewrite (parseStringLiteral_interpreted _ _ _ _ _ _ L B U).
    reflexivity. }
Qed.

End Literals.

(** *** Spans *)

(** C1 fails on a composite literal.  [const a = []b{}] parses to a literal
    whose [Start] is the location of its open brace, later than the [Start]
    of its type, the bracket of [[]b]; and [Start] of the literal nested in
    [[]b{{}}], which has no type, does not return. *)
Theorem C1_composite_literal_start (sc : Strconv) (eof : Location) (k : nat) :
  let typ := TSliceType (TTypeName "" "b" (spanAt columns 5)) (from columns 3) in
  let lit := ECompositeLiteral (Some typ) [] (from columns 6) (from columns 7) in
  let inner := ECompositeLiteral None [] (from columns 7) (from columns 8) in
  DeclGrammar.Parse sc (14 + k) (source columns eof constSliceLiteral)
  = Returned
      (Some (NDeclarations
         [DConstSpec
            (mkConstSpec [] None [mkIdentifier "a" (spanAt columns 1)] [lit])]))
      None
  /\ exprStart lit = Some (token.mkLocation 1 13)
  /\ typStart typ = Some (token.mkLocation 1 7)
  /\ startsNoLaterThan (exprStart lit) (typStart typ) = false
  /\ DeclGrammar.Parse sc (14 + k) (source columns eof constNestedLiteral)
     = Returned
         (Some (NDeclarations
            [DConstSpec
               (mkConstSpec [] None [mkIdentifier "a" (spanAt columns 1)]
                  [ECompositeLiteral (Some typ) [mkElement None inner]
                     (from columns 6) (from columns 9)])]))
         None
  /\ exprStart inner = None.
Proof.
  repeat split; vm_compute; reflexivity.
Qed.

(** *** Symbol tables *)

Lemma find_snoc {A} (f : A -> bool) (l : list A) (x : A) :
  List.find f (l ++ [x])
  = match List.find f l with
    | Some y => Some y
    | None => if f x then Some x else None
    end.
Proof.
  induction l as [|y l IH]; simpl; [reflexivity|].
  destruct (f y); [reflexivity | exact IH].
Qed.

Lemma firstBound_snoc (seen : bindings) (n m : string) (d : decl.Declaration) :
  firstBound (seen ++ [(n, d)]) m
  = match firstBound seen m with
    | Some x => Some x
    | None =>
        if bool_decide (m = "_") then None
        else if String.eqb n m then Some d else None
    end.
Proof.
  unfold firstBound. destruct (bool_decide (m = "_")); [reflexivity|].
  rewrite find_snoc. destruct (List.find _ seen); [reflexivity|].
  cbn [fst]. destruct (String.eqb n m); reflexivity.
Qed.

Lemma firstBound_blank (seen : bindings) : firstBound seen "_" = None.
Proof. reflexivity. Qed.

Lemma redeclarations_app (xs ys seen : bindings) :
  redeclarations seen (xs ++ ys)
  = redeclarations seen xs ++ redeclarations (seen ++ xs) ys.
Proof.
  revert seen. induction xs as [|[n d] xs IH]; intros seen; cbn [redeclarations app].
  - now rewrite app_nil_r.
  - rewrite IH, <- app_assoc. cbn [app].
    destruct (firstBound seen n); reflexivity.
Qed.

Lemma filter_redeclarations (seen bs : bindings) :
  List.filter isRedeclaration (redeclarations seen bs) = redeclarations seen bs.
Proof.
  revert seen. induction bs as [|[n d] bs IH]; intros seen; cbn; [reflexivity|].
  destruct (firstBound seen n); cbn; now rewrite IH.
Qed.

Lemma grows_refl (st : decl.store) : grows st st.
Proof.
  split; auto. intros a tab H. eauto.
Qed.

Lemma grows_trans (st1 st2 st3 : decl.store) :
  grows st1 st2 -> grows st2 st3 -> grows st1 st3.
Proof.
  intros [L1 E1 W1 B1] [L2 E2 W2 B2]. split; auto; try lia.
  intros a tab H. destruct (E1 _ _ H) as (tab' & H' & U').
  destruct (E2 _ _ H') as (tab'' & H'' & U''). exists tab''. split; congruence.
Qed.

Lemma Bind_blank (st : decl.store) (s : decl.addr) (d : decl.Declaration) :
  decl.Bind st s "_" d = (st, None).
Proof. reflexivity. Qed.

Lemma Bind_grows (st : decl.store) (s : decl.addr) (n : string)
    (d : decl.Declaration) :
  grows st (fst (decl.Bind st s n d))
  /\ length (fst (decl.Bind st s n d)) = length st
  /\ forall a, a <> s -> fst (decl.Bind st s n d) !! a = st !! a.
Proof.
  unfold decl.Bind. case_bool_decide as Hn; [cbn; auto using grows_refl|].
  destruct (st !! s) as [tab|] eqn:Hs; [|cbn; auto using grows_refl].
  destruct (decl.Decls tab !! n) eqn:Hd; [cbn; auto using grows_refl|].
  cbn [fst]. split; [|split].
  - split.
    + now rewrite length_insert.
    + intros a tab0 Ha. destruct (decide (a = s)) as [->|Hne].
      * rewrite list_lookup_insert_eq by (eapply lookup_lt_Some; eauto).
        eexists; split; [reflexivity|]. cbn. congruence.
      * rewrite list_lookup_insert_ne by congruence. eauto.
    + intros W a tab0 u Ha Hu. destruct (decide (a = s)) as [->|Hne].
      * rewrite list_lookup_insert_eq in Ha by (eapply lookup_lt_Some; eauto).
        injection Ha as <-. cbn in Hu. eapply W; eauto.
      * rewrite list_lookup_insert_ne in Ha by congruence. eapply W; eauto.
    + intros B a tab0 Ha. destruct (decide (a = s)) as [->|Hne].
      * rewrite list_lookup_insert_eq in Ha by (eapply lookup_lt_Some; eauto).
        injection Ha as <-. cbn. rewrite lookup_insert_ne by congruence.
        eapply B; eauto.
      * rewrite list_lookup_insert_ne in Ha by congruence. eapply B; eauto.
  - now rewrite length_insert.
  - intros a Hne. now rewrite list_lookup_insert_ne by congruence.
Qed.

Lemma bindIn_grows (b : decl.Binding) (s : decl.addr) (n : string)
    (d : decl.Declaration) :
  grows (decl.tables b) (decl.tables (decl.bindIn b s n d))
  /\ length (decl.tables (decl.bindIn b s n d)) = length (decl.tables b)
  /\ forall a, a <> s ->
       decl.tables (decl.bindIn b s n d) !! a = decl.tables b !! a.
Proof.
  unfold decl.bindIn. pose proof (Bind_grows (decl.tables b) s n d) as H.
  destruct (decl.Bind (decl.tables b) s n d) as [st e]. exact H.
Qed.

Lemma bindIn_holds (b : decl.Binding) (psyms : decl.addr) (seen : bindings)
    (n : string) (d : decl.Declaration) :
  holds (decl.tables b) psyms seen ->
  holds (decl.tables (decl.bindIn b psyms n d)) psyms (seen ++ [(n, d)])
  /\ decl.errs (decl.bindIn b psyms n d)
     = decl.errs b ++ redeclarations seen [(n, d)].
Proof.
  intros (tab & Ht & Hf). unfold decl.bindIn, decl.Bind.
  cbn [redeclarations].
  case_bool_decide as Hn.
  - subst n. cbn. rewrite app_nil_r. split; [|reflexivity].
    exists tab. split; [exact Ht|]. intros m. rewrite firstBound_snoc, <- Hf.
    destruct (decl.Decls tab !! m) eqn:E; [reflexivity|].
    case_bool_decide; [reflexivity|].
    destruct (String.eqb_spec "_" m); [congruence | reflexivity].
  - rewrite Ht. rewrite <- (Hf n).
    destruct (decl.Decls tab !! n) as [d0|] eqn:Hd; cbn.
    + split; [|reflexivity]. exists tab. split; [exact Ht|].
      intros m. rewrite firstBound_snoc, <- Hf.
      destruct (decl.Decls tab !! m) eqn:E; [reflexivity|].
      case_bool_decide; [reflexivity|].
      destruct (String.eqb_spec n m); [congruence | reflexivity].
    + rewrite app_nil_r. split; [|reflexivity].
      eexists. split.
      * apply list_lookup_insert_eq. eapply lookup_lt_Some; eauto.
      * intros m. cbn. rewrite firstBound_snoc, <- Hf.
        destruct (decide (n = m)) as [->|Hne].
        -- rewrite lookup_insert_eq, Hd.
           rewrite bool_decide_eq_false_2 by assumption.
           now rewrite String.eqb_refl.
        -- rewrite lookup_insert_ne by assumption.
           destruct (decl.Decls tab !! m) eqn:E; [reflexivity|].
           case_bool_decide; [reflexivity|].
           destruct (String.eqb_spec n m); [congruence | reflexivity].
Qed.

Lemma makeSymtab_grows (st : decl.store) (up : decl.addr) :
  (up < length st)%nat ->
  grows st (fst (decl.makeSymtab st up))
  /\ snd (decl.makeSymtab st up) = length st
  /\ length (fst (decl.makeSymtab st up)) = S (length st)
  /\ (forall a, (a < length st)%nat ->
        fst (decl.makeSymtab st up) !! a = st !! a)
  /\ fst (decl.makeSymtab st up) !! length st
     = Some (decl.mkSymtab (Some up) ∅).
Proof.
  intros Hup. unfold decl.makeSymtab. cbn [fst snd].
  assert (Hold : forall a, (a < length st)%nat ->
            (st ++ [decl.mkSymtab (Some up) ∅]) !! a = st !! a)
    by (intros a Ha; now apply lookup_app_l).
  assert (Hnew : (st ++ [decl.mkSymtab (Some up) ∅]) !! length st
                 = Some (decl.mkSymtab (Some up) ∅))
    by (rewrite lookup_app_r by lia; now rewrite Nat.sub_diag).
  assert (Hcases : forall a tab, (st ++ [decl.mkSymtab (Some up) ∅]) !! a = Some tab ->
            st !! a = Some tab \/ (a = length st /\ tab = decl.mkSymtab (Some up) ∅)).
  { intros a tab Ha. destruct (decide (a < length st)%nat) as [Hlt|Hge].
    - left. now rewrite <- Hold.
    - right. assert (a = length st) as ->.
      { apply lookup_lt_Some in Ha. rewrite length_app in Ha. cbn in Ha. lia. }
      split; [reflexivity | congruence]. }
  repeat split; auto.
  - rewrite length_app. lia.
  - intros a tab Ha. exists tab. split; [|reflexivity].
    rewrite Hold; [exact Ha | eapply lookup_lt_Some; eauto].
  - intros W a tab u Ha Hu. destruct (Hcases _ _ Ha) as [Ho|[-> ->]].
    + eapply W; eauto.
    + cbn in Hu. injection Hu as <-. exact Hup.
  - intros B a tab Ha. destruct (Hcases _ _ Ha) as [Ho|[-> ->]].
    + eapply B; eauto.
    + reflexivity.
  - rewrite length_app. cbn. lia.
Qed.

Lemma keepsOthers_refl (syms : decl.addr) (st : decl.store) : keepsOthers syms st st.
Proof. split; auto using grows_refl. Qed.

Lemma keepsOthers_trans (syms : decl.addr) (st1 st2 st3 : decl.store) :
  keepsOthers syms st1 st2 -> keepsOthers syms st2 st3 -> keepsOthers syms st1 st3.
Proof.
  intros [G1 K1] [G2 K2]. split; [eapply grows_trans; eauto|].
  intros a Ha Hne. rewrite K2, K1; auto.
  pose proof (grows_length _ _ G1). lia.
Qed.

Lemma importSpecs_keeps (ims : list decl.ImportSpec) :
  forall (b : decl.Binding) (syms : decl.addr) (file i : nat),
    (0 < length (decl.tables b))%nat ->
    keepsOthers syms (decl.tables b)
      (decl.tables (decl.importSpecs b syms file i ims)).
Proof.
  induction ims as [|im ims IH]; intros b syms file i Hlen; cbn [decl.importSpecs].
  - apply keepsOthers_refl.
  - destruct (makeSymtab_grows (decl.tables b) decl.univ Hlen)
      as (G & Ha & Hl & Hold & _).
    destruct (decl.makeSymtab (decl.tables b) decl.univ) as [st pkg] eqn:Hm.
    cbn [fst snd] in *.
    set (b1 := decl.bindIn _ syms _ _).
    destruct (bindIn_grows (decl.mkBinding st (decl.errs b)) syms
                (decl.importName im)
                (decl.DPackageDecl (decl.mkPackageDecl pkg file i)))
      as (G1 & L1 & K1).
    fold b1 in G1, L1, K1. cbn [decl.tables] in G1, L1, K1.
    eapply keepsOthers_trans; [|apply IH; lia].
    split; [eapply grows_trans; eauto|].
    intros a Ha' Hne. rewrite K1 by assumption. now apply Hold.
Qed.

Lemma importDecls_keeps (ds : list decl.ImportDecl) :
  forall (b : decl.Binding) (syms : decl.addr) (file i : nat),
    (0 < length (decl.tables b))%nat ->
    keepsOthers syms (decl.tables b)
      (decl.tables (decl.importDecls b syms file i ds)).
Proof.
  induction ds as [|d ds IH]; intros b syms file i Hlen; cbn [decl.importDecls].
  - apply keepsOthers_refl.
  - pose proof (importSpecs_keeps (decl.Imports d) b syms file i Hlen) as K.
    eapply keepsOthers_trans; [exact K|]. apply IH.
    destruct K as [G _]. pose proof (grows_length _ _ G). lia.
Qed.

Lemma ErrorOrNil_nested (es : list decl.error) :
  List.filter isRedeclaration (decl.appendErr [] (decl.ErrorOrNil es)) = [].
Proof. destruct es; reflexivity. Qed.

Lemma filter_appendErr_nested (errs es : list decl.error) :
  List.filter isRedeclaration (decl.appendErr errs (decl.ErrorOrNil es))
  = List.filter isRedeclaration errs.
Proof.
  destruct es; cbn; [reflexivity|].
  rewrite List.filter_app. cbn. now rewrite app_nil_r.
Qed.

(** [fileDecls] makes the file scope a new table below the package scope and
    leaves every older table alone. *)
Lemma fileDecls_spec (st : decl.store) (psyms : decl.addr) (file : nat)
    (f : decl.File) :
  (0 < length st)%nat -> (psyms < length st)%nat ->
  let '(st', fsyms, err) := decl.fileDecls st psyms file f in
  grows st st'
  /\ fsyms = length st
  /\ (forall a, (a < length st)%nat -> st' !! a = st !! a)
  /\ (exists tab, st' !! fsyms = Some tab /\ decl.Up tab = Some psyms)
  /\ forall errs, List.filter isRedeclaration (decl.appendErr errs err)
                  = List.filter isRedeclaration errs.
Proof.
  intros H0 Hp. unfold decl.fileDecls.
  destruct (makeSymtab_grows st psyms Hp) as (G & Ha & Hl & Hold & Hnew).
  destruct (decl.makeSymtab st psyms) as [st1 syms] eqn:Hm. cbn [fst snd] in *.
  subst syms.
  pose proof (importDecls_keeps (decl.fileImports f) (decl.mkBinding st1 [])
                (length st) file 0%nat) as K.
  cbn [decl.tables] in K. destruct K as [G1 K1]; [lia|].
  split; [eapply grows_trans; eauto|].
  split; [reflexivity|].
  split; [intros a Ha; rewrite K1 by lia; now apply Hold|].
  split.
  - destruct (grows_extends _ _ G1 _ _ Hnew) as (tab & Ht & Hu).
    exists tab. split; [exact Ht|exact Hu].
  - intros errs. apply filter_appendErr_nested.
Qed.

Lemma bindsAt_refl (psyms : decl.addr) (st : decl.store) : bindsAt psyms st st.
Proof. split; [apply grows_refl|]. split; [reflexivity|]. auto. Qed.

Lemma bindsAt_trans (psyms : decl.addr) (st1 st2 st3 : decl.store) :
  bindsAt psyms st1 st2 -> bindsAt psyms st2 st3 -> bindsAt psyms st1 st3.
Proof.
  intros (G1 & L1 & K1) (G2 & L2 & K2).
  split; [eapply grows_trans; eauto|]. split; [congruence|].
  intros a Hne. rewrite K2, K1; auto.
Qed.

Lemma bound_one (psyms : decl.addr) (seen : bindings) (n : string)
    (d : decl.Declaration) (b : decl.Binding) :
  holds (decl.tables b) psyms seen ->
  bound psyms seen [(n, d)] b (decl.bindIn b psyms n d).
Proof.
  intros H. destruct (bindIn_holds b psyms seen n d H) as [Hh He].
  split; [exact Hh|]. split; [exact He|]. apply bindIn_grows.
Qed.

Lemma bound_app (psyms : decl.addr) (seen xs ys : bindings)
    (b1 b2 b3 : decl.Binding) :
  bound psyms seen xs b1 b2 -> bound psyms (seen ++ xs) ys b2 b3 ->
  bound psyms seen (xs ++ ys) b1 b3.
Proof.
  intros (H1 & E1 & K1) (H2 & E2 & K2). split; [|split].
  - now rewrite app_assoc.
  - rewrite E2, E1, redeclarations_app. now rewrite app_assoc.
  - eapply bindsAt_trans; eauto.
Qed.

Lemma bound_nil (psyms : decl.addr) (seen : bindings) (b : decl.Binding) :
  holds (decl.tables b) psyms seen -> bound psyms seen [] b b.
Proof.
  intros H. split; [now rewrite app_nil_r|].
  split; [cbn; now rewrite app_nil_r | apply bindsAt_refl].
Qed.

Lemma bound_holds (psyms : decl.addr) (seen bs : bindings) (b b' : decl.Binding) :
  bound psyms seen bs b b' -> holds (decl.tables b') psyms (seen ++ bs).
Proof. now intros (H & _). Qed.

Lemma constNames_bound (ids : list Identifier) :
  forall b psyms r i views seen,
    holds (decl.tables b) psyms seen ->
    bound psyms seen (constBindings r i ids) b
      (fst (decl.constNames b psyms r i views ids)).
Proof.
  induction ids as [|id ids IH]; intros b psyms r i views seen H;
    cbn [decl.constNames constBindings fst].
  - now apply bound_nil.
  - change (?x :: constBindings r (i + 1) ids)
      with ([x] ++ constBindings r (i + 1) ids).
    eapply bound_app; [now apply bound_one|].
    apply IH. eapply bound_holds. now apply bound_one.
Qed.

Lemma varNames_bound (ids : list Identifier) :
  forall b psyms r i seen,
    holds (decl.tables b) psyms seen ->
    bound psyms seen (varBindings r i ids) b (decl.varNames b psyms r i ids).
Proof.
  induction ids as [|id ids IH]; intros b psyms r i seen H;
    cbn [decl.varNames varBindings].
  - now apply bound_nil.
  - change (?x :: varBindings r (i + 1) ids)
      with ([x] ++ varBindings r (i + 1) ids).
    eapply bound_app; [now apply bound_one|].
    apply IH. eapply bound_holds. now apply bound_one.
Qed.

Lemma topLevel_bound (b : decl.Binding) (psyms fsyms : decl.addr)
    (r : decl.NodeRef) (d : decl.TopLevel) (seen : bindings) :
  holds (decl.tables b) psyms seen ->
  match decl.topLevel b psyms fsyms r d with
  | Some (b', _) => isOther d = false /\ bound psyms seen (declBindings r d) b b'
  | None => isOther d = true
  end.
Proof.
  intros H. destruct d; cbn [decl.topLevel declBindings isOther];
    try (split; [reflexivity | now apply bound_one]).
  - pose proof (constNames_bound Identifiers b psyms r 0 views seen H) as Hb.
    destruct (decl.constNames b psyms r 0 views Identifiers) as [b' vs].
    split; [reflexivity | exact Hb].
  - split; [reflexivity | now apply varNames_bound].
  - reflexivity.
Qed.

Lemma topLevels_bound (ds : list decl.TopLevel) :
  forall b psyms fsyms file j seen,
    holds (decl.tables b) psyms seen ->
    match decl.topLevels b psyms fsyms file j ds with
    | Some (b', ds') =>
        existsb isOther ds = false
        /\ bound psyms seen (fileBindings file j ds) b b'
    | None => existsb isOther ds = true
    end.
Proof.
  induction ds as [|d ds IH]; intros b psyms fsyms file j seen H;
    cbn [decl.topLevels fileBindings existsb].
  - split; [reflexivity | now apply bound_nil].
  - pose proof (topLevel_bound b psyms fsyms (decl.mkNodeRef file j) d seen H) as Hd.
    destruct (decl.topLevel b psyms fsyms (decl.mkNodeRef file j) d)
      as [[b1 d1]|]; [|now rewrite Hd].
    destruct Hd as [Ho Hb]. rewrite Ho. cbn [orb].
    specialize (IH b1 psyms fsyms file (S j) _ (bound_holds _ _ _ _ _ Hb)).
    destruct (decl.topLevels b1 psyms fsyms file (S j) ds) as [[b2 ds2]|];
      [|exact IH].
    destruct IH as [Ho2 Hb2]. split; [exact Ho2|].
    eapply bound_app; eauto.
Qed.

Lemma fileScoped_later (st0 st1 st' st'' : decl.store) (psyms : decl.addr)
    (f : decl.File) :
  (length st0 <= length st1)%nat -> grows st' st'' ->
  fileScoped st1 st' psyms f -> fileScoped st0 st'' psyms f.
Proof.
  intros Hl G (a & tab & Hs & Ha & Ht & Hu).
  destruct (grows_extends _ _ G _ _ Ht) as (tab' & Ht' & Hu').
  exists a, tab'. repeat split; [exact Hs | lia | exact Ht' | congruence].
Qed.

Lemma eachFile_spec (fs : list decl.File) :
  forall b psyms file seen,
    (0 < length (decl.tables b))%nat -> (psyms < length (decl.tables b))%nat ->
    holds (decl.tables b) psyms seen ->
    match decl.eachFile b psyms file fs with
    | Some (b', fs') =>
        hasOther fs = false
        /\ holds (decl.tables b') psyms (seen ++ pkgBindings file fs)
        /\ List.filter isRedeclaration (decl.errs b')
           = List.filter isRedeclaration (decl.errs b)
             ++ redeclarations seen (pkgBindings file fs)
        /\ grows (decl.tables b) (decl.tables b')
        /\ (forall a, (a < length (decl.tables b))%nat -> a <> psyms ->
              decl.tables b' !! a = decl.tables b !! a)
        /\ length fs' = length fs
        /\ Forall (fileScoped (decl.tables b) (decl.tables b') psyms) fs'
        /\ NoDup (map decl.fileSyms fs')
    | None => hasOther fs = true
    end.
Proof.
  induction fs as [|f fs IH]; intros b psyms file seen H0 Hp Hh;
    cbn [decl.eachFile pkgBindings];
    [|change (hasOther (f :: fs))
        with (existsb isOther (decl.fileDeclarations f) || hasOther fs)].
  - rewrite !app_nil_r.
    split; [reflexivity|]. split; [exact Hh|]. split; [reflexivity|].
    split; [apply grows_refl|]. split; [reflexivity|]. split; [reflexivity|].
    split; constructor.
  - pose proof (fileDecls_spec (decl.tables b) psyms file f H0 Hp) as Hf.
    destruct (decl.fileDecls (decl.tables b) psyms file f) as [[st1 fsyms] err].
    destruct Hf as (G1 & -> & K1 & (ftab & Hft & Hfu) & Hfe).
    set (b1 := decl.mkBinding st1 (decl.appendErr (decl.errs b) err)).
    assert (Hh1 : holds (decl.tables b1) psyms seen).
    { destruct Hh as (tab & Ht & Hn). exists tab. split; [|exact Hn].
      cbn. now rewrite K1. }
    pose proof (topLevels_bound (decl.fileDeclarations f) b1 psyms
                  (length (decl.tables b)) file 0%nat seen Hh1) as Ht.
    destruct (decl.topLevels b1 psyms (length (decl.tables b)) file 0
                (decl.fileDeclarations f)) as [[b2 ds2]|]; [|now rewrite Ht].
    destruct Ht as (Ho & Hh2 & He2 & G2 & L2 & K2).
    cbn [decl.tables decl.errs b1] in He2, G2, L2, K2.
    pose proof (grows_length _ _ G1) as Hl1.
    specialize (IH b2 psyms (S file)
                (seen ++ fileBindings file 0 (decl.fileDeclarations f))).
    destruct (decl.eachFile b2 psyms (S file) fs) as [[b3 fs3]|].
    + destruct IH as (Ho3 & Hh3 & He3 & G3 & K3 & Hlen & Hfs & Hnd);
        [lia | lia | exact Hh2 |].
      rewrite Ho, Ho3. cbn [orb].
      assert (G : grows (decl.tables b) (decl.tables b3))
        by (eapply grows_trans; [exact G1|]; eapply grows_trans; eauto).
      split; [reflexivity|].
      split; [now rewrite app_assoc|].
      split.
      { rewrite He3, He2, List.filter_app, Hfe, filter_redeclarations.
        rewrite redeclarations_app. now rewrite app_assoc. }
      split; [exact G|].
      split.
      { intros a Ha Hne. rewrite (K3 a) by (auto; lia).
        rewrite (K2 a) by assumption. now rewrite (K1 a). }
      split; [cbn; now rewrite Hlen|].
      split.
      { constructor.
        - assert (Hft2 : exists t, decl.tables b2 !! length (decl.tables b) = Some t
                                   /\ decl.Up t = Some psyms).
          { rewrite K2 by lia. eauto. }
          destruct Hft2 as (t2 & Ht2 & Hu2).
          destruct (grows_extends _ _ G3 _ _ Ht2) as (t3 & Ht3 & Hu3).
          exists (length (decl.tables b)), t3. cbn.
          repeat split; [lia | exact Ht3 | congruence].
        - eapply Forall_impl; [exact Hfs|]. intros f' Hf'.
          eapply fileScoped_later; [| apply grows_refl | exact Hf']. lia. }
      cbn [map decl.fileSyms]. constructor; [|exact Hnd].
      intros Hin. apply list_elem_of_In in Hin. apply in_map_iff in Hin.
      destruct Hin as (f' & Hs' & Hin').
      rewrite Forall_forall in Hfs. apply list_elem_of_In in Hin'.
      destruct (Hfs _ Hin') as (a & t & Hsa & Hge & _).
      rewrite Hsa in Hs'. injection Hs' as ->.
      apply lookup_lt_Some in Hft. lia.
    + rewrite Ho. cbn [orb]. apply IH; [lia | lia | exact Hh2].
Qed.

(** The store [pkgDecls] starts from: the universe and the empty package
    scope. *)
Lemma initial_store :
  decl.makeSymtab decl.initial decl.univ
  = ([decl.univScope; decl.mkSymtab (Some decl.univ) ∅], 1%nat).
Proof. reflexivity. Qed.

Lemma univScope_no_blank : decl.Decls decl.univScope !! "_" = None.
Proof. vm_compute. reflexivity. Qed.

Lemma pkgDecls_spec (files : list decl.File) :
  match decl.pkgDecls files with
  | decl.Bound st psyms files' err => resolved files st psyms files' err
  | decl.Invalid _ => hasOther files = true
  end.
Proof.
  unfold decl.pkgDecls. rewrite initial_store.
  set (st0 := [decl.univScope; decl.mkSymtab (Some decl.univ) ∅]).
  assert (Hh0 : holds st0 1 []).
  { eexists. split; [reflexivity|]. intros n. cbn. unfold firstBound.
    rewrite lookup_empty. now destruct (bool_decide (n = "_")). }
  assert (Hwf0 : wellFormed st0).
  { intros [|[|a]] tab u Ha Hu; cbn in Ha; try discriminate;
      injection Ha as <-; cbn in Hu; [discriminate|].
    unfold decl.univ in Hu. injection Hu as Hu. lia. }
  assert (Hnb0 : noBlank st0).
  { intros [|[|a]] tab Ha; cbn in Ha; try discriminate; injection Ha as <-;
      [apply univScope_no_blank | reflexivity]. }
  pose proof (eachFile_spec files (decl.mkBinding st0 []) 1%nat 0%nat []) as H.
  cbn [decl.tables decl.errs] in H.
  destruct (decl.eachFile (decl.mkBinding st0 []) 1 0 files) as [[b files']|].
  - destruct H as (Ho & Hh & He & G & K & Hlen & Hfs & Hnd);
      [cbn; lia | cbn; lia | exact Hh0 |].
    split; auto.
    + cbn in He. rewrite <- He. now destruct (decl.errs b).
    + now apply (grows_wf _ _ G).
    + now apply (grows_noBlank _ _ G).
    + unfold decl.univ. rewrite K; [reflexivity | cbn; lia | discriminate].
    + destruct (grows_extends _ _ G 1%nat _ eq_refl) as (ptab & Hp & Hu).
      exists ptab. split; [exact Hp | exact Hu].
    + eapply Forall_impl; [exact Hfs|]. intros f (a & tab & Hs & Ha & Ht & Hu).
      exists a, tab. cbn in Ha. cbn. repeat split; auto; lia.
  - apply H; [cbn; lia | cbn; lia | exact Hh0].
Qed.

Lemma Find_blank (st : decl.store) :
  noBlank st ->
  forall fuel s d, decl.Find fuel st s "_" <> decl.Found d.
Proof.
  intros B fuel. induction fuel as [|fuel IH]; intros [a|] d; cbn; try discriminate.
  destruct (st !! a) as [tab|] eqn:Ha; [|discriminate].
  rewrite (B _ _ Ha). apply IH.
Qed.

Lemma Find_answers (st : decl.store) (n : string) :
  wellFormed st ->
  forall fuel a, (a < fuel)%nat -> (a < length st)%nat ->
    decl.Find fuel st (Some a) n <> decl.NoAnswer.
Proof.
  intros W fuel. induction fuel as [|fuel IH]; intros a Hf Ha; [lia|].
  cbn. destruct (lookup_lt_is_Some_2 st a Ha) as [tab Ht]. rewrite Ht.
  destruct (decl.Decls tab !! n); [discriminate|].
  destruct (decl.Up tab) as [u|] eqn:Hu.
  - pose proof (W _ _ _ Ht Hu). apply IH; lia.
  - destruct fuel; discriminate.
Qed.

Lemma Find_outward (st : decl.store) (a psyms : decl.addr)
    (ftab ptab : decl.symtab) (n : string) :
  st !! a = Some ftab -> decl.Up ftab = Some psyms ->
  st !! psyms = Some ptab -> decl.Up ptab = Some decl.univ ->
  st !! decl.univ = Some decl.univScope ->
  decl.Find 3 st (Some a) n = lookupOutward ftab ptab n.
Proof.
  intros Hf Hfu Hp Hpu Hu. unfold lookupOutward. cbn [decl.Find].
  rewrite Hf. destruct (decl.Decls ftab !! n); [reflexivity|].
  rewrite Hfu, Hp. destruct (decl.Decls ptab !! n); [reflexivity|].
  rewrite Hpu, Hu. destruct (decl.Decls decl.univScope !! n); reflexivity.
Qed.

Lemma redeclarations_not_blank (bs seen : bindings) :
  existsb aboutBlank (redeclarations seen bs) = false.
Proof.
  revert seen. induction bs as [|[n d] bs IH]; intros seen; cbn; [reflexivity|].
  destruct (firstBound seen n) eqn:E; [|apply IH].
  cbn. rewrite IH. unfold firstBound in E.
  destruct (bool_decide (n = "_")); [discriminate | reflexivity].
Qed.

Lemma redeclarations_all_blank (bs seen : bindings) :
  allBlank bs = true -> redeclarations seen bs = [].
Proof.
  revert seen. induction bs as [|[n d] bs IH]; intros seen H; cbn; [reflexivity|].
  cbn in H. apply andb_true_iff in H as [Hn Hb].
  apply String.eqb_eq in Hn. subst n. rewrite firstBound_blank. now apply IH.
Qed.

(** C3: first writer wins, and redeclarations accumulate.  After resolution
    the package scope binds every non-blank name to the first declaration
    made under it, and the package's own errors are one [Redeclaration] for
    each later declaration of a bound name, whose [First] is that first
    declaration; resolution returns unless a file holds something that is no
    top-level declaration.  Two declarations of [f] give one error naming
    both; a third gives a second error whose [First] is again the first
    declaration, and [g], declared after them, is bound. *)
Theorem C3_redeclaration_accumulation
    (files : list decl.File) (n : string) (d1 d2 d3 : decl.Declaration)
    (s1 s2 s3 s4 : span) :
  match decl.pkgDecls files with
  | decl.Bound st psyms _ err =>
      (exists tab, st !! psyms = Some tab
         /\ forall m, decl.Decls tab !! m = firstBound (pkgBindings 0 files) m)
      /\ ownRedeclarations err = redeclarations [] (pkgBindings 0 files)
  | decl.Invalid _ => hasOther files = true
  end
  /\ (if bool_decide (n = "_") then True
      else
        firstBound [(n, d1); (n, d2); (n, d3)] n = Some d1
        /\ redeclarations [] [(n, d1); (n, d2)] = [decl.Redeclaration n d1 d2]
        /\ redeclarations [] [(n, d1); (n, d2); (n, d3)]
           = [decl.Redeclaration n d1 d2; decl.Redeclaration n d1 d3])
  /\ match decl.pkgDecls (twoOfOneName s1 s2) with
     | decl.Bound st psyms _ err =>
         err = Some (decl.Errors
                 [decl.Redeclaration "f" (decl.DFunctionDecl (decl.mkNodeRef 0 0))
                    (decl.DFunctionDecl (decl.mkNodeRef 0 1))])
         /\ decl.Find 1 st (Some psyms) "f"
            = decl.Found (decl.DFunctionDecl (decl.mkNodeRef 0 0))
     | decl.Invalid _ => False
     end
  /\ match decl.pkgDecls (threeOfOneName s1 s2 s3 s4) with
     | decl.Bound st psyms _ err =>
         err = Some (decl.Errors
                 [decl.Redeclaration "f" (decl.DFunctionDecl (decl.mkNodeRef 0 0))
                    (decl.DTypeSpec (decl.mkNodeRef 0 1));
                  decl.Redeclaration "f" (decl.DFunctionDecl (decl.mkNodeRef 0 0))
                    (decl.DVarSpecView (decl.mkVarSpecView 0 (decl.mkNodeRef 0 2)))])
         /\ decl.Find 1 st (Some psyms) "f"
            = decl.Found (decl.DFunctionDecl (decl.mkNodeRef 0 0))
         /\ decl.Find 1 st (Some psyms) "g"
            = decl.Found
                (decl.DVarSpecView (decl.mkVarSpecView 1 (decl.mkNodeRef 0 2)))
     | decl.Invalid _ => False
     end.
Proof.
  split; [|split; [|split]].
  - pose proof (pkgDecls_spec files) as H.
    destruct (decl.pkgDecls files); [|exact H].
    destruct H. split; assumption.
  - case_bool_decide as Hn; [exact I|].
    cbn [redeclarations app]. unfold firstBound.
    rewrite !bool_decide_eq_false_2 by assumption.
    cbn. rewrite !String.eqb_refl. cbn. auto.
  - vm_compute. auto.
  - vm_compute. auto.
Qed.

(** C6, as the code has it: resolution makes one file scope per source file,
    all distinct, whose enclosing scope is the package scope; the package
    scope's enclosing scope is the universe, which has none.  [Find] from a
    file scope answers with the first match of the file's table, the
    package's and the universe's, or with nil, and from any scope it answers
    within as many steps as the scope's address: it never loops. *)
Theorem C6_scope_chain (files : list decl.File) (s1 s2 : span) :
  match decl.pkgDecls files with
  | decl.Bound st psyms files' err =>
      length files' = length files
      /\ NoDup (map decl.fileSyms files')
      /\ st !! decl.univ = Some decl.univScope
      /\ decl.Up decl.univScope = None
      /\ (exists ptab,
            st !! psyms = Some ptab /\ decl.Up ptab = Some decl.univ
            /\ Forall (fun f =>
                 exists a ftab,
                   decl.fileSyms f = Some a /\ st !! a = Some ftab
                   /\ decl.Up ftab = Some psyms
                   /\ forall n, decl.Find 3 st (Some a) n = lookupOutward ftab ptab n)
                 files')
      /\ forall a n, (a < length st)%nat ->
           decl.Find (S a) st (Some a) n <> decl.NoAnswer
  | decl.Invalid _ => True
  end
  /\ match decl.pkgDecls (importingFile s1 s2) with
     | decl.Bound st psyms files' err =>
         map decl.fileSyms files' = [Some 2%nat]
         /\ decl.Find 3 st (Some 2%nat) "fmt"
            = decl.Found (decl.DPackageDecl (decl.mkPackageDecl 3 0 0))
         /\ decl.Find 3 st (Some 2%nat) "f"
            = decl.Found (decl.DFunctionDecl (decl.mkNodeRef 0 0))
         /\ decl.Find 3 st (Some 2%nat) "int"
            = decl.Found (decl.DTypeSpec (decl.mkNodeRef 0 1))
         /\ decl.Find 3 st (Some 2%nat) "string"
            = decl.Found (decl.DPredeclaredType decl.String)
         /\ decl.Find 3 st (Some 2%nat) "g" = decl.NotFound
     | decl.Invalid _ => False
     end.
Proof.
  split.
  - pose proof (pkgDecls_spec files) as H.
    destruct (decl.pkgDecls files) as [st psyms files' err|]; [|exact I].
    destruct H as [Hp Hv Hh He Hw Hb Hu (ptab & Hpt & Hpu) Hl Hf Hd].
    repeat split; auto.
    + exists ptab. repeat split; auto.
      eapply Forall_impl; [exact Hf|]. intros f (a & ftab & Hs & _ & Ht & Hfu).
      exists a, ftab. repeat split; auto.
      intros n. eapply Find_outward; eauto.
    + intros a n Ha. apply Find_answers; auto.
  - vm_compute. auto 10.
Qed.

(** C6, as the spec words it, fails: the scope of a file is not linked to the
    universe scope.  For the package of one empty file the file scope is
    table 2, whose link is table 1, the package scope. *)
Lemma C6_file_scope_is_below_package :
  ~ (forall files st psyms files' err f a tab,
       decl.pkgDecls files = decl.Bound st psyms files' err ->
       f ∈ files' -> decl.fileSyms f = Some a -> st !! a = Some tab ->
       decl.Up tab = Some decl.univ).
Proof.
  intros H.
  specialize (H emptyFile
                [decl.univScope; decl.mkSymtab (Some 0%nat) ∅;
                 decl.mkSymtab (Some 1%nat) ∅]
                1%nat [decl.mkFile [] [] (Some 2%nat)] None
                (decl.mkFile [] [] (Some 2%nat)) 2%nat
                (decl.mkSymtab (Some 1%nat) ∅)
                eq_refl (list_elem_of_here _ _) eq_refl eq_refl).
  discriminate H.
Qed.

(** C9: the blank identifier is never bound.  [Bind] of [_] returns no error
    and the store it was given; after resolution no lookup finds [_], no
    [Redeclaration] of the package is about [_], and a package that declares
    nothing but [_] has no [Redeclaration] at all. *)
Theorem C9_blank_identifier
    (files : list decl.File) (st0 : decl.store) (s : decl.addr)
    (d : decl.Declaration) (s1 s2 s3 s4 : span) :
  decl.Bind st0 s "_" d = (st0, None)
  /\ match decl.pkgDecls files with
     | decl.Bound st psyms _ err =>
         (forall fuel s' d', decl.Find fuel st s' "_" <> decl.Found d')
         /\ existsb aboutBlank (ownRedeclarations err) = false
         /\ (if allBlank (pkgBindings 0 files)
             then ownRedeclarations err = [] else True)
     | decl.Invalid _ => True
     end
  /\ match decl.pkgDecls (blankDeclarations s1 s2 s3 s4) with
     | decl.Bound st psyms _ err =>
         err = None
         /\ st = [decl.univScope; decl.mkSymtab (Some decl.univ) ∅;
                  decl.mkSymtab (Some psyms) ∅]
     | decl.Invalid _ => False
     end.
Proof.
  split; [reflexivity|]. split.
  - pose proof (pkgDecls_spec files) as H.
    destruct (decl.pkgDecls files) as [st psyms files' err|]; [|exact I].
    destruct H as [Hp Hv Hh He Hw Hb Hu _ Hl Hf Hd].
    split; [now apply Find_blank|].
    rewrite He. split; [apply redeclarations_not_blank|].
    destruct (allBlank (pkgBindings 0 files)) eqn:E; [|exact I].
    now apply redeclarations_all_blank.
  - vm_compute. auto.
Qed.

(** ** The cursor, the fuel and the panics of the two grammars *)

Lemma adv_refl (p : Parser) : adv 0 p p.
Proof. split; [reflexivity|]. exists []. split; [reflexivity | cbn; lia]. Qed.

Lemma adv_step (k1 k2 k : nat) (p q r : Parser) :
  adv k1 p q -> adv k2 q r -> (k <= k1 + k2)%nat -> adv k p r.
Proof.
  intros (E1 & u1 & H1 & L1) (E2 & u2 & H2 & L2) Hk. split; [congruence|].
  exists (u1 ++ u2). rewrite H1, H2, app_assoc. split; [reflexivity|].
  rewrite length_app. lia.
Qed.

Lemma adv_trans (k1 k2 : nat) (p q r : Parser) :
  adv k1 p q -> adv k2 q r -> adv (k1 + k2) p r.
Proof. intros A B. eapply adv_step; eauto. Qed.

Lemma adv_le (k k' : nat) (p r : Parser) :
  adv k p r -> (k' <= k)%nat -> adv k' p r.
Proof.
  intros A Hk. eapply (adv_step k 0 k' p r r A (adv_refl r)). lia.
Qed.

Lemma adv_length (k : nat) (p q : Parser) :
  adv k p q -> (length (unread q) + k <= length (unread p))%nat.
Proof.
  intros (_ & used & E & L). rewrite E, length_app. lia.
Qed.

Lemma token_eqb_eq (a b : Token) : token.eqb a b = true -> a = b.
Proof.
  unfold token.eqb. intros H. apply Pos.eqb_eq in H.
  destruct a; destruct b; try reflexivity; discriminate H.
Qed.

Lemma token_eqb_neq (a b : Token) : token.eqb a b = false -> a <> b.
Proof.
  intros H ->. unfold token.eqb in H. now rewrite Pos.eqb_refl in H.
Qed.

Lemma tok_unread (p : Parser) :
  tok p <> token.EOF -> exists l rest, unread p = l :: rest.
Proof.
  unfold tok, lex. destruct (unread p) as [|l rest]; [now intros [] | eauto].
Qed.

Lemma advance_adv0 (p : Parser) : adv 0 p (advance p).
Proof.
  split; [reflexivity|]. unfold advance; cbn.
  destruct (unread p) as [|l rest]; [exists [] | exists [l]];
    (split; [reflexivity | cbn; lia]).
Qed.

Lemma advance_adv1 (p : Parser) : tok p <> token.EOF -> adv 1 p (advance p).
Proof.
  intros H. destruct (tok_unread p H) as (l & rest & E).
  split; [reflexivity|]. unfold advance; cbn. rewrite E. exists [l].
  split; [reflexivity | cbn; lia].
Qed.

Lemma next_Done (p : Parser) (u : unit) (q : Parser) :
  next p = Done u q -> q = advance p.
Proof. unfold next. intros H. now injection H as _ <-. Qed.

Lemma expect_Done (t : Token) (p : Parser) (u : unit) (q : Parser) :
  expect t p = Done u q -> q = p /\ tok p = t.
Proof.
  unfold expect. destruct (token.eqb (tok p) t) eqn:E; [|discriminate].
  intros H. injection H as _ <-. split; [reflexivity | now apply token_eqb_eq].
Qed.

Lemma bind_Exhausted {A B} (m : M A) (f : A -> M B) (p : Parser) :
  bind m f p = Exhausted ->
  m p = Exhausted \/ exists a q, m p = Done a q /\ f a q = Exhausted.
Proof.
  unfold bind. destruct (m p) as [a q| |]; [right; eauto|discriminate|now left].
Qed.

Lemma bind_Panicked {A B} (m : M A) (f : A -> M B) (p : Parser)
    (v : PanicValue) :
  bind m f p = Panicked v ->
  m p = Panicked v \/ exists a q, m p = Done a q /\ f a q = Panicked v.
Proof.
  unfold bind. destruct (m p) as [a q|w|]; [right; eauto| |discriminate].
  intros [= <-]. now left.
Qed.

(** Proves that the current token is not the end of input from what the
    grammar function has tested. *)
Ltac nonEOF :=
  match goal with
  | |- _ => assumption
  | E : tok ?q = _ |- tok ?q <> _ => rewrite E; discriminate
  | E : token.eqb (tok ?q) _ = true |- tok ?q <> _ =>
      apply token_eqb_eq in E; rewrite E; discriminate
  | E : unary (tok ?q) = true |- tok ?q <> _ =>
      let X := fresh in intro X; rewrite X in E; discriminate E
  | E : typeFirst (tok ?q) = true |- tok ?q <> _ =>
      let X := fresh in intro X; rewrite X in E; discriminate E
  | E : precedence (tok ?q) = Some _ |- tok ?q <> _ =>
      let X := fresh in intro X; rewrite X in E; discriminate E
  end.

(** Chains the facts [adv _ q q'] of the context from one parser to another. *)
Ltac chain_exact :=
  lazymatch goal with
  | |- adv _ ?p ?p => exact (adv_refl p)
  | |- adv _ ?p ?r =>
      match goal with
      | A : adv ?k1 p ?q |- _ => refine (adv_trans k1 _ p q r A _); chain_exact
      end
  end.

Ltac chain := eapply adv_le; [chain_exact | cbn; lia].

Ltac lengths :=
  repeat match goal with A : adv _ _ _ |- _ => apply adv_length in A end.

(** Turns [E : m q = Done a q'] into what it says about [q'], for a step [m]
    of the cursor or a call whose effect the context knows; [learn] is run
    on the equation of a call before it is used up. *)
Ltac settle_gen learn E :=
  cbv beta in E;
  lazymatch type of E with
  | peek _ _ = Done _ _ => apply peek_Done in E as [-> ->]
  | ret _ _ = Done _ _ => apply ret_Done in E as [-> ->]
  | next ?q = Done _ ?q' =>
      apply next_Done in E;
      first [ assert (adv 1 q q') by (rewrite E; apply advance_adv1; nonEOF)
            | assert (adv 0 q q') by (rewrite E; apply advance_adv0) ];
      first [subst q' | clear E]
  | expect _ _ = Done _ _ => apply expect_Done in E as [-> E]
  | panic _ _ = Done _ _ => discriminate E
  | panicErr _ _ = Done _ _ => discriminate E
  | exhausted _ = Done _ _ => discriminate E
  | bind _ _ _ = Done _ _ =>
      let a := fresh "a" in
      let q := fresh "q" in
      let E1 := fresh "E" in
      apply bind_Done in E as (a & q & E1 & E);
      settle_gen learn E1; settle_gen learn E
  | (if ?c then _ else _) _ = Done _ _ =>
      let C := fresh "C" in destruct c eqn:C; settle_gen learn E
  | (match ?c with _ => _ end) _ = Done _ _ =>
      let C := fresh "C" in destruct c eqn:C; settle_gen learn E
  | Panicked _ = Done _ _ => discriminate E
  | Exhausted = Done _ _ => discriminate E
  | _ =>
      learn E;
      match goal with
      | X : ?T |- _ =>
          lazymatch T with context [adv] => idtac end;
          apply X in E; [| solve [nonEOF] ..]
      end
  end.

Ltac settle E := settle_gen ltac:(fun _ => idtac) E.

(** Keeps, beside what [settle] derives from [E], what a hypothesis about
    [c] says of the value [E] returns. *)
Ltac learn_about c E :=
  try (let K := fresh "K" in
       pose proof E as K;
       match goal with
       | Y : ?T |- _ =>
           lazymatch T with context [c] => idtac end;
           apply Y in K
       end).

(** Refutes [E : m q = Exhausted]. *)
Ltac stuck E :=
  cbv beta in E;
  lazymatch type of E with
  | peek _ _ = Exhausted => discriminate E
  | ret _ _ = Exhausted => discriminate E
  | next _ = Exhausted => discriminate E
  | expect ?t ?p = Exhausted =>
      unfold expect in E; destruct (token.eqb (tok p) t); discriminate E
  | panic _ _ = Exhausted => discriminate E
  | panicErr _ _ = Exhausted => discriminate E
  | Panicked _ = Exhausted => discriminate E
  | Done _ _ = Exhausted => discriminate E
  | bind _ _ _ = Exhausted =>
      let a := fresh "a" in
      let q := fresh "q" in
      let E1 := fresh "E" in
      apply bind_Exhausted in E as [E | (a & q & E1 & E)];
      [stuck E | settle E1; stuck E]
  | (if ?c then _ else _) _ = Exhausted => destruct c eqn:?; stuck E
  | (match ?c with _ => _ end) _ = Exhausted => destruct c eqn:?; stuck E
  | _ =>
      exfalso;
      match goal with
      | X : forall _, _ |- _ => eapply X; [ | exact E]; lengths; lia
      | X : forall _, _ |- _ => eapply X; exact E
      end
  end.

(** The token got is none of those wanted. *)
Ltac unwanted :=
  let H := fresh in
  unfold typeWanted; cbn [In]; intros H;
  repeat match type of H with
         | _ \/ _ => destruct H as [H|H]
         end;
  try contradiction; try discriminate H;
  injection H as H;
  first
    [ congruence
    | match goal with
      | C : token.eqb (tok ?p) ?t = false |- _ =>
          apply token_eqb_neq in C; congruence
      end ].

Ltac known_token :=
  repeat match goal with
         | C : token.eqb (tok ?p) _ = true |- _ => apply token_eqb_eq in C
         end;
  repeat match goal with
         | C : tok ?p = _ |- _ => rewrite C
         end.

Ltac blamed :=
  unfold malformed;
  lazymatch goal with
  | |- describes _ _ (PSyntaxError _) =>
      cbn [describes Wanted err]; split; [reflexivity | unwanted]
  | |- describes _ _ (PString _) =>
      cbn [describes]; known_token; cbn [In]; auto 8
  | |- describes _ _ (PMalformedLiteral _) =>
      cbn [describes mlType]; split; [reflexivity |];
      known_token; cbn [In]; auto 8
  | |- describes _ _ PNilDeref =>
      exfalso;
      first
        [ match goal with
          | K : ?x <> ?x |- _ => exact (K eq_refl)
          end
        | match goal with
          | C : typStart ?t = None |- _ =>
              destruct t as [| | |[]| | | | |]; discriminate C
          end ]
  end.

(** Finds the token that [E : m q = Panicked v] blames. *)
Ltac blame_gen learn E :=
  cbv beta in E;
  lazymatch type of E with
  | peek _ _ = Panicked _ => discriminate E
  | ret _ _ = Panicked _ => discriminate E
  | next _ = Panicked _ => discriminate E
  | Done _ _ = Panicked _ => discriminate E
  | Exhausted = Panicked _ => discriminate E
  | exhausted _ = Panicked _ => discriminate E
  | expect ?t ?p = Panicked _ =>
      unfold expect in E; destruct (token.eqb (tok p) t) eqn:?;
      [discriminate E|];
      injection E as <-; exists p; split; [chain | blamed]
  | panicErr ?w ?p = Panicked _ =>
      injection E as <-; exists p; split; [chain | blamed]
  | panic ?v ?p = Panicked _ =>
      injection E as <-; exists p; split; [chain | blamed]
  | Panicked (malformed ?p _) = Panicked _ =>
      injection E as <-; exists p; split; [chain | blamed]
  | bind _ _ _ = Panicked _ =>
      let a := fresh "a" in
      let q := fresh "q" in
      let E1 := fresh "E" in
      apply bind_Panicked in E as [E | (a & q & E1 & E)];
      [blame_gen learn E | settle_gen learn E1; blame_gen learn E]
  | (if ?c then _ else _) _ = Panicked _ =>
      destruct c eqn:?; blame_gen learn E
  | (match ?c with _ => _ end) _ = Panicked _ =>
      destruct c eqn:?; blame_gen learn E
  | _ =>
      match goal with
      | X : ?T |- _ =>
          lazymatch T with context [describes] => idtac end;
          let q := fresh "q" in
          let A := fresh "A" in
          let S := fresh "S" in
          apply X in E as (q & A & S);
          [ exists q; split; [chain | exact S]
          | first [assumption | apply token_eqb_eq; assumption] .. ]
      end
  end.

Ltac blame E := blame_gen ltac:(fun _ => idtac) E.

Ltac conjuncts := repeat match goal with |- _ /\ _ => split end.

Section Cursor.

Context (sc : Strconv).

(** *** The literal and name parsers *)

Lemma parseIdentifier_adv (p : Parser) (id : Identifier) (q : Parser) :
  parseIdentifier p = Done id q -> adv 1 p q.
Proof. intros H. unfold parseIdentifier in H. settle H. chain. Qed.

Lemma parseTypeName_adv (p : Parser) (t : Typ) (q : Parser) :
  parseTypeName p = Done t q -> adv 1 p q.
Proof. intros H. unfold parseTypeName in H. settle H; chain. Qed.

Lemma parseIntegerLiteral_adv (p : Parser) (e : Expression) (q : Parser) :
  tok p <> token.EOF -> parseIntegerLiteral p = Done e q -> adv 1 p q.
Proof. intros T H. unfold parseIntegerLiteral in H. settle H; chain. Qed.

Lemma parseFloatLiteral_adv (p : Parser) (e : Expression) (q : Parser) :
  tok p <> token.EOF -> parseFloatLiteral p = Done e q -> adv 1 p q.
Proof. intros T H. unfold parseFloatLiteral in H. settle H; chain. Qed.

Lemma parseImaginaryLiteral_adv (p : Parser) (e : Expression) (q : Parser) :
  tok p <> token.EOF -> parseImaginaryLiteral p = Done e q -> adv 1 p q.
Proof. intros T H. unfold parseImaginaryLiteral in H. settle H; chain. Qed.

Lemma parseRuneLiteral_adv (p : Parser) (e : Expression) (q : Parser) :
  tok p <> token.EOF -> parseRuneLiteral sc p = Done e q -> adv 1 p q.
Proof. intros T H. unfold parseRuneLiteral in H. settle H; chain. Qed.

Lemma parseStringLiteral_adv (p : Parser) (l : StringLiteral) (q : Parser) :
  tok p <> token.EOF -> parseStringLiteral sc p = Done l q -> adv 1 p q.
Proof. intros T H. unfold parseStringLiteral in H. settle H; chain. Qed.

Lemma parseIdentifier_returns (p : Parser) : parseIdentifier p <> Exhausted.
Proof. intros E. unfold parseIdentifier in E. stuck E. Qed.

Lemma parseTypeName_returns (p : Parser) : parseTypeName p <> Exhausted.
Proof. intros E. unfold parseTypeName in E. stuck E. Qed.

Lemma parseIntegerLiteral_returns (p : Parser) :
  parseIntegerLiteral p <> Exhausted.
Proof. intros E. unfold parseIntegerLiteral in E. stuck E. Qed.

Lemma parseFloatLiteral_returns (p : Parser) : parseFloatLiteral p <> Exhausted.
Proof. intros E. unfold parseFloatLiteral in E. stuck E. Qed.

Lemma parseImaginaryLiteral_returns (p : Parser) :
  parseImaginaryLiteral p <> Exhausted.
Proof. intros E. unfold parseImaginaryLiteral in E. stuck E. Qed.

Lemma parseRuneLiteral_returns (p : Parser) : parseRuneLiteral sc p <> Exhausted.
Proof. intros E. unfold parseRuneLiteral in E. stuck E. Qed.

Lemma parseStringLiteral_returns (p : Parser) :
  parseStringLiteral sc p <> Exhausted.
Proof. intros E. unfold parseStringLiteral in E. stuck E. Qed.

Lemma parseTypeName_ends (p : Parser) (ty : Typ) (q : Parser) :
  parseTypeName p = Done ty q -> typEnd ty <> None.
Proof. intros H. unfold parseTypeName in H. settle H; discriminate. Qed.

Section Blamed.

Context (u : list Token).

Lemma parseIdentifier_blames (p : Parser) (v : PanicValue) :
  parseIdentifier p = Panicked v -> blames u p v.
Proof. intros E. unfold parseIdentifier in E. unfold blames. blame E. Qed.

Lemma parseTypeName_blames (p : Parser) (v : PanicValue) :
  parseTypeName p = Panicked v -> blames u p v.
Proof. intros E. unfold parseTypeName in E. unfold blames. blame E. Qed.

Lemma parseIntegerLiteral_blames (p : Parser) (v : PanicValue) :
  tok p = token.IntegerLiteral ->
  parseIntegerLiteral p = Panicked v -> blames u p v.
Proof. intros T E. unfold parseIntegerLiteral in E. unfold blames. blame E. Qed.

Lemma parseFloatLiteral_blames (p : Parser) (v : PanicValue) :
  tok p = token.FloatLiteral ->
  parseFloatLiteral p = Panicked v -> blames u p v.
Proof. intros T E. unfold parseFloatLiteral in E. unfold blames. blame E. Qed.

Lemma parseImaginaryLiteral_blames (p : Parser) (v : PanicValue) :
  tok p = token.ImaginaryLiteral ->
  parseImaginaryLiteral p = Panicked v -> blames u p v.
Proof.
  intros T E. unfold parseImaginaryLiteral in E. unfold blames. blame E.
Qed.

Lemma parseRuneLiteral_blames (p : Parser) (v : PanicValue) :
  tok p = token.RuneLiteral ->
  parseRuneLiteral sc p = Panicked v -> blames u p v.
Proof. intros T E. unfold parseRuneLiteral in E. unfold blames. blame E. Qed.

Lemma parseStringLiteral_blames (p : Parser) (v : PanicValue) :
  tok p = token.StringLiteral ->
  parseStringLiteral sc p = Panicked v -> blames u p v.
Proof. intros T E. unfold parseStringLiteral in E. unfold blames. blame E. Qed.

End Blamed.

(** *** The expression grammar *)

Lemma parseDeclIdentifiers_adv (fuel : nat) :
  forall ids p x p', Grammar.parseDeclIdentifiers fuel ids p = Done x p' -> adv 1 p p'.
Proof.
  pose proof parseIdentifier_adv as Li.
  induction fuel as [|fuel IH]; intros ids p x p' H; [discriminate|].
  cbn -[token.eqb] in H. settle H; chain.
Qed.

Lemma grammar_advances (fuel : nat) : Advances sc fuel.
Proof.
  pose proof parseIdentifier_adv as Li.
  pose proof parseTypeName_adv as Lt.
  pose proof parseIntegerLiteral_adv as L1.
  pose proof parseFloatLiteral_adv as L2.
  pose proof parseImaginaryLiteral_adv as L3.
  pose proof parseRuneLiteral_adv as L4.
  pose proof parseStringLiteral_adv as L5.
  pose proof parseDeclIdentifiers_adv as L6.
  induction fuel as [|fuel IH].
  - unfold Advances. conjuncts; intros; discriminate.
  - destruct IH as (I1 & I2 & I3 & I4 & I5 & I6 & I7 & I8
        & I9 & I10 & I11 & I12 & I13 & I14 & I15 & I16
        & I17 & I18 & I19 & I20 & I21).
    unfold Advances.
    conjuncts; intros;
      match goal with
      | H : _ = Done _ _ |- _ => cbn -[token.eqb] in H; settle H; chain
      end.
Qed.

Lemma parseDeclIdentifiers_returns (fuel : nat) :
  forall ids p, (7 * length (unread p) + 1 <= fuel)%nat ->
    Grammar.parseDeclIdentifiers fuel ids p <> Exhausted.
Proof.
  pose proof parseIdentifier_adv as Li.
  pose proof parseIdentifier_returns as Ri.
  induction fuel as [|fuel IH]; intros ids p B E; [lia|].
  cbn -[token.eqb] in E. stuck E.
Qed.

Lemma grammar_terminates (fuel : nat) : Terminates sc fuel.
Proof.
  pose proof parseIdentifier_adv as Li.
  pose proof parseTypeName_adv as Lt.
  pose proof parseIntegerLiteral_adv as L1.
  pose proof parseFloatLiteral_adv as L2.
  pose proof parseImaginaryLiteral_adv as L3.
  pose proof parseRuneLiteral_adv as L4.
  pose proof parseStringLiteral_adv as L5.
  pose proof parseDeclIdentifiers_adv as L6.
  pose proof parseIdentifier_returns as Ri.
  pose proof parseTypeName_returns as Rt.
  pose proof parseIntegerLiteral_returns as R1.
  pose proof parseFloatLiteral_returns as R2.
  pose proof parseImaginaryLiteral_returns as R3.
  pose proof parseRuneLiteral_returns as R4.
  pose proof parseStringLiteral_returns as R5.
  pose proof parseDeclIdentifiers_returns as R6.
  induction fuel as [|fuel IH].
  - unfold Terminates. conjuncts; intros; lia.
  - destruct (grammar_advances fuel) as (A1 & A2 & A3 & A4 & A5 & A6 & A7 & A8
        & A9 & A10 & A11 & A12 & A13 & A14 & A15 & A16
        & A17 & A18 & A19 & A20 & A21).
    unfold Terminates in IH.
    destruct IH as (I1 & I2 & I3 & I4 & I5 & I6 & I7 & I8
        & I9 & I10 & I11 & I12 & I13 & I14 & I15 & I16
        & I17 & I18 & I19 & I20 & I21).
    unfold Terminates.
    conjuncts; intros;
      match goal with
      | |- _ <> _ =>
          let E := fresh "E" in intros E; cbn -[token.eqb] in E; stuck E
      end.
Qed.

Lemma parseDeclIdentifiers_blames (fuel : nat) :
  forall ids p v, Grammar.parseDeclIdentifiers fuel ids p = Panicked v -> blames [token.Struct; token.Interface] p v.
Proof.
  pose proof parseIdentifier_adv as Li.
  pose proof (parseIdentifier_blames [token.Struct; token.Interface]) as Bi.
  unfold blames in *.
  induction fuel as [|fuel IH]; intros ids p v E; [discriminate|].
  cbn -[token.eqb] in E. blame E.
Qed.

Lemma grammar_blames (fuel : nat) : Blames sc fuel.
Proof.
  pose proof parseIdentifier_adv as Li.
  pose proof parseTypeName_adv as Lt.
  pose proof parseIntegerLiteral_adv as L1.
  pose proof parseFloatLiteral_adv as L2.
  pose proof parseImaginaryLiteral_adv as L3.
  pose proof parseRuneLiteral_adv as L4.
  pose proof parseStringLiteral_adv as L5.
  pose proof parseDeclIdentifiers_adv as L6.
  pose proof (parseIdentifier_blames [token.Struct; token.Interface]) as Bi.
  pose proof (parseTypeName_blames [token.Struct; token.Interface]) as Bt.
  pose proof (parseIntegerLiteral_blames [token.Struct; token.Interface]) as B1.
  pose proof (parseFloatLiteral_blames [token.Struct; token.Interface]) as B2.
  pose proof (parseImaginaryLiteral_blames [token.Struct; token.Interface]) as B3.
  pose proof (parseRuneLiteral_blames [token.Struct; token.Interface]) as B4.
  pose proof (parseStringLiteral_blames [token.Struct; token.Interface]) as B5.
  pose proof parseDeclIdentifiers_blames as B6.
  unfold blames in *.
  induction fuel as [|fuel IH].
  - unfold Blames. conjuncts; intros; discriminate.
  - destruct (grammar_advances fuel) as (A1 & A2 & A3 & A4 & A5 & A6 & A7 & A8
        & A9 & A10 & A11 & A12 & A13 & A14 & A15 & A16
        & A17 & A18 & A19 & A20 & A21).
    unfold Blames, blames in IH.
    destruct IH as (I1 & I2 & I3 & I4 & I5 & I6 & I7 & I8
        & I9 & I10 & I11 & I12 & I13 & I14 & I15 & I16
        & I17 & I18 & I19 & I20 & I21).
    unfold Blames, blames.
    conjuncts; intros;
      match goal with
      | E : _ = Panicked _ |- _ => cbn -[token.eqb] in E; blame E
      end.
Qed.

(** *** The declaration grammar *)

Lemma decl_parseDeclIdentifiers_adv (fuel : nat) :
  forall ids p x p', DeclGrammar.parseDeclIdentifiers fuel ids p = Done x p' -> adv 1 p p'.
Proof.
  pose proof parseIdentifier_adv as Li.
  induction fuel as [|fuel IH]; intros ids p x p' H; [discriminate|].
  cbn -[token.eqb] in H. settle H; chain.
Qed.

Lemma parseFieldIdentifiers_adv (fuel : nat) :
  forall ids p x p', DeclGrammar.parseFieldIdentifiers fuel ids p = Done x p' -> adv 0 p p'.
Proof.
  pose proof parseIdentifier_adv as Li.
  induction fuel as [|fuel IH]; intros ids p x p' H; [discriminate|].
  cbn -[token.eqb] in H. settle H; chain.
Qed.

Lemma parseIdentifierList_adv (fuel : nat) :
  forall ids p x p', DeclGrammar.parseIdentifierList fuel ids p = Done x p' -> adv 1 p p'.
Proof.
  pose proof parseIdentifier_adv as Li.
  induction fuel as [|fuel IH]; intros ids p x p' H; [discriminate|].
  cbn -[token.eqb] in H. settle H; chain.
Qed.

Lemma declGrammar_advances (fuel : nat) : DeclAdvances sc fuel.
Proof.
  pose proof parseIdentifier_adv as Li.
  pose proof parseTypeName_adv as Lt.
  pose proof parseIntegerLiteral_adv as L1.
  pose proof parseFloatLiteral_adv as L2.
  pose proof parseImaginaryLiteral_adv as L3.
  pose proof parseRuneLiteral_adv as L4.
  pose proof parseStringLiteral_adv as L5.
  pose proof decl_parseDeclIdentifiers_adv as L6.
  pose proof parseFieldIdentifiers_adv as L7.
  induction fuel as [|fuel IH].
  - unfold DeclAdvances. conjuncts; intros; discriminate.
  - destruct IH as (I1 & I2 & I3 & I4 & I5 & I6 & I7 & I8
        & I9 & I10 & I11 & I12 & I13 & I14 & I15 & I16
        & I17 & I18 & I19 & I20 & I21 & I22 & I23 & I24
        & I25 & I26 & I27 & I28 & I29 & I30).
    unfold DeclAdvances.
    conjuncts; intros;
      match goal with
      | H : _ = Done _ _ |- _ => cbn -[token.eqb] in H; settle H; chain
      end.
Qed.

Lemma parseConstSpec_adv (fuel : nat) (p : Parser) (x : ConstSpec)
    (p' : Parser) :
  DeclGrammar.parseConstSpec sc fuel p = Done x p' -> adv 1 p p'.
Proof.
  pose proof parseIdentifierList_adv as L8.
  destruct (declGrammar_advances fuel) as (A1 & A2 & A3 & A4 & A5 & A6 & A7 & A8
        & A9 & A10 & A11 & A12 & A13 & A14 & A15 & A16
        & A17 & A18 & A19 & A20 & A21 & A22 & A23 & A24
        & A25 & A26 & A27 & A28 & A29 & A30).
  intros H. unfold DeclGrammar.parseConstSpec in H. settle H; chain.
Qed.

Lemma parseTypeSpec_adv (fuel : nat) (p : Parser) (x : TypeSpec)
    (p' : Parser) :
  DeclGrammar.parseTypeSpec sc fuel p = Done x p' -> adv 1 p p'.
Proof.
  pose proof parseIdentifier_adv as Li.
  destruct (declGrammar_advances fuel) as (A1 & A2 & A3 & A4 & A5 & A6 & A7 & A8
        & A9 & A10 & A11 & A12 & A13 & A14 & A15 & A16
        & A17 & A18 & A19 & A20 & A21 & A22 & A23 & A24
        & A25 & A26 & A27 & A28 & A29 & A30).
  intros H. unfold DeclGrammar.parseTypeSpec in H. settle H; chain.
Qed.

Lemma parseConstSpecs_adv (fuel : nat) :
  forall ds p x p',
    DeclGrammar.parseConstSpecs sc fuel ds p = Done x p' -> adv 0 p p'.
Proof.
  pose proof parseConstSpec_adv as Lc.
  induction fuel as [|fuel IH]; intros ds p x p' H; [discriminate|].
  cbn -[token.eqb DeclGrammar.parseConstSpec] in H. settle H; chain.
Qed.

Lemma parseTypeSpecs_adv (fuel : nat) :
  forall ds p x p',
    DeclGrammar.parseTypeSpecs sc fuel ds p = Done x p' -> adv 0 p p'.
Proof.
  pose proof parseTypeSpec_adv as Lc.
  induction fuel as [|fuel IH]; intros ds p x p' H; [discriminate|].
  cbn -[token.eqb DeclGrammar.parseTypeSpec] in H. settle H; chain.
Qed.

Lemma parseDeclarations_adv (fuel : nat) (p : Parser) (x : Declarations)
    (p' : Parser) :
  DeclGrammar.parseDeclarations sc fuel p = Done x p' -> adv 1 p p'.
Proof.
  pose proof parseConstSpec_adv as Lc.
  pose proof parseConstSpecs_adv as Lcs.
  pose proof parseTypeSpec_adv as Lt.
  pose proof parseTypeSpecs_adv as Lts.
  intros H.
  unfold DeclGrammar.parseDeclarations, DeclGrammar.parseConstDecl,
    DeclGrammar.parseTypeDecl in H.
  settle H; chain.
Qed.

Lemma decl_parseDeclIdentifiers_returns (fuel : nat) :
  forall ids p, (12 * length (unread p) + 1 <= fuel)%nat ->
    DeclGrammar.parseDeclIdentifiers fuel ids p <> Exhausted.
Proof.
  pose proof parseIdentifier_adv as Li.
  pose proof parseIdentifier_returns as Ri.
  induction fuel as [|fuel IH]; intros ids p B E; [lia|].
  cbn -[token.eqb] in E. stuck E.
Qed.

Lemma parseFieldIdentifiers_returns (fuel : nat) :
  forall ids p, (12 * length (unread p) + 1 <= fuel)%nat ->
    DeclGrammar.parseFieldIdentifiers fuel ids p <> Exhausted.
Proof.
  pose proof parseIdentifier_adv as Li.
  pose proof parseIdentifier_returns as Ri.
  induction fuel as [|fuel IH]; intros ids p B E; [lia|].
  cbn -[token.eqb] in E. stuck E.
Qed.

Lemma parseIdentifierList_returns (fuel : nat) :
  forall ids p, (12 * length (unread p) + 1 <= fuel)%nat ->
    DeclGrammar.parseIdentifierList fuel ids p <> Exhausted.
Proof.
  pose proof parseIdentifier_adv as Li.
  pose proof parseIdentifier_returns as Ri.
  induction fuel as [|fuel IH]; intros ids p B E; [lia|].
  cbn -[token.eqb] in E. stuck E.
Qed.

Lemma declGrammar_terminates (fuel : nat) : DeclTerminates sc fuel.
Proof.
  pose proof parseIdentifier_adv as Li.
  pose proof parseTypeName_adv as Lt.
  pose proof parseIntegerLiteral_adv as L1.
  pose proof parseFloatLiteral_adv as L2.
  pose proof parseImaginaryLiteral_adv as L3.
  pose proof parseRuneLiteral_adv as L4.
  pose proof parseStringLiteral_adv as L5.
  pose proof decl_parseDeclIdentifiers_adv as L6.
  pose proof parseFieldIdentifiers_adv as L7.
  pose proof parseIdentifier_returns as Ri.
  pose proof parseTypeName_returns as Rt.
  pose proof parseIntegerLiteral_returns as R1.
  pose proof parseFloatLiteral_returns as R2.
  pose proof parseImaginaryLiteral_returns as R3.
  pose proof parseRuneLiteral_returns as R4.
  pose proof parseStringLiteral_returns as R5.
  pose proof decl_parseDeclIdentifiers_returns as R6.
  pose proof parseFieldIdentifiers_returns as R7.
  induction fuel as [|fuel IH].
  - unfold DeclTerminates. conjuncts; intros; lia.
  - destruct (declGrammar_advances fuel) as (A1 & A2 & A3 & A4 & A5 & A6 & A7 & A8
        & A9 & A10 & A11 & A12 & A13 & A14 & A15 & A16
        & A17 & A18 & A19 & A20 & A21 & A22 & A23 & A24
        & A25 & A26 & A27 & A28 & A29 & A30).
    unfold DeclTerminates in IH.
    destruct IH as (I1 & I2 & I3 & I4 & I5 & I6 & I7 & I8
        & I9 & I10 & I11 & I12 & I13 & I14 & I15 & I16
        & I17 & I18 & I19 & I20 & I21 & I22 & I23 & I24
        & I25 & I26 & I27 & I28 & I29 & I30).
    unfold DeclTerminates.
    conjuncts; intros;
      match goal with
      | |- _ <> _ =>
          let E := fresh "E" in intros E; cbn -[token.eqb] in E; stuck E
      end.
Qed.

Lemma parseConstSpec_returns (fuel : nat) (p : Parser) :
  (12 * length (unread p) + 1 <= fuel)%nat ->
  DeclGrammar.parseConstSpec sc fuel p <> Exhausted.
Proof.
  pose proof parseIdentifierList_adv as L8.
  pose proof parseIdentifierList_returns as R8.
  destruct (declGrammar_advances fuel) as (A1 & A2 & A3 & A4 & A5 & A6 & A7 & A8
        & A9 & A10 & A11 & A12 & A13 & A14 & A15 & A16
        & A17 & A18 & A19 & A20 & A21 & A22 & A23 & A24
        & A25 & A26 & A27 & A28 & A29 & A30).
  destruct (declGrammar_terminates fuel) as (I1 & I2 & I3 & I4 & I5 & I6 & I7 & I8
        & I9 & I10 & I11 & I12 & I13 & I14 & I15 & I16
        & I17 & I18 & I19 & I20 & I21 & I22 & I23 & I24
        & I25 & I26 & I27 & I28 & I29 & I30).
  intros B E. unfold DeclGrammar.parseConstSpec in E. stuck E.
Qed.

Lemma parseTypeSpec_returns (fuel : nat) (p : Parser) :
  (12 * length (unread p) + 1 <= fuel)%nat ->
  DeclGrammar.parseTypeSpec sc fuel p <> Exhausted.
Proof.
  pose proof parseIdentifier_adv as Li.
  pose proof parseIdentifier_returns as Ri.
  destruct (declGrammar_advances fuel) as (A1 & A2 & A3 & A4 & A5 & A6 & A7 & A8
        & A9 & A10 & A11 & A12 & A13 & A14 & A15 & A16
        & A17 & A18 & A19 & A20 & A21 & A22 & A23 & A24
        & A25 & A26 & A27 & A28 & A29 & A30).
  destruct (declGrammar_terminates fuel) as (I1 & I2 & I3 & I4 & I5 & I6 & I7 & I8
        & I9 & I10 & I11 & I12 & I13 & I14 & I15 & I16
        & I17 & I18 & I19 & I20 & I21 & I22 & I23 & I24
        & I25 & I26 & I27 & I28 & I29 & I30).
  intros B E. unfold DeclGrammar.parseTypeSpec in E. stuck E.
Qed.

Lemma parseConstSpecs_returns (fuel : nat) :
  forall ds p, (12 * length (unread p) + 2 <= fuel)%nat ->
    DeclGrammar.parseConstSpecs sc fuel ds p <> Exhausted.
Proof.
  pose proof parseConstSpec_adv as Lc.
  pose proof parseConstSpec_returns as Rc.
  induction fuel as [|fuel IH]; intros ds p B E; [lia|].
  cbn -[token.eqb DeclGrammar.parseConstSpec] in E. stuck E.
Qed.

Lemma parseTypeSpecs_returns (fuel : nat) :
  forall ds p, (12 * length (unread p) + 2 <= fuel)%nat ->
    DeclGrammar.parseTypeSpecs sc fuel ds p <> Exhausted.
Proof.
  pose proof parseTypeSpec_adv as Lc.
  pose proof parseTypeSpec_returns as Rc.
  induction fuel as [|fuel IH]; intros ds p B E; [lia|].
  cbn -[token.eqb DeclGrammar.parseTypeSpec] in E. stuck E.
Qed.

Lemma parseDeclarations_returns (fuel : nat) (p : Parser) :
  (12 * length (unread p) <= fuel)%nat ->
  DeclGrammar.parseDeclarations sc fuel p <> Exhausted.
Proof.
  pose proof parseConstSpec_adv as Lc.
  pose proof parseConstSpec_returns as Rc.
  pose proof parseConstSpecs_adv as Lcs.
  pose proof parseConstSpecs_returns as Rcs.
  pose proof parseTypeSpec_adv as Lt.
  pose proof parseTypeSpec_returns as Rt.
  pose proof parseTypeSpecs_adv as Lts.
  pose proof parseTypeSpecs_returns as Rts.
  intros B E.
  unfold DeclGrammar.parseDeclarations, DeclGrammar.parseConstDecl,
    DeclGrammar.parseTypeDecl in E.
  stuck E.
Qed.

Lemma declGrammar_ends (fuel : nat) : DeclEnds sc fuel.
Proof.
  pose proof parseIdentifier_adv as Li.
  pose proof parseTypeName_adv as Lt.
  pose proof parseTypeName_ends as Et.
  induction fuel as [|fuel IH].
  - unfold DeclEnds. conjuncts; intros; discriminate.
  - destruct (declGrammar_advances fuel) as (A1 & A2 & A3 & A4 & A5 & A6 & A7 & A8
        & A9 & A10 & A11 & A12 & A13 & A14 & A15 & A16
        & A17 & A18 & A19 & A20 & A21 & A22 & A23 & A24
        & A25 & A26 & A27 & A28 & A29 & A30).
    destruct IH as (I1 & I2 & I3 & I4 & I5 & I6 & I7).
    unfold DeclEnds.
    conjuncts; intros;
      match goal with
      | H : _ = Done _ _ |- _ =>
          cbn -[token.eqb] in H;
          settle_gen ltac:(fun E => learn_about typEnd E) H;
          cbn [typEnd]; first [assumption | discriminate]
      end.
Qed.

Lemma decl_parseDeclIdentifiers_blames (fuel : nat) :
  forall ids p v, DeclGrammar.parseDeclIdentifiers fuel ids p = Panicked v -> blames [token.Var] p v.
Proof.
  pose proof parseIdentifier_adv as Li.
  pose proof (parseIdentifier_blames [token.Var]) as Bi.
  unfold blames in *.
  induction fuel as [|fuel IH]; intros ids p v E; [discriminate|].
  cbn -[token.eqb] in E. blame E.
Qed.

Lemma parseFieldIdentifiers_blames (fuel : nat) :
  forall ids p v, DeclGrammar.parseFieldIdentifiers fuel ids p = Panicked v -> blames [token.Var] p v.
Proof.
  pose proof parseIdentifier_adv as Li.
  pose proof (parseIdentifier_blames [token.Var]) as Bi.
  unfold blames in *.
  induction fuel as [|fuel IH]; intros ids p v E; [discriminate|].
  cbn -[token.eqb] in E. blame E.
Qed.

Lemma parseIdentifierList_blames (fuel : nat) :
  forall ids p v, DeclGrammar.parseIdentifierList fuel ids p = Panicked v -> blames [token.Var] p v.
Proof.
  pose proof parseIdentifier_adv as Li.
  pose proof (parseIdentifier_blames [token.Var]) as Bi.
  unfold blames in *.
  induction fuel as [|fuel IH]; intros ids p v E; [discriminate|].
  cbn -[token.eqb] in E. blame E.
Qed.

Lemma declGrammar_blames (fuel : nat) : DeclBlames sc fuel.
Proof.
  pose proof parseIdentifier_adv as Li.
  pose proof parseTypeName_adv as Lt.
  pose proof parseIntegerLiteral_adv as L1.
  pose proof parseFloatLiteral_adv as L2.
  pose proof parseImaginaryLiteral_adv as L3.
  pose proof parseRuneLiteral_adv as L4.
  pose proof parseStringLiteral_adv as L5.
  pose proof decl_parseDeclIdentifiers_adv as L6.
  pose proof parseFieldIdentifiers_adv as L7.
  pose proof parseTypeName_ends as Et.
  pose proof (parseIdentifier_blames [token.Var]) as Bi.
  pose proof (parseTypeName_blames [token.Var]) as Bt.
  pose proof (parseIntegerLiteral_blames [token.Var]) as B1.
  pose proof (parseFloatLiteral_blames [token.Var]) as B2.
  pose proof (parseImaginaryLiteral_blames [token.Var]) as B3.
  pose proof (parseRuneLiteral_blames [token.Var]) as B4.
  pose proof (parseStringLiteral_blames [token.Var]) as B5.
  pose proof decl_parseDeclIdentifiers_blames as B6.
  pose proof parseFieldIdentifiers_blames as B7.
  unfold blames in *.
  induction fuel as [|fuel IH].
  - unfold DeclBlames. conjuncts; intros; discriminate.
  - destruct (declGrammar_advances fuel) as (A1 & A2 & A3 & A4 & A5 & A6 & A7 & A8
        & A9 & A10 & A11 & A12 & A13 & A14 & A15 & A16
        & A17 & A18 & A19 & A20 & A21 & A22 & A23 & A24
        & A25 & A26 & A27 & A28 & A29 & A30).
    destruct (declGrammar_ends fuel) as (E1 & E2 & E3 & E4 & E5 & E6 & E7).
    unfold DeclBlames, blames in IH.
    destruct IH as (I1 & I2 & I3 & I4 & I5 & I6 & I7 & I8
        & I9 & I10 & I11 & I12 & I13 & I14 & I15 & I16
        & I17 & I18 & I19 & I20 & I21 & I22 & I23 & I24
        & I25 & I26 & I27 & I28 & I29 & I30).
    unfold DeclBlames, blames.
    conjuncts; intros;
      match goal with
      | E : _ = Panicked _ |- _ =>
          cbn -[token.eqb] in E;
          blame_gen ltac:(fun E => learn_about typEnd E) E
      end.
Qed.

Lemma parseConstSpec_blames (fuel : nat) (p : Parser) (v : PanicValue) :
  DeclGrammar.parseConstSpec sc fuel p = Panicked v -> blames [token.Var] p v.
Proof.
  pose proof parseIdentifierList_adv as L8.
  pose proof parseIdentifierList_blames as B8.
  destruct (declGrammar_advances fuel) as (A1 & A2 & A3 & A4 & A5 & A6 & A7 & A8
        & A9 & A10 & A11 & A12 & A13 & A14 & A15 & A16
        & A17 & A18 & A19 & A20 & A21 & A22 & A23 & A24
        & A25 & A26 & A27 & A28 & A29 & A30).
  destruct (declGrammar_blames fuel) as (I1 & I2 & I3 & I4 & I5 & I6 & I7 & I8
        & I9 & I10 & I11 & I12 & I13 & I14 & I15 & I16
        & I17 & I18 & I19 & I20 & I21 & I22 & I23 & I24
        & I25 & I26 & I27 & I28 & I29 & I30).
  unfold blames in *. intros E.
  unfold DeclGrammar.parseConstSpec in E. blame E.
Qed.

Lemma parseTypeSpec_blames (fuel : nat) (p : Parser) (v : PanicValue) :
  DeclGrammar.parseTypeSpec sc fuel p = Panicked v -> blames [token.Var] p v.
Proof.
  pose proof parseIdentifier_adv as Li.
  pose proof (parseIdentifier_blames [token.Var]) as Bi.
  destruct (declGrammar_advances fuel) as (A1 & A2 & A3 & A4 & A5 & A6 & A7 & A8
        & A9 & A10 & A11 & A12 & A13 & A14 & A15 & A16
        & A17 & A18 & A19 & A20 & A21 & A22 & A23 & A24
        & A25 & A26 & A27 & A28 & A29 & A30).
  destruct (declGrammar_blames fuel) as (I1 & I2 & I3 & I4 & I5 & I6 & I7 & I8
        & I9 & I10 & I11 & I12 & I13 & I14 & I15 & I16
        & I17 & I18 & I19 & I20 & I21 & I22 & I23 & I24
        & I25 & I26 & I27 & I28 & I29 & I30).
  unfold blames in *. intros E.
  unfold DeclGrammar.parseTypeSpec in E. blame E.
Qed.

Lemma parseConstSpecs_blames (fuel : nat) :
  forall ds p v,
    DeclGrammar.parseConstSpecs sc fuel ds p = Panicked v -> blames [token.Var] p v.
Proof.
  pose proof parseConstSpec_adv as Lc.
  pose proof parseConstSpec_blames as Bc.
  unfold blames in *.
  induction fuel as [|fuel IH]; intros ds p v E; [discriminate|].
  cbn -[token.eqb DeclGrammar.parseConstSpec] in E. blame E.
Qed.

Lemma parseTypeSpecs_blames (fuel : nat) :
  forall ds p v,
    DeclGrammar.parseTypeSpecs sc fuel ds p = Panicked v -> blames [token.Var] p v.
Proof.
  pose proof parseTypeSpec_adv as Lc.
  pose proof parseTypeSpec_blames as Bc.
  unfold blames in *.
  induction fuel as [|fuel IH]; intros ds p v E; [discriminate|].
  cbn -[token.eqb DeclGrammar.parseTypeSpec] in E. blame E.
Qed.

Lemma parseDeclarations_blames (fuel : nat) (p : Parser) (v : PanicValue) :
  DeclGrammar.parseDeclarations sc fuel p = Panicked v -> blames [token.Var] p v.
Proof.
  pose proof parseConstSpec_adv as Lc.
  pose proof parseConstSpec_blames as Bc.
  pose proof parseConstSpecs_adv as Lcs.
  pose proof parseConstSpecs_blames as Bcs.
  pose proof parseTypeSpec_adv as Lt.
  pose proof parseTypeSpec_blames as Bt.
  pose proof parseTypeSpecs_adv as Lts.
  pose proof parseTypeSpecs_blames as Bts.
  unfold blames in *. intros E.
  unfold DeclGrammar.parseDeclarations, DeclGrammar.parseConstDecl,
    DeclGrammar.parseTypeDecl in E.
  blame E.
Qed.

End Cursor.

(** X1: an expression that is parsed has read at least one token, and
    reading only moves the cursor forward: the tokens left unread are a
    proper suffix of those the parse began with. *)
Theorem parseExpression_reads_forward (sc : Strconv) (fuel : nat)
    (p q : Parser) (e : Expression) :
  Grammar.parseExpression sc fuel p = Done e q -> adv 1 p q.
Proof.
  destruct (grammar_advances sc fuel)
    as (_ & _ & _ & _ & _ & _ & _ & _ & _ & A & _).
  apply A.
Qed.

Lemma parseExpression_reads_forward_witness : adv 1 oneName atEnd.
Proof.
  apply (parseExpression_reads_forward noStrconv 5 oneName atEnd
           (identAt columns 0 "a")).
  reflexivity.
Defined.

(** X2: [Parse] of the expression grammar terminates on every token
    stream: with fuel for seven calls per unread token and five more it
    returns or panics. *)
Theorem Parse_terminates (sc : Strconv) (p : Parser) (fuel : nat) :
  (7 * length (unread p) + 5 <= fuel)%nat ->
  Grammar.Parse sc fuel p <> OutOfFuel.
Proof.
  intros B.
  destruct (grammar_terminates sc fuel)
    as (_ & _ & _ & _ & _ & _ & _ & _ & _ & T & _).
  specialize (T p B). unfold Grammar.Parse.
  destruct (Grammar.parseExpression sc fuel p) as [e q|[]|];
    cbn; try discriminate. contradiction.
Qed.

Lemma Parse_terminates_witness :
  (7 * length (unread oneName) + 5 <= 12)%nat
  /\ Grammar.Parse noStrconv 12 oneName <> OutOfFuel.
Proof.
  split; [cbn; lia|]. apply Parse_terminates. cbn. lia.
Defined.

(** X3: an error that [Parse] of the expression grammar returns describes
    one token at or after the start of the input (the end-of-input token when
    nothing is left): a syntax error carries that token's kind, text and
    span and never wants the token it got; a malformed literal is that
    token, a literal of the kind the error names. *)
Theorem Parse_error_describes_a_token (sc : Strconv) (fuel : nat)
    (p : Parser) (e : ParseError) :
  Grammar.Parse sc fuel p = Returned None (Some e) ->
  blames [token.Struct; token.Interface] p (thrown e).
Proof.
  destruct (grammar_blames sc fuel)
    as (_ & _ & _ & _ & _ & _ & _ & _ & _ & B & _).
  unfold Grammar.Parse. intros H.
  destruct (Grammar.parseExpression sc fuel p) as [x q|v|] eqn:E;
    [discriminate H| |discriminate H].
  destruct v; cbn in H; try discriminate H;
    injection H as <-; exact (B _ _ E).
Qed.

Lemma Parse_error_describes_a_token_witness :
  blames [token.Struct; token.Interface]
    (source columns token.zero unterminatedIndex)
    (PSyntaxError
       (err atEnd [WTok token.CloseBracket; WTok token.Colon])).
Proof.
  apply (Parse_error_describes_a_token noStrconv 12
           (source columns token.zero unterminatedIndex)
           (ErrSyntax (err atEnd [WTok token.CloseBracket; WTok token.Colon]))).
  reflexivity.
Defined.

(** X4: [Parse] of the expression grammar lets a panic through only as a
    string: the word "unimplemented" at a [struct] or [interface] token, or
    the complaint about an imaginary, string or rune literal whose text the
    lexer should not have produced.  It never fails on a nil pointer. *)
Theorem Parse_repanics_with_a_string (sc : Strconv) (fuel : nat)
    (p : Parser) (v : PanicValue) :
  Grammar.Parse sc fuel p = Repanicked v ->
  (exists s, v = PString s) /\ blames [token.Struct; token.Interface] p v.
Proof.
  destruct (grammar_blames sc fuel)
    as (_ & _ & _ & _ & _ & _ & _ & _ & _ & B & _).
  unfold Grammar.Parse. intros H.
  destruct (Grammar.parseExpression sc fuel p) as [x q|w|] eqn:E;
    [discriminate H| |discriminate H].
  pose proof (B _ _ E) as (q & A & D).
  destruct w; cbn in H; try discriminate H; injection H as <-.
  - split; [eauto|]. exists q. auto.
  - destruct D.
Qed.

Lemma Parse_repanics_with_a_string_witness :
  (exists s, PString "unimplemented" = PString s)
  /\ blames [token.Struct; token.Interface] assertStruct (PString "unimplemented").
Proof.
  apply (Parse_repanics_with_a_string noStrconv 12 assertStruct). reflexivity.
Defined.

(** X5: a declaration that is parsed has read at least one token, and
    reading only moves the cursor forward. *)
Theorem parseDeclarations_reads_forward (sc : Strconv) (fuel : nat)
    (p q : Parser) (ds : Declarations) :
  DeclGrammar.parseDeclarations sc fuel p = Done ds q -> adv 1 p q.
Proof. apply parseDeclarations_adv. Qed.

Lemma parseDeclarations_reads_forward_witness : adv 1 constName atEnd.
Proof.
  apply (parseDeclarations_reads_forward noStrconv 5 constName atEnd
           [DConstSpec
              (mkConstSpec [] None [mkIdentifier "a" (spanAt columns 1)] [])]).
  reflexivity.
Defined.

(** X6: [Parse] of the declaration grammar terminates on every token
    stream: with fuel for twelve calls per unread token it returns or
    panics. *)
Theorem Parse_declarations_terminates (sc : Strconv) (p : Parser) (fuel : nat) :
  (12 * length (unread p) <= fuel)%nat ->
  DeclGrammar.Parse sc fuel p <> OutOfFuel.
Proof.
  intros B. pose proof (parseDeclarations_returns sc fuel p B) as T.
  unfold DeclGrammar.Parse.
  destruct (DeclGrammar.parseDeclarations sc fuel p) as [e q|[]|];
    cbn; try discriminate. contradiction.
Qed.

Lemma Parse_declarations_terminates_witness :
  (12 * length (unread constName) <= 24)%nat
  /\ DeclGrammar.Parse noStrconv 24 constName <> OutOfFuel.
Proof.
  split; [cbn; lia|]. apply Parse_declarations_terminates. cbn. lia.
Defined.

(** X7: an error that [Parse] of the declaration grammar returns
    describes one token at or after the start of the input, as for the
    expression grammar. *)
Theorem Parse_declarations_error_describes_a_token (sc : Strconv)
    (fuel : nat) (p : Parser) (e : ParseError) :
  DeclGrammar.Parse sc fuel p = Returned None (Some e) ->
  blames [token.Var] p (thrown e).
Proof.
  unfold DeclGrammar.Parse. intros H.
  destruct (DeclGrammar.parseDeclarations sc fuel p) as [x q|v|] eqn:E;
    [discriminate H| |discriminate H].
  destruct v; cbn in H; try discriminate H;
    injection H as <-; exact (parseDeclarations_blames sc fuel _ _ E).
Qed.

Lemma Parse_declarations_error_describes_a_token_witness :
  blames [token.Var] loneConst
    (PSyntaxError (err atEnd [WTok token.Identifier])).
Proof.
  apply (Parse_declarations_error_describes_a_token noStrconv 12 loneConst
           (ErrSyntax (err atEnd [WTok token.Identifier]))).
  reflexivity.
Defined.

(** X8: [Parse] of the declaration grammar lets a panic through only as a
    string: "unimplemented" at a [var] token, or the complaint about a
    literal.  The calls of [Start] and [End] on a result type in
    [parseSignature] never go through a nil pointer. *)
Theorem Parse_declarations_repanics_with_a_string (sc : Strconv) (fuel : nat)
    (p : Parser) (v : PanicValue) :
  DeclGrammar.Parse sc fuel p = Repanicked v ->
  (exists s, v = PString s) /\ blames [token.Var] p v.
Proof.
  unfold DeclGrammar.Parse. intros H.
  destruct (DeclGrammar.parseDeclarations sc fuel p) as [x q|w|] eqn:E;
    [discriminate H| |discriminate H].
  pose proof (parseDeclarations_blames sc fuel _ _ E) as (q & A & D).
  destruct w; cbn in H; try discriminate H; injection H as <-.
  - split; [eauto|]. exists q. auto.
  - destruct D.
Qed.

Lemma Parse_declarations_repanics_with_a_string_witness :
  (exists s, PString "unimplemented" = PString s)
  /\ blames [token.Var] oneVar (PString "unimplemented").
Proof.
  apply (Parse_declarations_repanics_with_a_string noStrconv 12 oneVar).
  reflexivity.
Defined.
(** ** The symbol table *)

Lemma Bind_same_length (st : decl.store) (s : decl.addr) (n : string)
    (d : decl.Declaration) :
  length (fst (decl.Bind st s n d)) = length st.
Proof. apply Bind_grows. Qed.

(** X9: a name that is free in a table is bound by [Bind] without an
    error; [Find] from that table then answers with the declaration, and a
    second [Bind] of the name is refused with a [Redeclaration] whose
    [First] is that declaration, the store staying as it was. *)
Theorem Bind_then_Find (st : decl.store) (s : decl.addr) (tab : decl.symtab)
    (n : string) (d d' : decl.Declaration) (fuel : nat) :
  n <> "_" -> st !! s = Some tab -> decl.Decls tab !! n = None ->
  exists st',
    decl.Bind st s n d = (st', None)
    /\ decl.Find (S fuel) st' (Some s) n = decl.Found d
    /\ decl.Bind st' s n d' = (st', Some (decl.Redeclaration n d d')).
Proof.
  intros Hn Hs Hd. unfold decl.Bind.
  rewrite bool_decide_eq_false_2 by assumption. rewrite Hs, Hd.
  eexists. split; [reflexivity|].
  assert (Hl : (<[s:=decl.mkSymtab (decl.Up tab) (<[n:=d]> (decl.Decls tab))]> st)
               !! s
               = Some (decl.mkSymtab (decl.Up tab) (<[n:=d]> (decl.Decls tab))))
    by (apply list_lookup_insert_eq; eapply lookup_lt_Some; eauto).
  split.
  - cbn [decl.Find]. rewrite Hl. cbn [decl.Decls].
    now rewrite lookup_insert_eq.
  - rewrite Hl. cbn [decl.Decls]. now rewrite lookup_insert_eq.
Qed.

Lemma Bind_then_Find_witness :
  exists st',
    decl.Bind decl.initial decl.univ "x" aConst = (st', None)
    /\ decl.Find 1 st' (Some decl.univ) "x" = decl.Found aConst
    /\ decl.Bind st' decl.univ "x" (decl.DPredeclaredType decl.Int)
       = (st', Some (decl.Redeclaration "x" aConst
                       (decl.DPredeclaredType decl.Int))).
Proof.
  apply (Bind_then_Find decl.initial decl.univ decl.univScope "x" aConst
           (decl.DPredeclaredType decl.Int) 0).
  - discriminate.
  - reflexivity.
  - vm_compute. reflexivity.
Defined.

(** X10: [Bind] of a name changes what no other name resolves to: from
    every scope and with every depth of search, [Find] of a name other than
    the one bound answers as before. *)
Theorem Bind_keeps_other_names (st : decl.store) (s : decl.addr)
    (n m : string) (d : decl.Declaration) (fuel : nat) (a : option decl.addr) :
  m <> n ->
  decl.Find fuel (fst (decl.Bind st s n d)) a m = decl.Find fuel st a m.
Proof.
  intros Hm. unfold decl.Bind.
  case_bool_decide; [reflexivity|].
  destruct (st !! s) as [tab|] eqn:Hs; [|reflexivity].
  destruct (decl.Decls tab !! n) eqn:Hd; [reflexivity|].
  cbn [fst]. revert a.
  induction fuel as [|fuel IH]; intros [a|]; cbn [decl.Find]; try reflexivity.
  destruct (decide (a = s)) as [->|Hne].
  - rewrite list_lookup_insert_eq by (eapply lookup_lt_Some; eauto).
    rewrite Hs. cbn [decl.Decls decl.Up].
    rewrite lookup_insert_ne by congruence.
    destruct (decl.Decls tab !! m); [reflexivity | apply IH].
  - rewrite list_lookup_insert_ne by congruence.
    destruct (st !! a) as [tab'|]; [|reflexivity].
    destruct (decl.Decls tab' !! m); [reflexivity | apply IH].
Qed.

Lemma Bind_keeps_other_names_witness :
  decl.Find 1 (fst (decl.Bind decl.initial decl.univ "x" aConst))
    (Some decl.univ) "int"
  = decl.Find 1 decl.initial (Some decl.univ) "int".
Proof.
  apply (Bind_keeps_other_names decl.initial decl.univ "x" "int" aConst 1
           (Some decl.univ)).
  discriminate.
Defined.

Lemma extends_refl (st : decl.store) : extends st st.
Proof. intros a tab H. eauto. Qed.

Lemma extends_trans (st1 st2 st3 : decl.store) :
  extends st1 st2 -> extends st2 st3 -> extends st1 st3.
Proof.
  intros E1 E2 a tab H. destruct (E1 _ _ H) as (tab' & H' & U').
  destruct (E2 _ _ H') as (tab'' & H'' & U''). exists tab''. split; congruence.
Qed.

Lemma extends_snoc (st : decl.store) (x : decl.symtab) : extends st (st ++ [x]).
Proof.
  intros a tab H. exists tab. split; [|reflexivity].
  rewrite lookup_app_l; [exact H | eapply lookup_lt_Some; eauto].
Qed.

Lemma holds_snoc (st : decl.store) (x : decl.symtab) (syms : decl.addr)
    (seen : bindings) :
  holds st syms seen -> holds (st ++ [x]) syms seen.
Proof.
  intros (tab & Ht & Hf). exists tab. split; [|exact Hf].
  rewrite lookup_app_l; [exact Ht | eapply lookup_lt_Some; eauto].
Qed.

Lemma length_specBindings (file i : nat) (pkg : decl.addr)
    (ims : list decl.ImportSpec) :
  length (specBindings file i pkg ims) = length ims.
Proof.
  revert pkg. induction ims as [|im ims IH]; intros pkg; cbn; [reflexivity|].
  now rewrite IH.
Qed.

Lemma importSpecs_imported (ims : list decl.ImportSpec) :
  forall (b : decl.Binding) (syms : decl.addr) (file i : nat) (seen : bindings),
    holds (decl.tables b) syms seen ->
    imported syms seen (specBindings file i (length (decl.tables b)) ims)
      b (decl.importSpecs b syms file i ims).
Proof.
  induction ims as [|im ims IH]; intros b syms file i seen H;
    cbn [decl.importSpecs specBindings].
  - unfold imported. cbn. rewrite !app_nil_r, Nat.add_0_r.
    repeat split; auto using extends_refl. intros k Hk. lia.
  - unfold decl.makeSymtab.
    set (st1 := decl.tables b ++ [decl.mkSymtab (Some decl.univ) ∅]).
    set (p := decl.DPackageDecl
                (decl.mkPackageDecl (length (decl.tables b)) file i)).
    set (b0 := decl.mkBinding st1 (decl.errs b)).
    set (b1 := decl.bindIn b0 syms (decl.importName im) p).
    assert (Hsyms : (syms < length (decl.tables b))%nat).
    { destruct H as (tab & Ht & _). eapply lookup_lt_Some; eauto. }
    assert (H0 : holds (decl.tables b0) syms seen) by (now apply holds_snoc).
    destruct (bindIn_holds b0 syms seen (decl.importName im) p H0) as [H1 E1].
    destruct (bindIn_grows b0 syms (decl.importName im) p) as (G1 & L1 & K1).
    fold b1 in H1, E1, G1, L1, K1.
    assert (Ll : length (decl.tables b1) = S (length (decl.tables b))).
    { rewrite L1. unfold b0, st1. cbn. rewrite length_app. cbn. lia. }
    specialize (IH b1 syms file i _ H1). rewrite Ll in IH.
    destruct IH as (Ih & Ie & Il & Ix & Ik & In).
    unfold imported. cbn [length].
    split; [now rewrite <- app_assoc in Ih|].
    split.
    { rewrite Ie, E1. unfold b0. cbn [decl.errs].
      rewrite <- app_assoc. f_equal.
      symmetry. apply (redeclarations_app [(decl.importName im, p)] _ seen). }
    split; [rewrite Il, Ll; lia|].
    split.
    { eapply extends_trans; [|exact Ix].
      eapply extends_trans; [apply extends_snoc|]. apply G1. }
    split.
    { intros a Ha Hne. rewrite Ik by first [assumption | rewrite Ll; lia].
      rewrite K1 by assumption. unfold b0, st1. cbn.
      now apply lookup_app_l. }
    intros k Hk. destruct k as [|k].
    + rewrite Nat.add_0_r. rewrite Ik by first [lia | rewrite Ll; lia].
      rewrite K1 by lia. unfold b0, st1. cbn.
      rewrite lookup_app_r by lia. now rewrite Nat.sub_diag.
    + replace (length (decl.tables b) + S k)%nat
        with (S (length (decl.tables b)) + k)%nat by lia.
      rewrite <- Ll. apply In. lia.
Qed.

Lemma imported_trans (syms : decl.addr) (seen xs ys : bindings)
    (b1 b2 b3 : decl.Binding) :
  (syms < length (decl.tables b1))%nat ->
  imported syms seen xs b1 b2 -> imported syms (seen ++ xs) ys b2 b3 ->
  imported syms seen (xs ++ ys) b1 b3.
Proof.
  intros Hs (H1 & E1 & L1 & X1 & K1 & N1) (H2 & E2 & L2 & X2 & K2 & N2).
  unfold imported. rewrite length_app.
  split; [now rewrite app_assoc|].
  split; [rewrite E2, E1, redeclarations_app, app_assoc; reflexivity|].
  split; [lia|].
  split; [eapply extends_trans; eauto|].
  split.
  - intros a Ha Hne. rewrite K2 by first [assumption | lia]. now apply K1.
  - intros k Hk. destruct (decide (k < length xs)%nat) as [Hlt|Hge].
    + rewrite K2 by lia. now apply N1.
    + replace (length (decl.tables b1) + k)%nat
        with (length (decl.tables b2) + (k - length xs))%nat by lia.
      apply N2. lia.
Qed.

Lemma importDecls_imported (ds : list decl.ImportDecl) :
  forall (b : decl.Binding) (syms : decl.addr) (file i : nat) (seen : bindings),
    holds (decl.tables b) syms seen ->
    imported syms seen (importBindings file i (length (decl.tables b)) ds)
      b (decl.importDecls b syms file i ds).
Proof.
  induction ds as [|d ds IH]; intros b syms file i seen H;
    cbn [decl.importDecls importBindings].
  - unfold imported. cbn. rewrite !app_nil_r, Nat.add_0_r.
    repeat split; auto using extends_refl. intros k Hk. lia.
  - pose proof (importSpecs_imported (decl.Imports d) b syms file i seen H) as I1.
    assert (Hsyms : (syms < length (decl.tables b))%nat).
    { destruct H as (tab & Ht & _). eapply lookup_lt_Some; eauto. }
    eapply imported_trans; [exact Hsyms | exact I1 |].
    destruct I1 as (H1 & _ & L1 & _).
    rewrite length_specBindings in L1. rewrite <- L1.
    apply IH. exact H1.
Qed.

(** X11: [fileDecls] makes the scope of a file a new table below the
    package scope and binds the names the file imports in it, the first
    import of a name winning: the error it returns holds one [Redeclaration]
    for every later import of a name, and is nil when there is none.  Every
    import, also a refused one, gets a new empty table below the universe;
    no table that existed before is touched. *)
Theorem fileDecls_binds_imports (st : decl.store) (psyms : decl.addr)
    (file : nat) (f : decl.File) :
  let '(st', fsyms, err) := decl.fileDecls st psyms file f in
  let bs := importBindings file 0 (S (length st)) (decl.fileImports f) in
  fsyms = length st
  /\ length st' = (S (length st) + length bs)%nat
  /\ (forall a, (a < length st)%nat -> st' !! a = st !! a)
  /\ (exists tab,
        st' !! fsyms = Some tab /\ decl.Up tab = Some psyms
        /\ forall n, decl.Decls tab !! n = firstBound bs n)
  /\ (forall k, (k < length bs)%nat ->
        st' !! (S (length st) + k)%nat
        = Some (decl.mkSymtab (Some decl.univ) ∅))
  /\ err = decl.ErrorOrNil (redeclarations [] bs).
Proof.
  unfold decl.fileDecls, decl.makeSymtab.
  set (st1 := st ++ [decl.mkSymtab (Some psyms) ∅]).
  assert (Hnew : st1 !! length st = Some (decl.mkSymtab (Some psyms) ∅)).
  { unfold st1. rewrite lookup_app_r by lia. now rewrite Nat.sub_diag. }
  assert (Hl : length st1 = S (length st)).
  { unfold st1. rewrite length_app. cbn. lia. }
  assert (H0 : holds st1 (length st) []).
  { exists (decl.mkSymtab (Some psyms) ∅). split; [exact Hnew|].
    intros n. unfold firstBound. cbn. now case_bool_decide. }
  pose proof (importDecls_imported (decl.fileImports f)
                (decl.mkBinding st1 []) (length st) file 0 [] H0) as I.
  unfold imported in I. cbn [decl.tables decl.errs app] in I.
  rewrite Hl in I.
  destruct I as (Ih & Ie & Il & Ix & Ik & In).
  cbn zeta.
  split; [reflexivity|].
  split; [exact Il|].
  split.
  { intros a Ha. rewrite Ik by lia. unfold st1. now apply lookup_app_l. }
  split.
  { destruct Ih as (tab & Ht & Hf). exists tab. split; [exact Ht|].
    split; [|exact Hf].
    destruct (Ix _ _ Hnew) as (tab' & Ht' & Hu). cbn in Hu. congruence. }
  split; [exact In|].
  rewrite Ie. reflexivity.
Qed.

Lemma constNames_views (ids : list Identifier) :
  forall (b : decl.Binding) (psyms : decl.addr) (r : decl.NodeRef) (i : Z)
         (views : list decl.constSpecView),
    snd (decl.constNames b psyms r i views ids) = views ++ constViews r i ids.
Proof.
  induction ids as [|id ids IH]; intros b psyms r i views;
    cbn [decl.constNames constViews].
  - now rewrite app_nil_r.
  - rewrite IH, <- app_assoc. reflexivity.
Qed.

Lemma topLevel_annotated (b b' : decl.Binding) (psyms fsyms : decl.addr)
    (r : decl.NodeRef) (d d' : decl.TopLevel) :
  decl.topLevel b psyms fsyms r d = Some (b', d') -> d' = annotated fsyms r d.
Proof.
  destruct d as [id s|id s|id s|ids s views|ids s|]; cbn [decl.topLevel annotated];
    try (intros [= _ <-]; reflexivity); try discriminate.
  pose proof (constNames_views ids b psyms r 0 views) as V.
  destruct (decl.constNames b psyms r 0 views ids) as [b1 views1].
  cbn [snd] in V. intros [= _ <-]. now rewrite V.
Qed.

Lemma topLevels_annotated (ds : list decl.TopLevel) :
  forall (b b' : decl.Binding) (psyms fsyms : decl.addr) (file j : nat)
         (ds' : list decl.TopLevel),
    decl.topLevels b psyms fsyms file j ds = Some (b', ds') ->
    ds' = annotatedFrom fsyms file j ds.
Proof.
  induction ds as [|d ds IH]; intros b b' psyms fsyms file j ds';
    cbn [decl.topLevels annotatedFrom].
  - intros [= _ <-]. reflexivity.
  - destruct (decl.topLevel b psyms fsyms (decl.mkNodeRef file j) d)
      as [[b1 d1]|] eqn:E1; [|discriminate].
    destruct (decl.topLevels b1 psyms fsyms file (S j) ds) as [[b2 ds2]|] eqn:E2;
      [|discriminate].
    intros [= _ <-]. f_equal.
    + eapply topLevel_annotated; eauto.
    + eapply IH; eauto.
Qed.

Lemma eachFile_annotated (fs : list decl.File) :
  forall (b b' : decl.Binding) (psyms : decl.addr) (file : nat)
         (fs' : list decl.File),
    decl.eachFile b psyms file fs = Some (b', fs') ->
    length fs' = length fs
    /\ forall i f f', fs !! i = Some f -> fs' !! i = Some f' ->
         resolvedFile (file + i) f f'.
Proof.
  induction fs as [|f fs IH]; intros b b' psyms file fs'; cbn [decl.eachFile].
  - intros [= _ <-]. split; [reflexivity|]. intros i f f' H. discriminate H.
  - destruct (decl.fileDecls (decl.tables b) psyms file f) as [[st fsyms] err].
    destruct (decl.topLevels _ psyms fsyms file 0 (decl.fileDeclarations f))
      as [[b1 ds]|] eqn:E1; [|discriminate].
    destruct (decl.eachFile b1 psyms (S file) fs) as [[b2 rest]|] eqn:E2;
      [|discriminate].
    intros [= _ <-]. destruct (IH _ _ _ _ _ E2) as [Hl Hr].
    split; [cbn; now rewrite Hl|].
    intros [|i] g g' Hg Hg'; cbn in Hg, Hg'.
    + injection Hg as <-. injection Hg' as <-. rewrite Nat.add_0_r.
      split; [reflexivity|]. exists fsyms. split; [reflexivity|]. cbn.
      eapply topLevels_annotated; eauto.
    + replace (file + S i)%nat with (S file + i)%nat by lia. eauto.
Qed.

(** X12: resolution writes the same thing into the nodes whatever it
    binds: in the files [pkgDecls] leaves, every declaration has the scope
    of its file for [syms], and every [ConstSpec] has got one view for each
    of its identifiers, blank and redeclared ones too, numbered from 0 in
    order and unchecked; imports and the order of the declarations are as
    they were. *)
Theorem pkgDecls_annotates (files : list decl.File) :
  match decl.pkgDecls files with
  | decl.Bound st psyms files' err =>
      length files' = length files
      /\ forall i f f', files !! i = Some f -> files' !! i = Some f' ->
           resolvedFile i f f'
  | decl.Invalid _ => True
  end.
Proof.
  unfold decl.pkgDecls, decl.makeSymtab.
  destruct (decl.eachFile _ _ 0 files) as [[b files']|] eqn:E; [|exact I].
  exact (eachFile_annotated _ _ _ _ _ _ E).
Qed.

(** ** errors.go *)

Lemma append_cons (c : ascii) (s t : string) :
  String.append (String c s) t = String c (String.append s t).
Proof. reflexivity. Qed.

Lemma append_nil_r (s : string) : String.append s "" = s.
Proof.
  induction s as [|c s IH]; [reflexivity | now rewrite append_cons, IH].
Qed.

Lemma append_assoc (a b c : string) :
  String.append (String.append a b) c = String.append a (String.append b c).
Proof.
  induction a as [|x a IH]; [reflexivity | now rewrite !append_cons, IH].
Qed.

Lemma append_empty (a b : string) :
  String.append a b = "" -> a = "" /\ b = "".
Proof. destruct a; [auto | rewrite append_cons; discriminate]. Qed.

Lemma concat_line (a b : string) (l : list string) :
  String.concat newline (String.append a (String.append newline b) :: l)
  = String.append a (String.append newline (String.concat newline (b :: l))).
Proof.
  destruct l as [|y l]; cbn [String.concat]; [reflexivity|].
  now rewrite !append_assoc.
Qed.

Lemma Error_from {E} (render : E -> string) (es : list E) (s : string) :
  s <> "" ->
  fold_left (errors.addLine render) es s
  = String.concat newline (s :: map render es).
Proof.
  revert s. induction es as [|e es IH]; intros s Hs; cbn [fold_left map].
  - reflexivity.
  - assert (A : errors.addLine render s e
                = String.append s (String.append newline (render e))).
    { unfold errors.addLine. destruct (String.eqb_spec s ""); [contradiction|].
      now rewrite append_assoc. }
    rewrite A, IH.
    + apply concat_line.
    + intros H. apply append_empty in H as [H _]. contradiction.
Qed.

(** X13: [Error] of a slice of errors is the messages of its members joined
    by newlines, counted from the first message that is not empty: empty
    messages in front leave no line, later ones leave an empty line. *)
Theorem Error_joins_lines {E} (render : E -> string) (es : list E) :
  errors.Error render es
  = String.concat newline (fromFirstLine (map render es)).
Proof.
  unfold errors.Error.
  induction es as [|e es IH]; cbn [fold_left map fromFirstLine]; [reflexivity|].
  unfold errors.addLine at 2.
  change (String.append (if String.eqb "" "" then "" else _) (render e))
    with (render e).
  destruct (String.eqb_spec (render e) "") as [H|H].
  - rewrite H. exact IH.
  - now apply Error_from.
Qed.

(** X14: [ErrorOrNil] after any run of [Add] is nil exactly when every
    error added was nil; otherwise it is the errors that were not nil, in
    the order they were added. *)
Theorem Add_then_ErrorOrNil (added : list (option decl.error)) :
  decl.ErrorOrNil (fold_left errors.Add added [])
  = match present added with
    | [] => None
    | es => Some (decl.Errors es)
    end.
Proof.
  assert (H : forall acc, fold_left errors.Add added acc = acc ++ present added).
  { induction added as [|[e|] added IH]; intros acc; cbn.
    - now rewrite app_nil_r.
    - rewrite IH, <- app_assoc. reflexivity.
    - apply IH. }
  rewrite H. cbn. now destruct (present added).
Qed.

(** ** First tokens, calls and channels *)

Section Small.

Context (sc : Strconv).

Lemma parseOperand_first (fuel : nat) (p : Parser) (e : Expression) (q : Parser) :
  Grammar.parseOperand sc fuel p = Done e q -> operandFirst (tok p) = true.
Proof.
  destruct fuel as [|fuel]; [discriminate|]. cbn -[token.eqb].
  intros H. destruct (tok p); try discriminate H; reflexivity.
Qed.

Lemma parseUnaryExpr_first (fuel : nat) (p : Parser) (e : Expression)
    (q : Parser) :
  Grammar.parseUnaryExpr sc fuel p = Done e q -> expressionFirst (tok p) = true.
Proof.
  destruct fuel as [|fuel]; [discriminate|]. cbn -[token.eqb].
  intros H. unfold expressionFirst.
  destruct (unary (tok p)); [reflexivity|].
  destruct fuel as [|fuel]; [discriminate|]. cbn -[token.eqb] in H.
  apply bind_Done in H as (a & q' & E & H). eapply parseOperand_first; eauto.
Qed.

Lemma parseExpression_first (fuel : nat) (p : Parser) (e : Expression)
    (q : Parser) :
  Grammar.parseExpression sc fuel p = Done e q -> expressionFirst (tok p) = true.
Proof.
  destruct fuel as [|[|fuel]]; try discriminate. cbn -[token.eqb].
  intros H. apply bind_Done in H as (a & q' & E & H).
  eapply parseUnaryExpr_first; eauto.
Qed.

Lemma parseOperand_refuses (fuel : nat) (p : Parser) :
  operandFirst (tok p) = false ->
  Grammar.parseOperand sc (S fuel) p
  = Panicked (PSyntaxError (err p [WStr "operand"])).
Proof.
  intros H. cbn -[token.eqb].
  destruct (tok p); try discriminate H; reflexivity.
Qed.

Lemma parseExpression_refuses (fuel : nat) (p : Parser) :
  expressionFirst (tok p) = false ->
  Grammar.parseExpression sc (S (S (S (S (S fuel))))) p
  = Panicked (PSyntaxError (err p [WStr "operand"])).
Proof.
  unfold expressionFirst. intros H. apply orb_false_iff in H as [Hu Ho].
  change (Grammar.parseExpression sc (S (S (S (S (S fuel))))) p)
    with (bind (Grammar.parseUnaryExpr sc (S (S (S fuel))))
               (Grammar.parseBinaryExprLoop sc (S (S (S fuel))) 1) p).
  assert (U : Grammar.parseUnaryExpr sc (S (S (S fuel))) p
              = Grammar.parsePrimaryExpr sc (S (S fuel)) p).
  { cbn -[token.eqb Grammar.parsePrimaryExpr]. now rewrite Hu. }
  unfold bind. rewrite U.
  change (Grammar.parsePrimaryExpr sc (S (S fuel)) p)
    with (bind (Grammar.parseOperand sc (S fuel))
               (Grammar.parsePrimaryExprLoop sc (S fuel)) p).
  unfold bind. now rewrite parseOperand_refuses.
Qed.

(** X15: an input whose first token can begin no expression - no unary
    operator, name, literal or open parenthesis, the end of the input
    included - is refused by [Parse] with a syntax error that wants an
    operand and describes that very token. *)
Theorem Parse_wants_an_operand (p : Parser) (k : nat) :
  expressionFirst (tok p) = false ->
  Grammar.Parse sc (5 + k) p
  = Returned None (Some (ErrSyntax (err p [WStr "operand"]))).
Proof.
  intros H. unfold Grammar.Parse.
  change (5 + k)%nat with (S (S (S (S (S k))))).
  now rewrite parseExpression_refuses.
Qed.

Lemma parseExpressionList_nonempty (fuel : nat) :
  forall es p r q,
    Grammar.parseExpressionList sc fuel es p = Done r q ->
    exists e more, r = es ++ e :: more.
Proof.
  induction fuel as [|fuel IH]; intros es p r q H; [discriminate|].
  cbn -[token.eqb] in H. mstep H. mstep H.
  destruct (token.eqb _ token.Comma).
  - mstep H. destruct (IH _ _ _ _ H) as (e & more & ->).
    rewrite <- app_assoc. cbn. eauto.
  - mdone H. exists a, []. reflexivity.
Qed.

(** X16: a call that [parseCall] returns has at least one argument, and
    the token after its open parenthesis begins an expression: the
    expression grammar has no call without arguments. *)
Theorem parseCall_has_arguments (fuel : nat) (f : Expression) (p : Parser)
    (e : Expression) (q : Parser) :
  Grammar.parseCall sc fuel f p = Done e q ->
  expressionFirst (tok (advance p)) = true
  /\ exists arg more ddd openLoc closeLoc,
       e = ECall f (arg :: more) ddd openLoc closeLoc.
Proof.
  destruct fuel as [|fuel]; [discriminate|]. cbn -[token.eqb].
  intros H. mstep H. apply expect_Done in E as [-> T].
  mstep H. mstep H. apply next_Done in E as ->.
  mstep H. pose proof E as E'.
  apply parseExpressionList_nonempty in E as (arg & more & ->).
  split.
  - destruct fuel as [|fuel]; [discriminate|]. cbn -[token.eqb] in E'.
    mstep E'. eapply parseExpression_first; eauto.
  - mstep H. mstep H. mstep H. mstep H. mdone H. cbn. eauto 10.
Qed.

(** X17: a channel type that [parseChannelType] returns starts at the
    first token read and is of one of three kinds: receive-only when it
    began with [<-], send-only when [<-] follows [chan], and both ways
    otherwise.  No channel type is built that neither sends nor receives. *)
Theorem parseChannelType_direction (fuel : nat) (p : Parser) (ty : Typ)
    (q : Parser) :
  Grammar.parseChannelType sc fuel p = Done ty q ->
  exists send receive elem,
    ty = TChannelType send receive elem (lexStart p)
    /\ (send, receive)
       = (if token.eqb (tok p) token.LessMinus then (false, true)
          else if token.eqb (tok (advance p)) token.LessMinus
               then (true, false)
               else (true, true)).
Proof.
  destruct fuel as [|fuel]; [discriminate|].
  destruct (grammar_advances sc fuel) as (A & _).
  intros H. cbn -[token.eqb] in H.
  settle H;
    match goal with C : _ && _ = _ |- _ => cbn [andb] in C end;
    try discriminate;
    do 3 eexists; (split; [reflexivity|]);
    try match goal with
        | C : token.eqb (tok (advance _)) _ = _ |- _ => rewrite C
        end;
    reflexivity.
Qed.

End Small.

Lemma Parse_wants_an_operand_witness :
  Grammar.Parse noStrconv 5 atEnd
  = Returned None (Some (ErrSyntax (err atEnd [WStr "operand"]))).
Proof.
  apply (Parse_wants_an_operand noStrconv atEnd 0). reflexivity.
Defined.

Lemma parseCall_has_arguments_witness :
  expressionFirst (tok (advance callOfOneArgs)) = true
  /\ exists arg more ddd openLoc closeLoc,
       ECall (identAt columns 0 "f") [identAt columns 2 "a"] false
         (from columns 1) (upto columns 3)
       = ECall (identAt columns 0 "f") (arg :: more) ddd openLoc closeLoc.
Proof.
  apply (parseCall_has_arguments noStrconv 8 (identAt columns 0 "f")
           callOfOneArgs _ atEnd).
  reflexivity.
Defined.

Lemma parseChannelType_direction_witness :
  exists send receive elem,
    TChannelType true false (TTypeName "" "a" (spanAt columns 2))
      (from columns 0)
    = TChannelType send receive elem (lexStart sendOnly)
    /\ (send, receive)
       = (if token.eqb (tok sendOnly) token.LessMinus then (false, true)
          else if token.eqb (tok (advance sendOnly)) token.LessMinus
               then (true, false)
               else (true, true)).
Proof.
  apply (parseChannelType_direction noStrconv 3 sendOnly _ atEnd).
  reflexivity.
Defined.

(** ** Start and End of what the declaration grammar builds *)

Section Nodes.

Context (sc : Strconv).

Lemma exprEnd_answers (e : Expression) : exprEnd e <> None.
Proof.
  induction e; cbn [exprEnd]; try discriminate; assumption.
Qed.

Lemma parseIdentifierList_first (fuel : nat) :
  forall ids p r q,
    DeclGrammar.parseIdentifierList fuel ids p = Done r q ->
    exists more, r = ids ++ mkIdentifier (text p) (pspan p) :: more.
Proof.
  pose proof parseIdentifier_adv as Li.
  induction fuel as [|fuel IH]; intros ids p r q H; [discriminate|].
  cbn -[token.eqb] in H. unfold parseIdentifier in H at 1.
  apply bind_Done in H as (id & q1 & E & H).
  settle E. cbv beta in H. 
  apply bind_Done in H as (t & q2 & E & H). settle E.
  destruct (token.eqb _ token.Comma).
  - apply bind_Done in H as (u & q3 & E & H).
    destruct (IH _ _ _ _ H) as (more & ->).
    rewrite <- app_assoc. cbn. eauto.
  - mdone H. exists []. reflexivity.
Qed.

Lemma decl_parseExpressionList_nonempty (fuel : nat) :
  forall es p r q,
    DeclGrammar.parseExpressionList sc fuel es p = Done r q ->
    exists e more, r = es ++ e :: more.
Proof.
  induction fuel as [|fuel IH]; intros es p r q H; [discriminate|].
  cbn -[token.eqb] in H.
  apply bind_Done in H as (e & q1 & E & H).
  apply bind_Done in H as (t & q2 & E2 & H). apply peek_Done in E2 as [-> ->].
  destruct (token.eqb _ token.Comma).
  - apply bind_Done in H as (u & q3 & E3 & H).
    destruct (IH _ _ _ _ H) as (e' & more & ->).
    rewrite <- app_assoc. cbn. eauto.
  - mdone H. exists e, []. reflexivity.
Qed.

Lemma parseConstSpec_start (fuel : nat) (p : Parser) (cs : ConstSpec)
    (q : Parser) :
  DeclGrammar.parseConstSpec sc fuel p = Done cs q ->
  constSpecStart cs = Some (lexStart p).
Proof.
  intros H. unfold DeclGrammar.parseConstSpec in H.
  apply bind_Done in H as (cmnts & q0 & E & H). apply peek_Done in E as [-> ->].
  apply bind_Done in H as (names & q1 & E & H).
  apply parseIdentifierList_first in E as (more & ->).
  apply bind_Done in H as (t & q2 & E & H). apply peek_Done in E as [-> ->].
  apply bind_Done in H as (ty & q2 & E & H).
  apply bind_Done in H as (t & q3 & E3 & H). apply peek_Done in E3 as [-> ->].
  apply bind_Done in H as (values & q3 & E3 & H). mdone H.
  reflexivity.
Qed.

(** X18: a const spec that [parseConstSpec] returns starts at the first
    token read, so [Start] never fails on it; [End], which reads the last
    value, answers exactly when the spec has values; and the spec has values
    exactly when [=] follows its names and type.  So whenever no [=] follows
    them the spec has no values, the parse stops there, and [End] panics
    with an index out of range. *)
Theorem parseConstSpec_start_and_end (fuel : nat) (p : Parser) (cs : ConstSpec)
    (q : Parser) :
  DeclGrammar.parseConstSpec sc fuel p = Done cs q ->
  constSpecStart cs = Some (lexStart p)
  /\ (constSpecEnd cs = None <-> csValues cs = [])
  /\ (exists q2,
        afterNamesAndType sc fuel p = Some q2
        /\ (tok q2 <> token.Equal <-> csValues cs = [])
        /\ (tok q2 <> token.Equal -> q = q2 /\ constSpecEnd cs = None))
  /\ (csValues cs = [] -> tok q <> token.Equal).
Proof.
  intros H. split; [exact (parseConstSpec_start _ _ _ _ H)|].
  unfold DeclGrammar.parseConstSpec in H.
  apply bind_Done in H as (cmnts & q0 & E & H). apply peek_Done in E as [-> ->].
  apply bind_Done in H as (names & q1 & E & H).
  apply bind_Done in H as (t & q2 & E1 & H). apply peek_Done in E1 as [-> ->].
  apply bind_Done in H as (ty & q2 & E2 & H).
  apply bind_Done in H as (t & q3 & E3 & H). apply peek_Done in E3 as [-> ->].
  apply bind_Done in H as (values & q3 & E3 & H). mdone H.
  cbn [csValues].
  assert (A : afterNamesAndType sc fuel p = Some q2).
  { unfold afterNamesAndType. rewrite E.
    destruct (typeFirst (tok q1)).
    - apply bind_Done in E2 as (ty' & q' & E2 & R). mdone R. now rewrite E2.
    - now mdone E2. }
  assert (N : constSpecEnd (mkConstSpec (comments p) ty names values) = None
              <-> values = []).
  { unfold constSpecEnd. cbn [csValues]. split.
    - intros N. destruct (last values) as [v|] eqn:L.
      + now apply exprEnd_answers in N.
      + now apply last_None in L.
    - intros V. rewrite V. reflexivity. }
  assert (V : (tok q2 <> token.Equal -> values = [] /\ q3 = q2)
              /\ (values = [] -> tok q2 <> token.Equal /\ q3 = q2)).
  { destruct (token.eqb (tok q2) token.Equal) eqn:T.
    - apply bind_Done in E3 as (u & q4 & E4 & E3).
      apply decl_parseExpressionList_nonempty in E3 as (e & m & E3).
      apply token_eqb_eq in T. split.
      + intros X. contradiction.
      + intros X. rewrite X in E3. discriminate E3.
    - apply ret_Done in E3 as [-> ->]. apply token_eqb_neq in T. auto. }
  destruct V as [V1 V2].
  split; [exact N|]. split.
  - exists q2. split; [exact A|]. split.
    + split; [intros X; exact (proj1 (V1 X)) | intros X; exact (proj1 (V2 X))].
    + intros X. destruct (V1 X) as [Y ->]. split; [reflexivity|].
      now apply N.
  - intros X. destruct (V2 X) as [Y ->]. exact Y.
Qed.

Lemma parseConstSpec_started (fuel : nat) (p : Parser) (cs : ConstSpec)
    (q : Parser) :
  DeclGrammar.parseConstSpec sc fuel p = Done cs q -> constSpecStart cs <> None.
Proof.
  intros H. apply parseConstSpec_start in H.
  rewrite H. discriminate.
Qed.

Lemma parseConstSpecs_first (fuel : nat) :
  forall acc p r q,
    DeclGrammar.parseConstSpecs sc fuel acc p = Done r q ->
    (tok p = token.CloseParen /\ r = acc)
    \/ (tok p <> token.CloseParen
        /\ exists cs more,
             r = acc ++ DConstSpec cs :: more /\ constSpecStart cs <> None).
Proof.
  induction fuel as [|fuel IH]; intros acc p r q H; [discriminate|].
  cbn -[token.eqb DeclGrammar.parseConstSpec] in H.
  destruct (token.eqb (tok p) token.CloseParen) eqn:T; cbn [negb] in H.
  - left. mdone H. split; [now apply token_eqb_eq | reflexivity].
  - right. split; [now apply token_eqb_neq|].
    apply bind_Done in H as (cs & q1 & E & H).
    apply parseConstSpec_started in E.
    assert (L : exists q', DeclGrammar.parseConstSpecs sc fuel
                             (acc ++ [DConstSpec cs]) q' = Done r q).
    { apply bind_Done in H as (t & q2 & E2 & H).
      apply peek_Done in E2 as [-> ->].
      destruct (token.eqb (tok q1) token.Semicolon).
      - apply bind_Done in H as (u & q3 & _ & H). cbv beta in H. eauto.
      - eauto. }
    destruct L as (q' & L).
    destruct (IH _ _ _ _ L) as [[_ ->]|(_ & cs' & more & -> & _)].
    + exists cs, []. auto.
    + exists cs, (DConstSpec cs' :: more). rewrite <- app_assoc. auto.
Qed.

Lemma parseTypeSpecs_first (fuel : nat) :
  forall acc p r q,
    DeclGrammar.parseTypeSpecs sc fuel acc p = Done r q ->
    (tok p = token.CloseParen /\ r = acc)
    \/ (tok p <> token.CloseParen
        /\ exists ts more, r = acc ++ DTypeSpec ts :: more).
Proof.
  induction fuel as [|fuel IH]; intros acc p r q H; [discriminate|].
  cbn -[token.eqb DeclGrammar.parseTypeSpec] in H.
  destruct (token.eqb (tok p) token.CloseParen) eqn:T; cbn [negb] in H.
  - left. mdone H. split; [now apply token_eqb_eq | reflexivity].
  - right. split; [now apply token_eqb_neq|].
    apply bind_Done in H as (ts & q1 & E & H).
    assert (L : exists q', DeclGrammar.parseTypeSpecs sc fuel
                             (acc ++ [DTypeSpec ts]) q' = Done r q).
    { apply bind_Done in H as (t & q2 & E2 & H).
      apply peek_Done in E2 as [-> ->].
      destruct (token.eqb (tok q1) token.Semicolon).
      - apply bind_Done in H as (u & q3 & _ & H). cbv beta in H. eauto.
      - eauto. }
    destruct L as (q' & L).
    destruct (IH _ _ _ _ L) as [[_ ->]|(_ & ts' & more & ->)].
    + exists ts, []. auto.
    + exists ts, (DTypeSpec ts' :: more). rewrite <- app_assoc. auto.
Qed.

(** X19: the declarations that [parseDeclarations] returns are an empty
    list, on which [Start] panics with an index out of range, exactly when
    the input is a group with nothing in it: [const ( )] or [type ( )].
    Every other list it returns has a first declaration that [Start]
    answers for. *)
Theorem parseDeclarations_empty_group (fuel : nat) (p : Parser)
    (ds : Declarations) (q : Parser) :
  DeclGrammar.parseDeclarations sc fuel p = Done ds q ->
  (ds = [] <-> declarationsStart ds = None)
  /\ (ds = []
      <-> tok (advance p) = token.OpenParen
          /\ tok (advance (advance p)) = token.CloseParen).
Proof.
  intros H. unfold DeclGrammar.parseDeclarations in H.
  apply bind_Done in H as (t & q0 & E & H). apply peek_Done in E as [-> ->].
  destruct (tok p) eqn:T; try discriminate H.
  - (* type *)
    unfold DeclGrammar.parseTypeDecl in H.
    apply bind_Done in H as (u & q0 & E & H). apply expect_Done in E as [-> _].
    apply bind_Done in H as (c & q0 & E & H). apply peek_Done in E as [-> ->].
    apply bind_Done in H as (u' & q0 & E & H). apply next_Done in E as ->.
    apply bind_Done in H as (t & q0 & E & H). apply peek_Done in E as [-> ->].
    destruct (token.eqb (tok (advance p)) token.OpenParen) eqn:O; cbn [negb] in H.
    + apply token_eqb_eq in O.
      apply bind_Done in H as (u2 & q0 & E & H). apply next_Done in E as ->.
      apply bind_Done in H as (decls & q1 & E & H).
      apply bind_Done in H as (u3 & q2 & _ & H). mdone H.
      apply parseTypeSpecs_first in E as [[C ->]|(C & ts & more & ->)].
      * cbn. tauto.
      * cbn. split; split; try discriminate; tauto.
    + apply token_eqb_neq in O.
      apply bind_Done in H as (ts & q1 & E & H). mdone H.
      cbn. split; split; try discriminate; tauto.
  - (* const *)
    unfold DeclGrammar.parseConstDecl in H.
    apply bind_Done in H as (u & q0 & E & H). apply expect_Done in E as [-> _].
    apply bind_Done in H as (c & q0 & E & H). apply peek_Done in E as [-> ->].
    apply bind_Done in H as (u' & q0 & E & H). apply next_Done in E as ->.
    apply bind_Done in H as (t & q0 & E & H). apply peek_Done in E as [-> ->].
    destruct (token.eqb (tok (advance p)) token.OpenParen) eqn:O; cbn [negb] in H.
    + apply token_eqb_eq in O.
      apply bind_Done in H as (u2 & q0 & E & H). apply next_Done in E as ->.
      apply bind_Done in H as (decls & q1 & E & H).
      apply bind_Done in H as (u3 & q2 & _ & H). mdone H.
      apply parseConstSpecs_first in E as [[C ->]|(C & cs & more & -> & S)].
      * cbn. tauto.
      * cbn. split; split; try discriminate; try tauto.
    + apply token_eqb_neq in O.
      apply bind_Done in H as (cs & q1 & E & H). mdone H.
      apply parseConstSpec_started in E.
      cbn. unfold constSpecStart in *. cbn [csNames].
      split; split; try discriminate; try tauto.
Qed.

Lemma parseFieldIdentifiers_prefix (fuel : nat) :
  forall ids p r q,
    DeclGrammar.parseFieldIdentifiers fuel ids p = Done r q ->
    exists more, r = ids ++ more.
Proof.
  induction fuel as [|fuel IH]; intros ids p r q H; [discriminate|].
  cbn -[token.eqb] in H.
  destruct (token.eqb (tok p) token.Comma).
  - apply bind_Done in H as (u & q1 & _ & H).
    apply bind_Done in H as (id & q2 & _ & H).
    destruct (IH _ _ _ _ H) as (more & ->).
    rewrite <- app_assoc. eauto.
  - mdone H. exists []. now rewrite app_nil_r.
Qed.

(** X20: a field that [parseFieldDecl] returns starts at the first token
    read, unless it is an embedded pointer [*T]: the pointer type of such a
    field is built without the location of its star, so [Start] answers
    with the zero location wherever the field is. *)
Theorem parseFieldDecl_start (fuel : nat) (p : Parser) (fd : FieldDecl)
    (q : Parser) :
  DeclGrammar.parseFieldDecl sc fuel p = Done fd q ->
  fieldDeclStart fd
  = Some (if token.eqb (tok p) token.Star then token.zero else lexStart p).
Proof.
  destruct fuel as [|fuel]; [discriminate|].
  destruct (declGrammar_advances sc fuel) as (A & _).
  pose proof parseTypeName_adv as Lt.
  pose proof (parseStringLiteral_adv sc) as Ls.
  pose proof parseFieldIdentifiers_adv as Lf.
  pose proof parseFieldIdentifiers_prefix as Pf.
  cbn -[token.eqb]. intros H. unfold parseIdentifier in H.
  settle_gen ltac:(fun E => learn_about (@app Identifier) E) H;
    try match goal with K : exists _, _ = _ |- _ => destruct K as (? & ->) end;
    reflexivity.
Qed.

End Nodes.

Lemma parseConstSpec_start_and_end_witness :
  constSpecStart (mkConstSpec [] None [mkIdentifier "a" (spanAt columns 1)] [])
  = Some (lexStart nameAfterConst)
  /\ (constSpecEnd
        (mkConstSpec [] None [mkIdentifier "a" (spanAt columns 1)] []) = None
      <-> csValues
            (mkConstSpec [] None [mkIdentifier "a" (spanAt columns 1)] []) = [])
  /\ (exists q2,
        afterNamesAndType noStrconv 3 nameAfterConst = Some q2
        /\ (tok q2 <> token.Equal
            <-> csValues
                  (mkConstSpec [] None [mkIdentifier "a" (spanAt columns 1)] [])
                = [])
        /\ (tok q2 <> token.Equal
            -> atEnd = q2
               /\ constSpecEnd
                    (mkConstSpec [] None [mkIdentifier "a" (spanAt columns 1)] [])
                  = None))
  /\ (csValues (mkConstSpec [] None [mkIdentifier "a" (spanAt columns 1)] [])
      = [] -> tok atEnd <> token.Equal).
Proof.
  apply (parseConstSpec_start_and_end noStrconv 3 nameAfterConst _ atEnd).
  reflexivity.
Defined.

Lemma parseDeclarations_empty_group_witness :
  (@nil Declaration = [] <-> declarationsStart [] = None)
  /\ (@nil Declaration = []
      <-> tok (advance emptyGroup) = token.OpenParen
          /\ tok (advance (advance emptyGroup)) = token.CloseParen).
Proof.
  apply (parseDeclarations_empty_group noStrconv 3 emptyGroup [] atEnd).
  reflexivity.
Defined.

Lemma parseFieldDecl_start_witness :
  fieldDeclStart
    (mkFieldDecl [] (TPointerType (TTypeName "" "T" (spanAt columns 1)) token.zero)
       None)
  = Some (if token.eqb (tok embeddedPointer) token.Star then token.zero
          else lexStart embeddedPointer).
Proof.
  apply (parseFieldDecl_start noStrconv 3 embeddedPointer _ atEnd).
  reflexivity.
Defined.

Lemma noParens_adv (k : nat) (p q : Parser) :
  adv k p q -> noParens p -> noParens q.
Proof.
  intros (_ & used & E & _) N. unfold noParens in *. rewrite E in N.
  now apply Forall_app in N as [_ N].
Qed.

Lemma noParens_tok (p : Parser) : noParens p -> tok p <> token.OpenParen.
Proof.
  unfold noParens, tok, lex. destruct (unread p) as [|l rest]; intros N.
  - discriminate.
  - now inversion N.
Qed.

Lemma primary_notBinary (e : Expression) : primary e = true -> notBinary e = true.
Proof. destruct e; auto. Qed.

Lemma notBinary_binds (min : Z) (e : Expression) :
  notBinary e = true -> bindsAtLeast min e = true.
Proof. destruct e; auto; discriminate. Qed.

Lemma climbed_withOpenLoc (o : Location) (e : Expression) :
  climbed (withOpenLoc o e) = climbed e.
Proof. destruct e; reflexivity. Qed.

Lemma primary_withOpenLoc (o : Location) (e : Expression) :
  primary (withOpenLoc o e) = primary e.
Proof. destruct e; reflexivity. Qed.

(** The input has no parentheses at [q], a cursor reached from the start. *)
Ltac still_noParens :=
  match goal with
  | N : noParens ?p0 |- noParens ?q =>
      apply (noParens_adv 0 p0 q); [chain | exact N]
  end.

Ltac split_facts :=
  repeat match goal with
         | K : _ /\ _ |- _ => destruct K
         end.

Ltac climb_facts :=
  rewrite ?climbed_withOpenLoc, ?primary_withOpenLoc;
  cbn [climbed primary notBinary optional];
  repeat match goal with
         | K : ?x = true |- context [?x] => rewrite K
         end;
  first [ reflexivity
        | assumption
        | apply primary_notBinary; assumption
        | apply notBinary_binds; assumption
        | apply notBinary_binds; apply primary_notBinary; assumption ].

Ltac learn_climb E :=
  try (let K := fresh "K" in
       pose proof E as K;
       match goal with
       | Y : ?T |- _ =>
           lazymatch T with context [climbed] => idtac end;
           apply Y in K;
           [ split_facts | solve [still_noParens | intros; climb_facts | eauto] .. ]
       end).

(** A token test that found an open parenthesis: the input has none. *)
Ltac no_paren_here :=
  exfalso;
  match goal with
  | C : tok ?q = token.OpenParen |- _ =>
      apply (noParens_tok q); [still_noParens | exact C]
  | C : token.eqb (tok ?q) token.OpenParen = true |- _ =>
      apply token_eqb_eq in C; apply (noParens_tok q); [still_noParens | exact C]
  end.

Section Climbing.

Context (sc : Strconv).

Lemma parseIntegerLiteral_primary (p : Parser) (e : Expression) (q : Parser) :
  parseIntegerLiteral p = Done e q -> primary e = true /\ climbed e = true.
Proof. intros H. unfold parseIntegerLiteral in H. settle H. auto. Qed.

Lemma parseFloatLiteral_primary (p : Parser) (e : Expression) (q : Parser) :
  parseFloatLiteral p = Done e q -> primary e = true /\ climbed e = true.
Proof. intros H. unfold parseFloatLiteral in H. settle H. auto. Qed.

Lemma parseImaginaryLiteral_primary (p : Parser) (e : Expression) (q : Parser) :
  parseImaginaryLiteral p = Done e q -> primary e = true /\ climbed e = true.
Proof. intros H. unfold parseImaginaryLiteral in H. settle H. auto. Qed.

Lemma parseRuneLiteral_primary (p : Parser) (e : Expression) (q : Parser) :
  parseRuneLiteral sc p = Done e q -> primary e = true /\ climbed e = true.
Proof. intros H. unfold parseRuneLiteral in H. settle H. auto. Qed.

Lemma grammar_climbs (fuel : nat) : Climbs sc fuel.
Proof.
  pose proof parseIntegerLiteral_primary as P1.
  pose proof parseFloatLiteral_primary as P2.
  pose proof parseImaginaryLiteral_primary as P3.
  pose proof parseRuneLiteral_primary as P4.
  pose proof parseIdentifier_adv as Li.
  pose proof parseIntegerLiteral_adv as L1.
  pose proof parseFloatLiteral_adv as L2.
  pose proof parseImaginaryLiteral_adv as L3.
  pose proof (parseRuneLiteral_adv sc) as L4.
  pose proof (parseStringLiteral_adv sc) as L5.
  induction fuel as [|fuel IH].
  - unfold Climbs. conjuncts; intros; discriminate.
  - destruct (grammar_advances sc fuel)
      as (A1 & A2 & A3 & A4 & A5 & A6 & A7 & A8
          & A9 & A10 & A11 & A12 & A13 & A14 & A15 & A16
          & A17 & A18 & A19 & A20 & A21).
    destruct IH as (I1 & I2 & I3 & I4 & I5 & I6 & I7 & I8 & I9 & I10).
    unfold Climbs. conjuncts.
    + (* parseExpression *)
      intros p e q H N. cbn -[token.eqb] in H.
      settle_gen ltac:(fun E => learn_climb E) H. assumption.
    + (* parseBinaryExpr *)
      intros prec p e q H N. cbn -[token.eqb] in H.
      settle_gen ltac:(fun E => learn_climb E) H. auto.
    + (* parseBinaryExprLoop *)
      intros prec left p e q H N Cl Bl Nx. cbn -[token.eqb] in H.
      destruct (precedence (tok p)) as [pr|] eqn:P.
      2:{ mdone H. repeat split; auto. intros pr' P'. congruence. }
      destruct (pr <? prec) eqn:Lt.
      { mdone H. repeat split; auto. intros pr' P'.
        apply Z.ltb_lt in Lt. congruence. }
      apply Z.ltb_ge in Lt. cbv beta in H.
      apply bind_Done in H as (opLoc & q0 & E & H). apply peek_Done in E as [-> ->].
      apply bind_Done in H as (u & q1 & E & H). settle E.
      apply bind_Done in H as (right & q2 & E & H).
      pose proof (I2 _ _ _ _ E) as (Cr & Br & Nr); [still_noParens|].
      apply A11 in E.
      eapply I3 in H; [exact H | still_noParens | | |].
      * cbn [climbed]. rewrite P, (Nx _ eq_refl), Br, Cl, Cr. reflexivity.
      * cbn [bindsAtLeast]. rewrite P. now apply Z.leb_le.
      * intros pr' P'. cbn [bindsAtLeast]. rewrite P.
        apply Z.leb_le. specialize (Nr _ P'). lia.
    + (* parseUnaryExpr *)
      intros p e q H N. cbn -[token.eqb] in H.
      settle_gen ltac:(fun E => learn_climb E) H.
      * split; [reflexivity|]. cbn [climbed]. climb_facts.
      * split; [now apply primary_notBinary | assumption].
    + (* parsePrimaryExpr *)
      intros p e q H N. cbn -[token.eqb] in H.
      settle_gen ltac:(fun E => learn_climb E) H. auto.
    + (* parsePrimaryExprLoop *)
      intros left p e q H N Pl Cl. cbn -[token.eqb] in H.
      settle_gen ltac:(fun E => learn_climb E) H;
        try solve [no_paren_here]; auto.
    + (* parseSliceOrIndex *)
      intros left p e q H N Pl Cl. cbn -[token.eqb] in H.
      settle_gen ltac:(fun E => learn_climb E) H;
        try solve [no_paren_here]; (split; climb_facts).
    + (* parseSliceHighMax *)
      intros left low p e q H N Pl Cl Ol. cbn -[token.eqb] in H.
      settle_gen ltac:(fun E => learn_climb E) H;
        try solve [no_paren_here]; (split; climb_facts).
    + (* parseOperand *)
      intros p e q H N. cbn -[token.eqb] in H.
      settle_gen ltac:(fun E => learn_climb E) H;
        try solve [no_paren_here]; auto.
    + (* parseSelectorOrTypeAssertion *)
      intros left p e q H N Pl Cl. cbn -[token.eqb] in H.
      settle_gen ltac:(fun E => learn_climb E) H;
        try solve [no_paren_here]; first [solve [auto] | split; climb_facts].
Qed.

End Climbing.

(** X21: precedence climbing, for every input.  The tree that [Parse]
    returns for an input without parentheses is the one precedence and left
    associativity give: under a binary operator the left operand binds at
    least as tightly and the right operand more tightly than the operator,
    a unary operator applies to no binary operation, and what is indexed,
    sliced or selected from is no operation. *)
Theorem Parse_climbs_precedence (sc : Strconv) (fuel : nat) (p : Parser)
    (e : Expression) :
  noParens p ->
  Grammar.Parse sc fuel p = Returned (Some (NExpression e)) None ->
  climbed e = true.
Proof.
  intros N H. unfold Grammar.Parse in H.
  destruct (Grammar.parseExpression sc fuel p) as [x q|v|] eqn:E.
  - injection H as <-.
    destruct (grammar_climbs sc fuel) as (C & _). exact (C _ _ _ E N).
  - destruct v; discriminate H.
  - discriminate H.
Qed.

Lemma Parse_climbs_precedence_witness :
  climbed
    (EBinaryOp token.Plus (from columns 1) (identAt columns 0 "a")
       (EBinaryOp token.Star (from columns 3) (identAt columns 2 "b")
          (identAt columns 4 "c")))
  = true.
Proof.
  apply (Parse_climbs_precedence noStrconv 12 sumOfProduct).
  - repeat constructor; discriminate.
  - reflexivity.
Defined.

Lemma le_refl (a : Location) : token.le a a.
Proof.
  unfold token.le, token.leb. rewrite Z.eqb_refl, Z.leb_refl.
  apply orb_true_r.
Qed.

Lemma le_trans (a b c : Location) : token.le a b -> token.le b c -> token.le a c.
Proof.
  unfold token.le, token.leb. intros H1 H2.
  apply orb_true_iff in H1. apply orb_true_iff in H2. apply orb_true_iff.
  rewrite andb_true_iff in *. rewrite !Z.ltb_lt, !Z.eqb_eq, !Z.leb_le in *.
  lia.
Qed.

Lemma ordered_advance (p : Parser) : ordered p -> ordered (advance p).
Proof.
  unfold ordered, advance. cbn. destruct (unread p) as [|l rest]; cbn; tauto.
Qed.

Lemma ordered_adv (k : nat) (p q : Parser) : adv k p q -> ordered p -> ordered q.
Proof.
  intros (E & used & U & _). unfold ordered. rewrite U, E. clear.
  induction used as [|l used IH]; cbn [app orderedFrom]; tauto.
Qed.

Lemma ordered_token (p : Parser) :
  ordered p -> tok p <> token.EOF ->
  token.le (lexStart p) (lexEnd p)
  /\ token.le (lexEnd p) (lexStart (advance p)).
Proof.
  intros O T. destruct (tok_unread p T) as (l & rest & E).
  unfold ordered in O. unfold lexStart, lexEnd, lex, advance. rewrite E in *.
  cbn in *. destruct O as (O1 & O2 & _). split; [exact O1|].
  destruct rest; exact O2.
Qed.

Lemma orderedFrom_app (used rest : list Lexeme) (eof : Location) :
  orderedFrom (used ++ rest) eof ->
  forall l, head used = Some l ->
    token.le (lstart l)
      (match rest with
       | [] => eof
       | l' :: _ => lstart l'
       end).
Proof.
  revert rest. induction used as [|x used IH]; intros rest O l H; [discriminate|].
  cbn in H. injection H as <-. cbn [app orderedFrom] in O.
  destruct O as (O1 & O2 & O3).
  destruct used as [|y used].
  - cbn in O2. eapply le_trans; eauto.
  - cbn [app] in O2. eapply le_trans; [exact O1|]. eapply le_trans; [exact O2|].
    apply (IH rest O3 y). reflexivity.
Qed.

Lemma ordered_le (k : nat) (p q : Parser) :
  adv k p q -> ordered p -> token.le (lexStart p) (lexStart q).
Proof.
  intros (E & used & U & _) O. unfold ordered in O.
  unfold lexStart, lex. rewrite U in *. rewrite E.
  destruct used as [|l used]; cbn [app].
  - apply le_refl.
  - pose proof (orderedFrom_app (l :: used) (unread q) (eofAt p) O l eq_refl) as H.
    destruct (unread q); exact H.
Qed.

Lemma spans_wider (lo lo' hi hi' : Location) (e : Expression) :
  spans lo hi e -> token.le lo' lo -> token.le hi hi' -> spans lo' hi' e.
Proof.
  intros (s & t & Hs & Ht & L1 & L2 & L3) A B. exists s, t.
  repeat split; auto; eapply le_trans; eauto.
Qed.

Lemma within_wider (lo lo' hi hi' : Location) (e : Expression) :
  within lo hi e -> token.le lo' lo -> token.le hi hi' -> within lo' hi' e.
Proof. intros [S N] A B. split; [eapply spans_wider; eauto | exact N]. Qed.

Lemma contains_intro (node child : Expression) (s t s' t' : Location) :
  exprStart node = Some s -> exprEnd node = Some t ->
  exprStart child = Some s' -> exprEnd child = Some t' ->
  token.le s s' -> token.le s' t' -> token.le t' t ->
  contains node child = true.
Proof.
  intros E3 E4 E1 E2 A B C. unfold contains. rewrite E1, E2, E3, E4. cbn.
  unfold token.le in *. now rewrite A, B, C.
Qed.

Lemma nested_withOpenLoc (o : Location) (e : Expression) :
  nested (withOpenLoc o e) = nested e.
Proof. destruct e; reflexivity. Qed.

Lemma exprStart_withOpenLoc (o : Location) (e : Expression) :
  exprStart (withOpenLoc o e) = exprStart e.
Proof. destruct e; reflexivity. Qed.

Lemma exprEnd_withOpenLoc (o : Location) (e : Expression) :
  exprEnd (withOpenLoc o e) = exprEnd e.
Proof. destruct e; reflexivity. Qed.

Lemma within_withOpenLoc (lo hi o : Location) (e : Expression) :
  within lo hi e -> within lo hi (withOpenLoc o e).
Proof.
  unfold within, spans.
  now rewrite nested_withOpenLoc, exprStart_withOpenLoc, exprEnd_withOpenLoc.
Qed.

(** The arguments of a call lie between its parentheses. *)
Lemma call_arguments (f : Expression) (args : list Expression) (ddd : bool)
    (openLoc closeLoc s lo hi : Location) :
  exprStart f = Some s -> token.le s lo -> token.le hi closeLoc ->
  Forall (within lo hi) args ->
  forallb (fun c => contains (ECall f args ddd openLoc closeLoc) c && nested c) args
  = true.
Proof.
  intros Hs A B F. apply forallb_forall. intros c I.
  destruct (proj1 (List.Forall_forall _ _) F c I)
    as ((s' & t' & Hs' & Ht' & L1 & L2 & L3) & N).
  rewrite N, andb_true_r.
  apply (contains_intro _ c s closeLoc s' t'); auto;
    eapply le_trans; eauto.
Qed.

(** The tokens are in order at [q], a cursor reached from the start. *)
Ltac still_ordered :=
  match goal with
  | O : ordered ?p0 |- ordered ?q =>
      first [exact O | apply (ordered_adv 0 p0 q); [chain | exact O]]
  end.

(** Adds what the order of the tokens says of the cursors of the context. *)
Ltac order_facts :=
  repeat match goal with
         | A : adv _ ?a ?b |- _ =>
             lazymatch goal with
             | _ : token.le (lexStart a) (lexStart b) |- _ => fail
             | _ => idtac
             end;
             let Oa := fresh "O" in
             assert (Oa : ordered a) by still_ordered;
             pose proof (ordered_le _ a b A Oa);
             try (lazymatch b with advance a => idtac end;
                  let T := fresh "T" in
                  assert (T : tok a <> token.EOF) by nonEOF;
                  destruct (ordered_token a Oa T); clear T);
             clear Oa
         end.

Ltac open_within :=
  repeat match goal with
         | K : within _ _ _ |- _ =>
             destruct K as ((?s & ?t & ?Hs & ?Ht & ?L1 & ?L2 & ?L3) & ?N)
         | K : whenSome _ (Some _) |- _ => cbn [whenSome] in K
         | K : whenSome _ None |- _ => clear K
         end.

(** Follows the facts [token.le a b] of the context from one location to
    another, through [n] of them at most. *)
Ltac le_chain n :=
  first
    [ apply le_refl
    | eassumption
    | lazymatch n with
      | S ?m =>
          match goal with
          | |- token.le ?a ?b =>
              match goal with
              | H : token.le a ?c |- _ => apply (le_trans a c b H); le_chain m
              end
          end
      end ].

Ltac span_eq :=
  cbn [exprStart exprEnd idSpan slSpan start end_ pspan];
  first [reflexivity | eassumption].

Ltac spans_goal :=
  unfold spans; eexists; eexists;
  split; [span_eq|]; split; [span_eq|];
  split; [le_chain 16%nat|]; split; le_chain 16%nat.

Ltac nested_goal :=
  cbn [nested optional];
  repeat match goal with
         | |- (_ && _) = true => apply andb_true_intro; split
         end;
  first
    [ assumption
    | reflexivity
    | eapply contains_intro;
      [span_eq | span_eq | span_eq | span_eq | le_chain 16%nat ..]
    | eapply call_arguments; [span_eq | | | eassumption]; le_chain 16%nat ].

Ltac within_goal :=
  try apply within_withOpenLoc;
  first [ eassumption
        | order_facts; open_within; split; [spans_goal | nested_goal] ].

Ltac learn_within E :=
  try (let K := fresh "K" in
       pose proof E as K;
       match goal with
       | Y : ?T |- _ =>
           lazymatch T with context [within] => idtac end;
           eapply Y in K;
           [ | solve [ still_ordered | nonEOF | exact (List.Forall_nil _)
                     | apply le_refl | exact I
                     | order_facts; le_chain 16%nat
                     | cbn [whenSome]; within_goal ] .. ]
       end).

Section Spanning.

Context (sc : Strconv).

Lemma parseIntegerLiteral_within (p : Parser) (e : Expression) (q : Parser) :
  parseIntegerLiteral p = Done e q -> ordered p -> tok p <> token.EOF ->
  within (lexStart p) (lexStart q) e.
Proof.
  intros H O T. unfold parseIntegerLiteral in H. settle H. within_goal.
Qed.

Lemma parseFloatLiteral_within (p : Parser) (e : Expression) (q : Parser) :
  parseFloatLiteral p = Done e q -> ordered p -> tok p <> token.EOF ->
  within (lexStart p) (lexStart q) e.
Proof.
  intros H O T. unfold parseFloatLiteral in H. settle H. within_goal.
Qed.

Lemma parseImaginaryLiteral_within (p : Parser) (e : Expression) (q : Parser) :
  parseImaginaryLiteral p = Done e q -> ordered p -> tok p <> token.EOF ->
  within (lexStart p) (lexStart q) e.
Proof.
  intros H O T. unfold parseImaginaryLiteral in H. settle H. within_goal.
Qed.

Lemma parseRuneLiteral_within (p : Parser) (e : Expression) (q : Parser) :
  parseRuneLiteral sc p = Done e q -> ordered p -> tok p <> token.EOF ->
  within (lexStart p) (lexStart q) e.
Proof.
  intros H O T. unfold parseRuneLiteral in H. settle H. within_goal.
Qed.

Lemma grammar_spans (fuel : nat) : Spans sc fuel.
Proof.
  pose proof parseIntegerLiteral_within as P1.
  pose proof parseFloatLiteral_within as P2.
  pose proof parseImaginaryLiteral_within as P3.
  pose proof parseRuneLiteral_within as P4.
  pose proof parseIntegerLiteral_adv as L1.
  pose proof parseFloatLiteral_adv as L2.
  pose proof parseImaginaryLiteral_adv as L3.
  pose proof (parseRuneLiteral_adv sc) as L4.
  induction fuel as [|fuel IH].
  - unfold Spans. conjuncts; intros; discriminate.
  - destruct (grammar_advances sc fuel)
      as (A1 & A2 & A3 & A4 & A5 & A6 & A7 & A8
          & A9 & A10 & A11 & A12 & A13 & A14 & A15 & A16
          & A17 & A18 & A19 & A20 & A21).
    destruct IH as (I1 & I2 & I3 & I4 & I5 & I6 & I7 & I8 & I9 & I10 & I11 & I12).
    unfold Spans. conjuncts.
    + (* parseExpression *)
      intros p e q H O. cbn -[token.eqb] in H.
      settle_gen ltac:(fun E => learn_within E) H. within_goal.
    + (* parseBinaryExpr *)
      intros prec p e q H O. cbn -[token.eqb] in H.
      settle_gen ltac:(fun E => learn_within E) H. within_goal.
    + (* parseBinaryExprLoop *)
      intros prec left p e q lo H O W. cbn -[token.eqb] in H.
      settle_gen ltac:(fun E => learn_within E) H; within_goal.
    + (* parseUnaryExpr *)
      intros p e q H O. cbn -[token.eqb] in H.
      settle_gen ltac:(fun E => learn_within E) H; within_goal.
    + (* parsePrimaryExpr *)
      intros p e q H O. cbn -[token.eqb] in H.
      settle_gen ltac:(fun E => learn_within E) H; within_goal.
    + (* parsePrimaryExprLoop *)
      intros left p e q lo H O W. cbn -[token.eqb] in H.
      settle_gen ltac:(fun E => learn_within E) H; within_goal.
    + (* parseSliceOrIndex *)
      intros left p e q lo H O W. cbn -[token.eqb] in H.
      settle_gen ltac:(fun E => learn_within E) H; within_goal.
    + (* parseSliceHighMax *)
      intros left low p e q lo m H O W M Wl. cbn -[token.eqb] in H.
      destruct low as [low|];
        settle_gen ltac:(fun E => learn_within E) H; within_goal.
    + (* parseCall *)
      intros left p e q lo H O W. cbn -[token.eqb] in H.
      settle_gen ltac:(fun E => learn_within E) H; within_goal.
    + (* parseExpressionList *)
      intros exprs p es q lo H O Lo F. cbn -[token.eqb] in H.
      apply bind_Done in H as (e & q0 & E & H).
      pose proof (I1 _ _ _ E O) as K. apply A10 in E.
      cbv zeta in H.
      apply bind_Done in H as (t & q1 & E1 & H). apply peek_Done in E1 as [-> ->].
      assert (F' : Forall (within lo (lexStart q0)) (exprs ++ [e])).
      { apply Forall_app. split.
        - eapply Forall_impl; [exact F|]. intros x Wx. cbv beta.
          eapply within_wider; [exact Wx | apply le_refl |].
          order_facts. le_chain 4%nat.
        - constructor; [|constructor].
          eapply within_wider; [exact K | exact Lo | apply le_refl]. }
      destruct (token.eqb (tok q0) token.Comma) eqn:C.
      * apply bind_Done in H as (u & q2 & E2 & H). settle E2.
        eapply I10 in H; [exact H | still_ordered | |].
        -- order_facts. le_chain 8%nat.
        -- eapply Forall_impl; [exact F'|]. intros x Wx. cbv beta.
           eapply within_wider; [exact Wx | apply le_refl |].
           order_facts. le_chain 4%nat.
      * apply ret_Done in H as [? ?]. subst. exact F'.
    + (* parseOperand *)
      intros p e q H O. cbn -[token.eqb] in H.
      unfold parseIdentifier, parseStringLiteral in H.
      settle_gen ltac:(fun E => learn_within E) H; within_goal.
    + (* parseSelectorOrTypeAssertion *)
      intros left p e q lo H O W. cbn -[token.eqb] in H.
      unfold parseIdentifier in H.
      settle_gen ltac:(fun E => learn_within E) H; within_goal.
Qed.

End Spanning.

Lemma ordered_eof (ls : list Lexeme) (eof : Location) :
  orderedFrom ls eof ->
  token.le (match ls with
            | [] => eof
            | l :: _ => lstart l
            end) eof.
Proof.
  induction ls as [|l rest IH]; cbn [orderedFrom].
  - intros _. apply le_refl.
  - intros (O1 & O2 & O3). eapply le_trans; [exact O1|].
    eapply le_trans; [exact O2|]. exact (IH O3).
Qed.

Lemma lexStart_eof (p : Parser) : ordered p -> token.le (lexStart p) (eofAt p).
Proof.
  intros O. pose proof (ordered_eof _ _ O) as H.
  unfold lexStart, lex. destruct (unread p); exact H.
Qed.

(** X22: spans nest, for every input.  On tokens in source order, the tree
    that [Parse] of the expression grammar returns lies between the first
    token and the end of the input, starts no later than it ends, and so does
    every expression in it; the span of every node contains the spans of the
    expressions that are its children. *)
Theorem Parse_nests_spans (sc : Strconv) (fuel : nat) (p : Parser)
    (e : Expression) :
  ordered p ->
  Grammar.Parse sc fuel p = Returned (Some (NExpression e)) None ->
  within (lexStart p) (eofAt p) e.
Proof.
  intros O H. unfold Grammar.Parse in H.
  destruct (Grammar.parseExpression sc fuel p) as [x q|v|] eqn:E.
  - injection H as <-.
    destruct (grammar_spans sc fuel) as (S1 & _).
    destruct (grammar_advances sc fuel) as (_ & _ & _ & _ & _ & _ & _ & _ & _ & A & _).
    pose proof (S1 _ _ _ E O) as W. apply A in E.
    apply (within_wider _ _ _ _ _ W); [apply le_refl|].
    pose proof (ordered_adv 1 p q E O) as Oq.
    destruct E as (Ee & _). rewrite <- Ee. now apply lexStart_eof.
  - destruct v; discriminate H.
  - discriminate H.
Qed.

Lemma Parse_nests_spans_witness :
  within (from columns 0) (from columns 9)
    (EBinaryOp token.Plus (from columns 5)
       (EUnaryOp token.Minus (from columns 0)
          (EIndex (identAt columns 1 "a") (identAt columns 3 "i")
             (from columns 2) (upto columns 4)))
       (ESelector (identAt columns 6 "b")
          (mkIdentifier "c" (spanAt columns 8)) (from columns 7))).
Proof.
  apply (Parse_nests_spans noStrconv 20 sumOfIndexAndSelector).
  - vm_compute. repeat split.
  - reflexivity.
Defined.

Lemma noneNamed_typeNameDecls (idents : list Identifier) :
  noneNamed (typeNameDecls idents) = true.
Proof. unfold noneNamed, typeNameDecls. induction idents; cbn; auto. Qed.

Lemma noneVariadic_typeNameDecls (idents : list Identifier) :
  noneVariadic (typeNameDecls idents) = true.
Proof. unfold noneVariadic, typeNameDecls. induction idents; cbn; auto. Qed.

Lemma noneVariadic_removelast (ps : list ParameterDecl) :
  noneVariadic ps = true -> variadicLast ps = true.
Proof.
  unfold variadicLast, noneVariadic.
  induction ps as [|d ps IH]; [reflexivity|]. cbn [forallb removelast].
  intros H. apply andb_true_iff in H as [D H].
  destruct ps; [reflexivity|]. cbn [forallb]. rewrite D. exact (IH H).
Qed.

Lemma variadicLast_app (ps : list ParameterDecl) (d : ParameterDecl) :
  variadicLast (ps ++ [d]) = noneVariadic ps.
Proof. unfold variadicLast. now rewrite removelast_last. Qed.

Lemma noneNamed_app (ps qs : list ParameterDecl) :
  noneNamed (ps ++ qs) = noneNamed ps && noneNamed qs.
Proof. apply forallb_app. Qed.

Lemma allNamed_app (ps qs : list ParameterDecl) :
  allNamed (ps ++ qs) = allNamed ps && allNamed qs.
Proof. apply forallb_app. Qed.

Lemma noneVariadic_app (ps qs : list ParameterDecl) :
  noneVariadic (ps ++ qs) = noneVariadic ps && noneVariadic qs.
Proof. apply forallb_app. Qed.

Lemma parseDeclIdentifiers_some (sc : Strconv) (fuel : nat) :
  forall ids p r q,
    Grammar.parseDeclIdentifiers fuel ids p = Done r q -> r <> [].
Proof.
  pose proof parseIdentifier_adv as Li.
  pose proof parseDeclIdentifiers_adv as L6.
  induction fuel as [|fuel IH]; intros ids p r q H; [discriminate|].
  cbn -[token.eqb] in H.
  settle_gen ltac:(fun E => learn_about (@nil Identifier) E) H.
  - assumption.
  - now destruct ids.
Qed.

Ltac kind_goal :=
  cbn [plParameters] in *;
  repeat match goal with
         | K : _ /\ _ |- _ => destruct K
         end;
  rewrite ?variadicLast_app, ?noneNamed_app, ?allNamed_app, ?noneVariadic_app;
  repeat match goal with
         | |- _ /\ _ => split
         | |- (_ && _) = true => apply andb_true_intro; split
         end;
  first [ assumption
        | reflexivity
        | apply noneNamed_typeNameDecls
        | apply noneVariadic_typeNameDecls
        | apply noneVariadic_removelast;
          first [assumption | apply noneVariadic_typeNameDecls]
        | match goal with
          | N : ?ids <> [] |- _ => destruct ids; [contradiction | reflexivity]
          end
        | match goal with
          | |- context [?ids ++ [?x]] => destruct ids; reflexivity
          end ].

Ltac oneKind_goal :=
  first [ assumption
        | unfold oneKind; apply orb_true_iff;
          first [ left; solve [kind_goal] | right; solve [kind_goal] ] ].

Ltac learn_kind E :=
  try (let K := fresh "K" in
       pose proof E as K;
       match goal with
       | Y : ?T |- _ =>
           lazymatch T with context [plParameters] => idtac end;
           apply Y in K; [ | solve [kind_goal] .. ]
       end);
  learn_about (@nil Identifier) E.

Section Kinds.

Context (sc : Strconv).

Lemma grammar_oneKind (fuel : nat) : OneKind sc fuel.
Proof.
  pose proof (parseDeclIdentifiers_some sc) as S6.
  pose proof parseIdentifier_adv as Li.
  pose proof parseDeclIdentifiers_adv as L6.
  induction fuel as [|fuel IH].
  - unfold OneKind. conjuncts; intros; discriminate.
  - destruct (grammar_advances sc fuel)
      as (A1 & A2 & A3 & A4 & A5 & A6 & A7 & A8
          & A9 & A10 & A11 & A12 & A13 & A14 & A15 & A16
          & A17 & A18 & A19 & A20 & A21).
    destruct IH as (I1 & I2 & I3).
    unfold OneKind. conjuncts.
    + intros pl idents p r q H. cbn -[token.eqb] in H.
      settle_gen ltac:(fun E => learn_kind E) H; solve [oneKind_goal | kind_goal].
    + intros pl p r q H U V. cbn -[token.eqb] in H.
      settle_gen ltac:(fun E => learn_kind E) H; solve [oneKind_goal | kind_goal].
    + intros pl p r q H U. cbn -[token.eqb] in H.
      settle_gen ltac:(fun E => learn_kind E) H; solve [oneKind_goal | kind_goal].
Qed.

End Kinds.

(** X23: a parameter list is of one kind.  In the list that
    [parseParameterList] returns either no declaration has identifiers, and
    then only the last one can be variadic, or every declaration has at
    least one identifier.  A list with identifiers may have a variadic
    declaration anywhere but first: [parseDeclParameterList] goes on after
    it. *)
Theorem parseParameterList_one_kind (sc : Strconv) (fuel : nat) (p : Parser)
    (pl : ParameterList) (q : Parser) :
  Grammar.parseParameterList sc fuel p = Done pl q ->
  noneNamed (plParameters pl) && variadicLast (plParameters pl)
  || allNamed (plParameters pl) = true.
Proof.
  intros H. destruct fuel as [|fuel]; [discriminate|].
  cbn -[token.eqb] in H.
  destruct (grammar_oneKind sc fuel) as (K1 & _).
  destruct (grammar_advances sc fuel)
    as (A1 & A2 & A3 & A4 & A5 & A6 & A7 & A8
        & A9 & A10 & A11 & A12 & A13 & A14 & A15 & A16
        & A17 & A18 & A19 & A20 & A21).
  settle_gen ltac:(fun E => learn_about plParameters E) H.
  exact K.
Qed.

Lemma parseParameterList_one_kind_witness :
  noneNamed variadicInTheMiddleDecls && variadicLast variadicInTheMiddleDecls
  || allNamed variadicInTheMiddleDecls = true
  /\ variadicLast variadicInTheMiddleDecls = false.
Proof.
  split; [|reflexivity].
  apply (parseParameterList_one_kind noStrconv 20 variadicInTheMiddle
           (mkParameterList variadicInTheMiddleDecls (from columns 0)
              (from columns 10))
           (mkParser [] token.zero)).
  reflexivity.
Defined.
